(** * Verification of the hertem presentation-site script (src/script.js)

    The development embeds the controllers of [script.js] as Rocq
    functions over explicit state and proves the properties the
    specification states about them.

    Conventions of the embedding.
    - A DOM element is a handle ([nat]); mutable element state lives in a
      store indexed by handles, so that two references to one element see
      the same state.
    - A [classList] is a finite set of class tokens.
    - JavaScript numbers are rationals together with a rounding operator
      [rnd] (class [Rounding]): every arithmetic operation rounds its exact
      result, as IEEE-754 does.  The identity rounding [exact_rounding]
      gives exact arithmetic.  Overflow and subnormal numbers are not
      modelled; division by zero is ([jsnum]).
    - JavaScript strings whose length or characters are inspected are lists
      of UTF-16 code units ([jsstring]); identifiers that are only compared
      are Rocq strings.
    - Timers run in virtual time: a callback fires exactly at its deadline. *)

From Stdlib Require Import ZArith QArith Qabs Qround Qminmax Lia Lqa Sorted.
From stdpp Require Import gmap list strings functions.

Set Default Proof Using "Type".
Local Open Scope Z_scope.

(* ===================================================================== *)
(** * JavaScript values *)
(* ===================================================================== *)

Module JS.

(** A DOM element handle (object identity). *)
Abbreviation handle := nat (only parsing).

(** A string as its UTF-16 code units: [s.length] is [length s] and [s[i]]
    is the [i]-th code unit. *)
Abbreviation jsstring := (list N) (only parsing).

Definition code_unit (a : Ascii.ascii) : N := Ascii.N_of_ascii a.

(** The code units of an ASCII literal. *)
Fixpoint str (s : string) : jsstring :=
  match s with
  | EmptyString => []
  | String a s' => code_unit a :: str s'
  end.

(** [DOMTokenList] operations. *)
Definition classList_add (c : string) (cl : gset string) : gset string := {[c]} ∪ cl.
Definition classList_remove (c : string) (cl : gset string) : gset string := cl ∖ {[c]}.
Definition classList_contains (c : string) (cl : gset string) : bool := bool_decide (c ∈ cl).

(** Relative precision of a double: 2^-53. *)
Definition eps : Q := 1 # (2 ^ 53).

(** Rounding to the nearest representable number. *)
Class Rounding := {
  rnd : Q -> Q;
  rnd_mono : forall x y : Q, (x <= y)%Q -> (rnd x <= rnd y)%Q;
  rnd_idem : forall x : Q, (rnd (rnd x) == rnd x)%Q;
  rnd_int : forall z : Z, Z.abs z <= 2 ^ 53 -> (rnd (inject_Z z) == inject_Z z)%Q;
  rnd_rel : forall x : Q, (Qabs (rnd x - x) <= eps * Qabs x)%Q
}.

(** Exact arithmetic is a rounding. *)
#[refine] Instance exact_rounding : Rounding := {| rnd := fun x => x |}.
Proof.
  - intros x y H. exact H.
  - intros x. reflexivity.
  - intros z _. reflexivity.
  - intros x. assert (E : (x - x == 0)%Q) by ring. rewrite E.
    simpl. apply Qmult_le_0_compat; [discriminate | apply Qabs_nonneg].
Defined.

Section Arith.
Context `{Rounding}.

Definition fadd (x y : Q) : Q := rnd (x + y).
Definition fmul (x y : Q) : Q := rnd (x * y).
(** Division by a non-zero number. *)
Definition fdiv (x y : Q) : Q := rnd (x / y).
End Arith.

(** Powers of a rational, for error bounds. *)
Fixpoint qpow (q : Q) (n : nat) : Q :=
  match n with
  | O => 1
  | S n' => q * qpow q n'
  end.

(** A number as an operation that may divide by zero returns it. *)
Inductive jsnum :=
  | Num (q : Q)
  | NaN
  | PosInf
  | NegInf.

End JS.
Import JS.

(* ===================================================================== *)
(** * AnimationObserver *)
(* ===================================================================== *)

Module AnimationObserver.

(** What [handleIntersection] and [animateCounter] read of an element.
    [dataTarget] is [parseInt(element.getAttribute('data-target'))], [None]
    standing for [NaN]. *)
Record element := {
  classList : gset string;
  dataTarget : option Z
}.

Record entry := {
  isIntersecting : bool;
  target : handle
}.

(** The reactions of the observer, in the order they happen. *)
Inductive effect :=
  | ClassAdded (h : handle) (c : string)
  | SetAdded (h : handle)
  | CounterStarted (h : handle) (target : Z).

Record state := {
  dom : handle -> element;
  animatedElements : gset handle;
  effects : list effect
}.

Definition init (d : handle -> element) : state :=
  {| dom := d; animatedElements := ∅; effects := [] |}.

(** [parseInt(...) || 0]: [NaN] and [0] are falsy. *)
Definition counterTarget (e : element) : Z :=
  match dataTarget e with
  | Some z => if Z.eqb z 0 then 0 else z
  | None => 0
  end.

Definition add_class (h : handle) (c : string) (s : state) : state :=
  let e := dom s h in
  {| dom := <[h := {| classList := classList_add c (classList e);
                      dataTarget := dataTarget e |}]> (dom s);
     animatedElements := animatedElements s;
     effects := effects s ++ [ClassAdded h c] |}.

Definition set_add (h : handle) (s : state) : state :=
  {| dom := dom s;
     animatedElements := {[h]} ∪ animatedElements s;
     effects := effects s ++ [SetAdded h] |}.

(** [this.animateCounter(entry.target)]; the animation itself is
    [animateCounter] below. *)
Definition start_counter (h : handle) (s : state) : state :=
  {| dom := dom s;
     animatedElements := animatedElements s;
     effects := effects s ++ [CounterStarted h (counterTarget (dom s h))] |}.

(** The body of the [forEach] callback of [handleIntersection]. *)
Definition handleEntry (s : state) (en : entry) : state :=
  let h := target en in
  if isIntersecting en && negb (bool_decide (h ∈ animatedElements s)) then
    let s1 := add_class h "aos-animate" s in
    let s2 := set_add h s1 in
    if classList_contains "analytics-number" (classList (dom s2 h))
       || classList_contains "stat-number" (classList (dom s2 h))
    then start_counter h s2
    else s2
  else s.

Definition handleIntersection (s : state) (entries : list entry) : state :=
  foldl handleEntry s entries.

(** The observer's whole life: one callback per batch of entries. *)
Definition run (d : handle -> element) (batches : list (list entry)) : state :=
  foldl handleIntersection (init d) batches.

Definition is_class_added (h : handle) (c : string) (ef : effect) : bool :=
  match ef with
  | ClassAdded h' c' => bool_decide (h' = h) && bool_decide (c' = c)
  | _ => false
  end.

Definition is_set_added (h : handle) (ef : effect) : bool :=
  match ef with SetAdded h' => bool_decide (h' = h) | _ => false end.

Definition is_counter_started (h : handle) (ef : effect) : bool :=
  match ef with CounterStarted h' _ => bool_decide (h' = h) | _ => false end.

Definition count (p : effect -> bool) (l : list effect) : nat :=
  length (List.filter p l).

(** Every reaction recorded for [h] was followed by the insertion of [h]
    into [animatedElements], and none is recorded twice. *)
Definition once (s : state) : Prop :=
  forall h c,
    (count (is_class_added h c) (effects s) <= 1)%nat /\
    (count (is_set_added h) (effects s) <= 1)%nat /\
    (count (is_counter_started h) (effects s) <= 1)%nat /\
    (h ∉ animatedElements s ->
       count (is_class_added h c) (effects s) = 0%nat /\
       count (is_set_added h) (effects s) = 0%nat /\
       count (is_counter_started h) (effects s) = 0%nat).

(** ** The counter *)

Section Counter.
Context `{Rounding}.

Definition duration : Q := 2000.

Definition increment (target : Z) : Q :=
  fdiv (inject_Z target) (fdiv duration 16).

(** [updateCounter]: one call per animation frame; [fuel] bounds the
    number of frames.  The result is the sequence of values assigned to
    [element.textContent]. *)
Fixpoint updateCounter (fuel : nat) (target : Z) (current : Q) : option (list Z) :=
  match fuel with
  | O => None
  | S fuel' =>
      let current := fadd current (increment target) in
      if Qlt_le_dec current (inject_Z target) then
        match updateCounter fuel' target current with
        | Some l => Some (Qfloor current :: l)
        | None => None
        end
      else Some [target]
  end.

Definition animateCounter (fuel : nat) (target : Z) : option (list Z) :=
  updateCounter fuel target 0.

(** The running value [current] after [k] frames. *)
Definition running (target : Z) (k : nat) : Q :=
  Nat.iter k (fun c => fadd c (increment target)) 0%Q.

(** The values rendered when the [k]-th frame is the last one. *)
Definition renders (target : Z) (k : nat) : list Z :=
  map (fun j => Qfloor (running target j)) (seq 1 (k - 1)) ++ [target].
End Counter.

End AnimationObserver.

(* ===================================================================== *)
(** * NavigationController *)
(* ===================================================================== *)

Module NavigationController.

(** A [section[id]] element: [offsetTop], [offsetHeight] and its [id]. *)
Record section := {
  offsetTop : Z;
  offsetHeight : Z;
  sectionId : string
}.

(** A [.nav-link] element; [href] is [None] when the attribute is absent. *)
Record link := {
  href : option string;
  linkClasses : gset string
}.

Definition set_classes (l : link) (cl : gset string) : link :=
  {| href := href l; linkClasses := cl |}.

(** The condition of the [if] guarding the inner loop. *)
Definition in_window (scrollPos : Z) (sec : section) : bool :=
  (offsetTop sec <=? scrollPos) && (scrollPos <? offsetTop sec + offsetHeight sec).

(** The body of the inner [navLinks.forEach]. *)
Definition highlight (sid : string) (l : link) : link :=
  let l' := set_classes l (classList_remove "active" (linkClasses l)) in
  if bool_decide (href l' = Some ("#" +:+ sid))
  then set_classes l' (classList_add "active" (linkClasses l'))
  else l'.

Definition updateActiveLink (scrollY : Z) (sections : list section)
    (navLinks : list link) : list link :=
  let scrollPos := scrollY + 100 in
  foldl (fun links sec =>
           if in_window scrollPos sec
           then map (highlight (sectionId sec)) links
           else links)
        navLinks sections.

(** The last section, in document order, whose window contains [scrollPos]. *)
Definition last_section_at (scrollPos : Z) (sections : list section) : option section :=
  List.last (map Some (List.filter (in_window scrollPos) sections)) None.

End NavigationController.

(* ===================================================================== *)
(** * Scroll progress indicator *)
(* ===================================================================== *)

Module ScrollProgress.

Section Progress.
Context `{Rounding}.

(** [x / y] where [y] may be zero. *)
Definition js_div (x y : Q) : jsnum :=
  if Qeq_bool y 0 then
    if Qeq_bool x 0 then NaN
    else if Qle_bool 0 x then PosInf else NegInf
  else Num (fdiv x y).

(** [x * c] for a positive finite constant [c]. *)
Definition js_mul_pos (x : jsnum) (c : Q) : jsnum :=
  match x with
  | Num q => Num (fmul q c)
  | other => other
  end.

(** [Math.min(x, c)] for a finite constant [c]. *)
Definition js_min (x : jsnum) (c : Q) : jsnum :=
  match x with
  | Num q => Num (if Qle_bool q c then q else c)
  | NaN => NaN
  | PosInf => Num c
  | NegInf => NegInf
  end.

(** The scroll handler: the number placed before ['%'] in
    [progressBar.style.width]. *)
Definition progressWidth (scrollY : Q) (scrollHeight innerHeight : Z) : jsnum :=
  let scrolled := scrollY in
  let maxScroll := inject_Z (scrollHeight - innerHeight) in
  let progress := js_mul_pos (js_div scrolled maxScroll) 100 in
  js_min progress 100.

End Progress.

End ScrollProgress.

(* ===================================================================== *)
(** * TabController *)
(* ===================================================================== *)

Module TabController.

(** The attributes [switchTab] reads and the class list it writes. *)
Record element := {
  data_tab : option string;
  data_example : option string;
  elementId : option string;
  classes : gset string
}.

Definition set_classes (e : element) (cl : gset string) : element :=
  {| data_tab := data_tab e; data_example := data_example e;
     elementId := elementId e; classes := cl |}.

(** [a || b] on attribute values: [null] and [''] are falsy. *)
Definition js_or (a b : option string) : option string :=
  match a with
  | Some s => if bool_decide (s = "") then b else a
  | None => b
  end.

(** String conversion inside a template literal. *)
Definition to_string (v : option string) : string :=
  match v with
  | Some s => s
  | None => "null"
  end.

Definition buttonTabId (e : element) : option string :=
  js_or (data_tab e) (data_example e).

Definition button_matches (activeTabId : option string) (e : element) : bool :=
  bool_decide (buttonTabId e = activeTabId).

Definition content_matches (activeTabId : option string) (e : element) : bool :=
  bool_decide (elementId e = Some ("tab-" +:+ to_string activeTabId))
  || bool_decide (elementId e = Some ("example-" +:+ to_string activeTabId)).

(** One iteration of either [forEach] on the element itself: remove
    ['active'], add it back when the element matches. *)
Definition marked (matches : element -> bool) (e : element) : element :=
  let e' := set_classes e (classList_remove "active" (classes e)) in
  if matches e'
  then set_classes e' (classList_add "active" (classes e'))
  else e'.

Definition mark (matches : element -> bool) (dom : handle -> element) (h : handle)
    : handle -> element :=
  <[h := marked matches (dom h)]> dom.

(** A matcher that reads attributes only. *)
Definition attr_only (m : element -> bool) : Prop :=
  forall e cl, m (set_classes e cl) = m e.

Record controller := {
  tabButtons : list handle;
  tabContents : list handle
}.

Definition switchTab (c : controller) (activeTabId : option string)
    (dom : handle -> element) : handle -> element :=
  let dom1 := foldl (mark (button_matches activeTabId)) dom (tabButtons c) in
  foldl (mark (content_matches activeTabId)) dom1 (tabContents c).

Definition is_active (dom : handle -> element) (h : handle) : bool :=
  classList_contains "active" (classes (dom h)).

Definition active_count (dom : handle -> element) (l : list handle) : nat :=
  length (List.filter (is_active dom) l).

(** Two buttons with the same [data-tab]. *)
Definition twin_buttons : handle -> element :=
  fun _ => {| data_tab := Some "a"; data_example := None; elementId := None; classes := ∅ |}.

End TabController.

(* ===================================================================== *)
(** * Regular expressions *)
(* ===================================================================== *)

Module Regex.

(** Regular expressions over code units; a character class is its
    membership test. *)
Inductive regex :=
  | Void
  | Eps
  | Class (p : N -> bool)
  | Seq (r1 r2 : regex)
  | Alt (r1 r2 : regex)
  | Star (r : regex).

(** A literal character. *)
Definition Chr (c : N) : regex := Class (N.eqb c).

(** [r+]. *)
Definition Plus (r : regex) : regex := Seq r (Star r).

(** The strings a regular expression matches from [^] to [$]. *)
Inductive matches : regex -> jsstring -> Prop :=
  | m_eps : matches Eps []
  | m_class p c : p c = true -> matches (Class p) [c]
  | m_seq r1 r2 s1 s2 : matches r1 s1 -> matches r2 s2 -> matches (Seq r1 r2) (s1 ++ s2)
  | m_alt_l r1 r2 s : matches r1 s -> matches (Alt r1 r2) s
  | m_alt_r r1 r2 s : matches r2 s -> matches (Alt r1 r2) s
  | m_star_nil r : matches (Star r) []
  | m_star_cons r s1 s2 : matches r s1 -> matches (Star r) s2 -> matches (Star r) (s1 ++ s2).

Fixpoint nullable (r : regex) : bool :=
  match r with
  | Void => false
  | Eps => true
  | Class _ => false
  | Seq r1 r2 => nullable r1 && nullable r2
  | Alt r1 r2 => nullable r1 || nullable r2
  | Star _ => true
  end.

(** The derivative of [r] by the code unit [c]. *)
Fixpoint der (c : N) (r : regex) : regex :=
  match r with
  | Void => Void
  | Eps => Void
  | Class p => if p c then Eps else Void
  | Seq r1 r2 =>
      if nullable r1
      then Alt (Seq (der c r1) r2) (der c r2)
      else Seq (der c r1) r2
  | Alt r1 r2 => Alt (der c r1) (der c r2)
  | Star r' => Seq (der c r') (Star r')
  end.

(** [regex.test(s)] for an expression anchored at both ends. *)
Definition test (r : regex) (s : jsstring) : bool :=
  nullable (foldl (fun r c => der c r) r s).

End Regex.

(* ===================================================================== *)
(** * FormController *)
(* ===================================================================== *)

Module FormController.
Import Regex.

(** The code units [\s] matches and [trim] strips: white space and line
    terminators. *)
Definition is_space (c : N) : bool :=
  ((9 <=? c) && (c <=? 13) || (c =? 32) || (c =? 160) || (c =? 5760)
   || (8192 <=? c) && (c <=? 8202) || (c =? 8232) || (c =? 8233)
   || (c =? 8239) || (c =? 8287) || (c =? 12288) || (c =? 65279))%N.

Fixpoint trimStart (s : jsstring) : jsstring :=
  match s with
  | c :: s' => if is_space c then trimStart s' else s
  | [] => []
  end.

Definition trim (s : jsstring) : jsstring :=
  rev (trimStart (rev (trimStart s))).

Definition at_sign : N := 64.
Definition dot : N := 46.

(** [[^\s@]]. *)
Definition not_space_at (c : N) : bool := negb (is_space c || (c =? at_sign)%N).

(** [/^[^\s@]+@[^\s@]+\.[^\s@]+$/]. *)
Definition emailRegex : regex :=
  Seq (Plus (Class not_space_at))
      (Seq (Chr at_sign)
           (Seq (Plus (Class not_space_at))
                (Seq (Chr dot) (Plus (Class not_space_at))))).

(** The [local@domain.tld] shape in words: three non-empty runs of code
    units other than white space and ['@'], joined by ['@'] and ['.']. *)
Definition email_shape (s : jsstring) : Prop :=
  exists loc dom tld : jsstring,
    s = loc ++ [at_sign] ++ dom ++ [dot] ++ tld /\
    loc <> [] /\ dom <> [] /\ tld <> [] /\
    Forall (fun c => not_space_at c = true) loc /\
    Forall (fun c => not_space_at c = true) dom /\
    Forall (fun c => not_space_at c = true) tld.

Inductive tagName := input | select | textarea.

Record field := {
  tag : tagName;
  name : option string;
  required : bool;
  value : jsstring;
  defaultValue : jsstring;
  classes : gset string
}.

Definition set_classes (f : field) (cl : gset string) : field :=
  {| tag := tag f; name := name f; required := required f; value := value f;
     defaultValue := defaultValue f; classes := cl |}.

(** The [switch (fieldName)] of [validateField]. *)
Definition isValid (fieldName : option string) (value : jsstring) : bool :=
  match fieldName with
  | Some n =>
      if String.eqb n "name" then (2 <=? length value)%nat
      else if String.eqb n "email" then test emailRegex value
      else if String.eqb n "company" then (2 <=? length value)%nat
      else if String.eqb n "team-size" then negb (bool_decide (value = []))
      else true
  | None => true
  end.

(** [validateField] returns [isValid] and leaves the field's class list
    changed. *)
Definition validateField (f : field) : bool * field :=
  let value := trim (value f) in
  let fieldName := name f in
  let f1 := set_classes f (classList_remove "error" (classes f)) in
  let isValid := isValid fieldName value in
  if negb isValid
  then (isValid, set_classes f1 (classList_add "error" (classes f1)))
  else (isValid, f1).

(** The names [validateField] has a rule for. *)
Definition validated_names : list (option string) :=
  [Some "name"; Some "email"; Some "company"; Some "team-size"].

Inductive banner :=
  | success_message (text : string)
  | error_message (text : string).

Record form := {
  controls : list field;
  submitDisabled : bool;
  loadingDisplay : string;
  labelDisplay : string;
  messages : list banner;
  apiCalls : nat
}.

Definition with_controls (fm : form) (cs : list field) : form :=
  {| controls := cs; submitDisabled := submitDisabled fm;
     loadingDisplay := loadingDisplay fm; labelDisplay := labelDisplay fm;
     messages := messages fm; apiCalls := apiCalls fm |}.

(** [removeMessages] followed by appending the new banner.  The banner's
    removal after 5000 ms is not part of the model. *)
Definition showSuccess (message : string) (fm : form) : form :=
  {| controls := controls fm; submitDisabled := submitDisabled fm;
     loadingDisplay := loadingDisplay fm; labelDisplay := labelDisplay fm;
     messages := [success_message message]; apiCalls := apiCalls fm |}.

Definition showError (message : string) (fm : form) : form :=
  {| controls := controls fm; submitDisabled := submitDisabled fm;
     loadingDisplay := loadingDisplay fm; labelDisplay := labelDisplay fm;
     messages := [error_message message]; apiCalls := apiCalls fm |}.

Definition setLoadingState (isLoading : bool) (fm : form) : form :=
  {| controls := controls fm;
     submitDisabled := isLoading;
     loadingDisplay := if isLoading then "inline" else "none";
     labelDisplay := if isLoading then "none" else "inline";
     messages := messages fm; apiCalls := apiCalls fm |}.

(** [form.reset()]. *)
Definition reset (fm : form) : form :=
  with_controls fm
    (map (fun f => {| tag := tag f; name := name f; required := required f;
                      value := defaultValue f; defaultValue := defaultValue f;
                      classes := classes f |}) (controls fm)).

(** The selector ['input[required], select[required]']. *)
Definition selected (f : field) : bool :=
  match tag f with
  | input | select => required f
  | textarea => false
  end.

Definition invalid_fields_message : string :=
  "Пожалуйста, заполните все обязательные поля корректно".
Definition thanks_message : string :=
  "Спасибо! Мы свяжемся с вами в ближайшее время.".
Definition failure_message : string :=
  "Произошла ошибка при отправке формы. Попробуйте еще раз.".

(** [handleSubmit] up to its first suspension: either it has returned
    ([Blocked]) or it awaits the timer of [simulateApiCall] ([Awaiting]). *)
Inductive submission :=
  | Blocked (fm : form)
  | Awaiting (fm : form).

(** The [inputs.forEach] of [handleSubmit]: every selected control is
    validated, none is skipped. *)
Definition validateAll (cs : list field) : list field * bool :=
  foldl (fun '(done, isFormValid) f =>
           if selected f then
             let '(ok, f') := validateField f in
             (done ++ [f'], if negb ok then false else isFormValid)
           else (done ++ [f], isFormValid))
        ([], true) cs.

Definition startApiCall (fm : form) : form :=
  {| controls := controls fm; submitDisabled := submitDisabled fm;
     loadingDisplay := loadingDisplay fm; labelDisplay := labelDisplay fm;
     messages := messages fm; apiCalls := S (apiCalls fm) |}.

Definition handleSubmit (fm : form) : submission :=
  let '(cs, isFormValid) := validateAll (controls fm) in
  let fm1 := with_controls fm cs in
  if negb isFormValid
  then Blocked (showError invalid_fields_message fm1)
  else Awaiting (startApiCall (setLoadingState true fm1)).

(** The number the literal [0.1] denotes: the double nearest to 1/10, which
    is 3602879701896397 / 2^55 and lies just above 1/10. *)
Definition one_tenth : Q := 3602879701896397 # 36028797018963968.

(** The rest of [handleSubmit] once the 2000 ms timer has fired; [random] is
    the value of [Math.random()], and [Math.random() > 0.1] compares it with
    the double [one_tenth]. *)
Definition resume (random : Q) (fm : form) : form :=
  let fm1 :=
    if Qlt_le_dec one_tenth random
    then reset (showSuccess thanks_message fm)
    else showError failure_message fm in
  setLoadingState false fm1.

(** A form with one control, nothing loading and no call made yet. *)
Definition single_control (f : field) : form :=
  {| controls := [f]; submitDisabled := false; loadingDisplay := "none";
     labelDisplay := "inline"; messages := []; apiCalls := 0 |}.

End FormController.

(* ===================================================================== *)
(** * TelegramAnimator *)
(* ===================================================================== *)

Module TelegramAnimator.

Inductive role := bot | user.

Record message := {
  type : role;
  text : jsstring
}.

(** [this.messages], as UTF-16 code units. *)
Definition messages : list message :=
  [ {| type := bot;
       text := [1044; 1086; 1073; 1088; 1086; 32; 1087; 1086; 1078; 1072; 1083;
                1086; 1074; 1072; 1090; 1100; 32; 1074; 32; 72; 101; 114; 109;
                101; 115; 84; 101; 97; 109; 33; 32; 55357; 56395]%N |};
    {| type := user;
       text := [47; 115; 116; 97; 116; 117; 115; 32; 1087; 1088; 1086; 1077;
                1082; 1090; 45; 1040]%N |};
    {| type := bot;
       text := [1055; 1088; 1086; 1077; 1082; 1090; 32; 1040; 58; 32; 55; 53;
                37; 32; 1074; 1099; 1087; 1086; 1083; 1085; 1077; 1085; 1086;
                32; 9989; 10; 51; 32; 1072; 1082; 1090; 1080; 1074; 1085; 1099;
                1077; 32; 1079; 1072; 1076; 1072; 1095; 1080]%N |};
    {| type := user;
       text := [47; 99; 114; 101; 97; 116; 101; 32; 1079; 1072; 1076; 1072;
                1095; 1072; 32; 34; 1055; 1086; 1076; 1075; 1086; 1090; 1086;
                1074; 1080; 1090; 1100; 32; 1086; 1090; 1095; 1077; 1090; 34]%N |};
    {| type := bot;
       text := [1047; 1072; 1076; 1072; 1095; 1072; 32; 1089; 1086; 1079; 1076;
                1072; 1085; 1072; 32; 1080; 32; 1085; 1072; 1079; 1085; 1072;
                1095; 1077; 1085; 1072; 33; 32; 55357; 56523]%N |} ].

(** A message [div]. *)
Record messageElement := {
  className : string;
  opacity : string;
  textContent : jsstring
}.

(** A pending timer callback together with the variables it closes over. *)
Inductive callback :=
  | typeInterval (i : nat) (element : handle) (text : jsstring)
                 (charIndex : nat) (currentText : jsstring)
  | afterPause (i : nat)
  | restart.

Record timer := {
  due : Z;
  run : callback
}.

(** What an observer of the container sees happen. *)
Inductive mutation :=
  | Cleared
  | Created (i : nat) (element : handle)
  | Typed (element : handle) (content : jsstring)
  | Resolved (i : nat).

(** [elements] holds every message element created so far, indexed by
    handle; [messageContainer] lists the handles of the container's
    children; [log] records the mutations with the time they happen. *)
Record state := mkState {
  isAnimating : bool;
  currentMessageIndex : nat;
  elements : list messageElement;
  messageContainer : list handle;
  timers : list timer;
  clock : Z;
  log : list (Z * mutation)
}.

Definition set_textContent (txt : jsstring) (e : messageElement) : messageElement :=
  {| className := className e; opacity := opacity e; textContent := txt |}.

Definition set_opacity (o : string) (e : messageElement) : messageElement :=
  {| className := className e; opacity := o; textContent := textContent e |}.

Definition class_of (r : role) : string :=
  match r with
  | bot => "message bot-message"
  | user => "message user-message"
  end.

(** [setTimeout(cb, delay)], and each re-arming of [setInterval]. *)
Definition schedule (delay : Z) (cb : callback) (s : state) : state :=
  mkState (isAnimating s) (currentMessageIndex s) (elements s) (messageContainer s)
          (timers s ++ [{| due := clock s + delay; run := cb |}])
          (clock s) (log s).

Definition record (m : mutation) (s : state) : state :=
  mkState (isAnimating s) (currentMessageIndex s) (elements s) (messageContainer s)
          (timers s) (clock s) (log s ++ [(clock s, m)]).

Definition update_element (f : messageElement -> messageElement) (el : handle) (s : state) : state :=
  mkState (isAnimating s) (currentMessageIndex s) (alter f el (elements s))
          (messageContainer s) (timers s) (clock s) (log s).

Section Script.
Variable script : list message.

(** [typeText] up to the creation of the interval. *)
Definition typeText (i : nat) (element : handle) (text : jsstring) (s : state) : state :=
  schedule 50 (typeInterval i element text 0 [])
           (update_element (set_opacity "1") element s).

(** [addMessage] up to its first suspension. *)
Definition addMessage (i : nat) (messageData : message) (s : state) : state :=
  let messageElement := length (elements s) in
  let s1 :=
    mkState (isAnimating s) (currentMessageIndex s)
            (elements s ++ [{| className := class_of (type messageData);
                               opacity := "0"; textContent := [] |}])
            (messageContainer s ++ [messageElement])
            (timers s) (clock s) (log s) in
  typeText i messageElement (text messageData) (record (Created i messageElement) s1).

(** The [for] loop of [startAnimation] at its test [i < messages.length],
    and what follows the loop. *)
Definition continue_loop (i : nat) (s : state) : state :=
  match script !! i with
  | Some messageData => addMessage i messageData s
  | None => schedule 5000 restart s
  end.

Definition startAnimation (s : state) : state :=
  continue_loop 0
    (record Cleared
       (mkState true 0 (elements s) [] (timers s) (clock s) (log s))).

(** The body of a timer callback, with the code that resumes after the
    promise it resolves. *)
Definition run_callback (cb : callback) (s : state) : state :=
  match cb with
  | typeInterval i element text charIndex currentText =>
      match text !! charIndex with
      | Some c =>
          let currentText := currentText ++ [c] in
          schedule 50 (typeInterval i element text (S charIndex) currentText)
            (record (Typed element currentText)
               (update_element (set_textContent currentText) element s))
      | None =>
          schedule 1500 (afterPause i) (record (Resolved i) s)
      end
  | afterPause i => continue_loop (S i) s
  | restart =>
      startAnimation
        (mkState false (currentMessageIndex s) (elements s) (messageContainer s)
                 (timers s) (clock s) (log s))
  end.

(** The timer that fires next: the earliest deadline, the one created
    first among equals. *)
Fixpoint pick (ts : list timer) : option (timer * list timer) :=
  match ts with
  | [] => None
  | t :: ts' =>
      match pick ts' with
      | None => Some (t, [])
      | Some (t', rest) =>
          if due t' <? due t then Some (t', t :: rest) else Some (t, ts')
      end
  end.

(** One turn of the event loop on the timer queue. *)
Definition fire (s : state) : option state :=
  match pick (timers s) with
  | None => None
  | Some (t, rest) =>
      Some (run_callback (run t)
              (mkState (isAnimating s) (currentMessageIndex s) (elements s)
                       (messageContainer s) rest (due t) (log s)))
  end.

Fixpoint fire_n (n : nat) (s : state) : option state :=
  match n with
  | O => Some s
  | S n' =>
      match fire s with
      | Some s' => fire_n n' s'
      | None => None
      end
  end.

(** The callback of the [IntersectionObserver] created in [init]; an entry
    is its [isIntersecting] flag. *)
Definition intersectionCallback (entries : list bool) (s : state) : state :=
  foldl (fun s isIntersecting =>
           if isIntersecting && negb (isAnimating s) then startAnimation s else s)
        s entries.

Definition at_time (t : Z) (s : state) : state :=
  mkState (isAnimating s) (currentMessageIndex s) (elements s) (messageContainer s)
          (timers s) t (log s).

(** The event loop: a timer fires, or the observer reports at some time not
    later than any pending deadline. *)
Inductive step : state -> state -> Prop :=
  | step_fire s s' : fire s = Some s' -> step s s'
  | step_intersect s t entries :
      clock s <= t ->
      Forall (fun tm => t <= due tm) (timers s) ->
      step s (intersectionCallback entries (at_time t s)).

(** The animator after its constructor, at time [t], the container holding
    the elements [existing]. *)
Definition init (existing : list messageElement) (t : Z) : state :=
  mkState false 0 existing (seq 0 (length existing)) [] t [].

(** ** The schedule of one playback *)

(** Time from the creation of a message element to the resolution of
    [typeText]: one tick per code unit and one more to stop. *)
Definition typing_time (m : message) : Z := 50 * (Z.of_nat (length (text m)) + 1).

Definition message_time (m : message) : Z := typing_time m + 1500.

Definition script_time (ms : list message) : Z :=
  foldr (fun m acc => message_time m + acc) 0 ms.

Definition period : Z := script_time script + 5000.

(** Timer firings of one message and of one playback with its cooldown. *)
Definition message_ticks (m : message) : nat := length (text m) + 2.

Definition script_ticks (ms : list message) : nat :=
  foldr (fun m acc => (message_ticks m + acc)%nat) 0%nat ms.

Definition cycle_ticks : nat := script_ticks script + 1.

Definition typed_log (t : Z) (el : handle) (txt : jsstring) (k : nat) : list (Z * mutation) :=
  map (fun j => (t + 50 * Z.of_nat j, Typed el (take j txt))) (seq 1 k).

(** The mutations of the messages [ms], the first being message [i] created
    at time [t] as element [el]. *)
Fixpoint message_log (t : Z) (i : nat) (el : handle) (ms : list message) : list (Z * mutation) :=
  match ms with
  | [] => []
  | m :: ms' =>
      (t, Created i el)
      :: typed_log t el (text m) (length (text m))
      ++ [(t + typing_time m, Resolved i)]
      ++ message_log (t + message_time m) (S i) (S el) ms'
  end.

Definition playback_log (t : Z) (el : handle) : list (Z * mutation) :=
  (t, Cleared) :: message_log t 0 el script.

Definition typed_element (m : message) : messageElement :=
  {| className := class_of (type m); opacity := "1"; textContent := text m |}.

(** The animator when the cooldown that follows a playback started from
    [s] has elapsed, just before [this.isAnimating = false]. *)
Definition rest_state (s : state) : state :=
  mkState true 0
          (elements s ++ map typed_element script)
          (seq (length (elements s)) (length script))
          []
          (clock s + period)
          (log s ++ playback_log (clock s) (length (elements s))).

(** The mutations of the first [c] playbacks, the first started at time
    [t] with [el] elements created before it. *)
Fixpoint cycles_log (t : Z) (el : handle) (c : nat) : list (Z * mutation) :=
  match c with
  | O => []
  | S c' =>
      cycles_log t el c'
      ++ playback_log (t + Z.of_nat c' * period) (el + c' * length script)
  end.

(** ** States inside a playback *)

(** Message [i] is being typed into the newest element and [k] code units
    are shown; [s] is the animator just before the element was created. *)
Definition typing_state (s : state) (i : nat) (m : message) (k : nat) : state :=
  let el := length (elements s) in
  mkState (isAnimating s) (currentMessageIndex s)
          (elements s ++ [{| className := class_of (type m); opacity := "1";
                             textContent := take k (text m) |}])
          (messageContainer s ++ [el])
          [{| due := clock s + 50 * (Z.of_nat k + 1);
              run := typeInterval i el (text m) k (take k (text m)) |}]
          (clock s + 50 * Z.of_nat k)
          (log s ++ (clock s, Created i el) :: typed_log (clock s) el (text m) k).

(** [typeText] has resolved and the pause after message [i] is running. *)
Definition pause_state (s : state) (i : nat) (m : message) : state :=
  let el := length (elements s) in
  mkState (isAnimating s) (currentMessageIndex s)
          (elements s ++ [typed_element m])
          (messageContainer s ++ [el])
          [{| due := clock s + message_time m; run := afterPause i |}]
          (clock s + typing_time m)
          (log s ++ message_log (clock s) i el [m]).

(** The messages [ms], from message [i] on, have been played. *)
Definition played (s : state) (i : nat) (ms : list message) : state :=
  mkState (isAnimating s) (currentMessageIndex s)
          (elements s ++ map typed_element ms)
          (messageContainer s ++ seq (length (elements s)) (length ms))
          []
          (clock s + script_time ms)
          (log s ++ message_log (clock s) i (length (elements s)) ms).

(** [startAnimation] before its loop: the flag is up, the container empty. *)
Definition cleared (s : state) : state :=
  record Cleared (mkState true 0 (elements s) [] (timers s) (clock s) (log s)).

(** The states of the playback that started from the cleared state [b]. *)
Inductive playing (b : state) : state -> Prop :=
  | playing_typing i m k :
      script !! i = Some m -> (k <= length (text m))%nat ->
      playing b (typing_state (played b 0 (take i script)) i m k)
  | playing_pause i m :
      script !! i = Some m ->
      playing b (pause_state (played b 0 (take i script)) i m)
  | playing_cooldown :
      playing b (schedule 5000 restart (played b 0 script)).

(** The text of each child of the container, in order. *)
Definition shown (s : state) : list (option jsstring) :=
  map (fun h => textContent <$> elements s !! h) (messageContainer s).

(** The container shows the first messages of the script in full, in
    script order, and at most one more message, of which it shows an
    initial part. *)
Definition sequential_view (s : state) : Prop :=
  (exists i, shown s = map (fun m => Some (text m)) (take i script)) \/
  (exists i m k,
     script !! i = Some m /\
     shown s = map (fun m => Some (text m)) (take i script) ++ [Some (take k (text m))]).

(** Exactly one playback is running, or none and the flag is down. *)
Definition one_playback (s : state) : Prop :=
  (isAnimating s = true /\ length (timers s) = 1%nat) \/
  (isAnimating s = false /\ timers s = []).

End Script.

End TelegramAnimator.

(* ===================================================================== *)
(** * Utility functions: [throttle] and [debounce] *)
(* ===================================================================== *)

Module Throttle.

(** What the call [func.apply(context, args)] does: it returns or it throws.
    [func] is taken not to call the throttled function itself. *)
Inductive outcome := Returned | Threw.

Section Throttle.
Variable A : Type.
(** The [limit] argument of [throttle(func, limit)]. *)
Variable limit : Z.

(** The closure returned by [throttle]: the flag [inThrottle], the deadlines
    of the pending [setTimeout] callbacks, the calls of [func] made so far
    (time, arguments and outcome, the latest first) and the current time. *)
Record state := mkState {
  inThrottle : bool;
  pending : list Z;
  executed : list (Z * A * outcome);
  clock : Z
}.

Definition init (t : Z) : state := mkState false [] [] t.

(** A call of the returned function at time [t] with arguments [args]; [o]
    is what [func] does if it is called.  [func] runs first: when it throws,
    the exception leaves the function before [inThrottle = true] and
    [setTimeout] are reached. *)
Definition invoke (t : Z) (args : A) (o : outcome) (s : state) : state :=
  if negb (inThrottle s)
  then
    let s1 := mkState (inThrottle s) (pending s) ((t, args, o) :: executed s) t in
    match o with
    | Returned => mkState true (pending s1 ++ [t + limit]) (executed s1) t
    | Threw => s1
    end
  else mkState (inThrottle s) (pending s) (executed s) t.

(** The timeout callback [() => inThrottle = false], run at time [t], for the
    pending deadline at position [i]. *)
Definition expire (i : nat) (t : Z) (s : state) : state :=
  mkState false (delete i (pending s)) (executed s) t.

(** Time passes; a timeout callback runs at its deadline or later. *)
Inductive step : state -> state -> Prop :=
  | step_invoke s t args o :
      clock s <= t -> step s (invoke t args o s)
  | step_expire s i d t :
      pending s !! i = Some d -> d <= t -> clock s <= t ->
      step s (expire i t s).

(** The time a call of [func] keeps later calls away: [limit] when it
    returned, nothing when it threw. *)
Definition guard (o : outcome) : Z :=
  match o with
  | Returned => limit
  | Threw => 0
  end.

(** A call of [func] that returned is followed by the next one [limit] later
    or more; one that threw by the next one at any later time. *)
Definition spaced (l : list (Z * A * outcome)) : Prop :=
  Sorted (fun later earlier =>
            fst (fst earlier) + guard (snd earlier) <= fst (fst later)) l.

(** The flag is up exactly while one timeout is pending, which is the one of
    the latest call, and that call returned; once the timeout has run,
    [limit] has elapsed since that call. *)
Definition consistent (s : state) : Prop :=
  spaced (executed s) /\
  Forall (fun e => fst (fst e) <= clock s) (executed s) /\
  match executed s with
  | [] => inThrottle s = false /\ pending s = []
  | (t, _, Returned) :: _ =>
      (inThrottle s = true /\ pending s = [t + limit]) \/
      (inThrottle s = false /\ pending s = [] /\ t + limit <= clock s)
  | (t, _, Threw) :: _ => inThrottle s = false /\ pending s = []
  end.

End Throttle.

Arguments inThrottle {A} _.
Arguments pending {A} _.
Arguments executed {A} _.
Arguments clock {A} _.

End Throttle.

Module Debounce.

Section Debounce.
Variable A : Type.
(** The [wait] argument of [debounce(func, wait)]. *)
Variable wait : Z.

Inductive event :=
  | Called (t : Z) (args : A)
  | Ran (t : Z) (args : A).

(** The closure returned by [debounce]: the live timeout behind [timeout],
    with its deadline and the arguments [later] closes over, and what has
    happened so far, the latest first. *)
Record state := mkState {
  timeout : option (Z * A);
  trace : list event;
  clock : Z
}.

Definition init (t : Z) : state := mkState None [] t.

(** A call of [executedFunction] at time [t]: [clearTimeout(timeout)] and a
    new [setTimeout(later, wait)]. *)
Definition invoke (t : Z) (args : A) (s : state) : state :=
  mkState (Some (t + wait, args)) (Called t args :: trace s) t.

(** [later], run at time [t]: clearing its own, already expired, timeout
    does nothing; then [func(...args)]. *)
Definition later (t : Z) (args : A) (s : state) : state :=
  mkState None (Ran t args :: trace s) t.

Inductive step : state -> state -> Prop :=
  | step_invoke s t args :
      clock s <= t -> step s (invoke t args s)
  | step_later s d args t :
      timeout s = Some (d, args) -> d <= t -> clock s <= t ->
      step s (later t args s).

(** Every run of [func] directly follows the call whose arguments it gets,
    at least [wait] later. *)
Inductive settled : list event -> Prop :=
  | settled_nil : settled []
  | settled_called t args tr : settled tr -> settled (Called t args :: tr)
  | settled_ran t tc args tr :
      tc + wait <= t -> settled (Called tc args :: tr) ->
      settled (Ran t args :: Called tc args :: tr).

Definition consistent (s : state) : Prop :=
  settled (trace s) /\
  match timeout s with
  | Some (d, args) => exists tc tr, trace s = Called tc args :: tr /\ d = tc + wait
  | None => True
  end.

End Debounce.

Arguments timeout {A} _.
Arguments trace {A} _.
Arguments clock {A} _.

End Debounce.

(* ===================================================================== *)
(** * NavigationController: mobile menu and scrolling to a section *)
(* ===================================================================== *)

Module MobileMenu.

(** The class lists of [.nav-menu] and [.hamburger]; [None] when
    [querySelector] found no such element. *)
Record nav := {
  navMenu : option (gset string);
  hamburger : option (gset string)
}.

(** A method either returns or throws a [TypeError]; both leave a state. *)
Inductive outcome :=
  | Returns (n : nav)
  | Throws (n : nav).

Definition classList_toggle (c : string) (cl : gset string) : gset string :=
  if classList_contains c cl then classList_remove c cl else classList_add c cl.

Definition toggleMobileMenu (n : nav) : outcome :=
  match navMenu n with
  | None => Throws n
  | Some m =>
      let n1 := {| navMenu := Some (classList_toggle "active" m); hamburger := hamburger n |} in
      match hamburger n with
      | None => Throws n1
      | Some h =>
          Returns {| navMenu := navMenu n1; hamburger := Some (classList_toggle "active" h) |}
      end
  end.

Definition closeMobileMenu (n : nav) : outcome :=
  match navMenu n with
  | None => Throws n
  | Some m =>
      let n1 := {| navMenu := Some (classList_remove "active" m); hamburger := hamburger n |} in
      match hamburger n with
      | None => Throws n1
      | Some h =>
          Returns {| navMenu := navMenu n1; hamburger := Some (classList_remove "active" h) |}
      end
  end.

(** The menu is open: [.nav-menu] carries ['active']. *)
Definition menu_open (n : nav) : bool :=
  match navMenu n with
  | Some m => classList_contains "active" m
  | None => false
  end.

Definition hamburger_open (n : nav) : bool :=
  match hamburger n with
  | Some h => classList_contains "active" h
  | None => false
  end.

Definition state_of (o : outcome) : nav :=
  match o with Returns n => n | Throws n => n end.

End MobileMenu.

Module ScrollToSection.
Import NavigationController.

(** An element of the document, as far as [getElementById] and the selector
    ['section[id]'] read it: whether it is a [section], its [id] attribute
    ([None] when absent), [offsetTop] and [offsetHeight]. *)
Record node := {
  isSection : bool;
  nodeId : option string;
  nodeOffsetTop : Z;
  nodeOffsetHeight : Z
}.

(** [document.getElementById] over the elements of the document in tree
    order: the first whose [id] is the string asked for.  An empty [id]
    attribute gives an element no id, so [getElementById('')] is [null]. *)
Definition getElementById (elementId : string) (document : list node) : option node :=
  if bool_decide (elementId = "") then None
  else List.find (fun n => bool_decide (nodeId n = Some elementId)) document.

(** [scrollToSection]: the [top] passed to [window.scrollTo], if any. *)
Definition scrollToSection (sectionId : string) (document : list node) : option Z :=
  match getElementById sectionId document with
  | Some section => Some (nodeOffsetTop section - 80)
  | None => None
  end.

(** The click listener of a [.nav-link]: a [href] that starts with ['#']
    scrolls to the section named by the rest of it. *)
Definition linkClick (l : link) (document : list node) : option Z :=
  match href l with
  | Some href =>
      if String.prefix "#" href
      then scrollToSection (String.substring 1 (String.length href - 1) href) document
      else None
  | None => None
  end.

(** [document.querySelectorAll('section[id]')]: the [section] elements that
    have an [id] attribute, be it empty, in tree order. *)
Definition section_of (n : node) : option section :=
  if isSection n then
    match nodeId n with
    | Some i => Some {| offsetTop := nodeOffsetTop n;
                        offsetHeight := nodeOffsetHeight n;
                        sectionId := i |}
    | None => None
    end
  else None.

Definition sections (document : list node) : list section :=
  omap section_of document.

End ScrollToSection.

(* ===================================================================== *)
(** * TabController: clicks *)
(* ===================================================================== *)

Module TabClicks.
Import TabController.

(** The click listener [init] installs on the button [h]. *)
Definition click (c : controller) (h : handle) (dom : handle -> element) : handle -> element :=
  let tabId := js_or (data_tab (dom h)) (data_example (dom h)) in
  switchTab c tabId dom.

End TabClicks.

(* ===================================================================== *)
(** * FormController: banners and their removal timers *)
(* ===================================================================== *)

Module Banners.
Import FormController.

(** The banners inside the form, in document order, what each created
    banner shows, the pending removal timers (deadline and banner), and the
    banners shown so far with the time they were shown, the latest first. *)
Record state := mkState {
  children : list handle;
  created : list banner;
  timers : list (Z * handle);
  shown : list (handle * Z);
  clock : Z
}.

Definition init (t : Z) : state := mkState [] [] [] [] t.

(** [removeMessages]: every banner in the form is removed. *)
Definition removeMessages (s : state) : state :=
  mkState [] (created s) (timers s) (shown s) (clock s).

(** The common part of [showSuccess] and [showError]: a new element is
    appended and its removal scheduled 5000 later. *)
Definition show (b : banner) (s : state) : state :=
  let s1 := removeMessages s in
  let el := length (created s1) in
  mkState (children s1 ++ [el]) (created s1 ++ [b])
          (timers s1 ++ [(clock s1 + 5000, el)])
          ((el, clock s1) :: shown s1) (clock s1).

Definition showSuccess (message : string) (s : state) : state :=
  show (success_message message) s.

Definition showError (message : string) (s : state) : state :=
  show (error_message message) s.

(** The timeout callback [() => el.remove()]. *)
Definition remove_banner (el : handle) (s : state) : state :=
  mkState (List.filter (fun h => negb (Nat.eqb h el)) (children s))
          (created s) (timers s) (shown s) (clock s).

Definition at_time (t : Z) (s : state) : state :=
  mkState (children s) (created s) (timers s) (shown s) t.

Definition drop_timer (i : nat) (s : state) : state :=
  mkState (children s) (created s) (delete i (timers s)) (shown s) (clock s).

Inductive step : state -> state -> Prop :=
  | step_show s t b :
      clock s <= t -> step s (show b (at_time t s))
  | step_timer s i d el t :
      timers s !! i = Some (d, el) -> d <= t -> clock s <= t ->
      step s (remove_banner el (drop_timer i (at_time t s))).

(** The form shows the latest banner, or nothing once that banner's 5000
    time units are over. *)
Definition latest_or_expired (s : state) : Prop :=
  match shown s with
  | [] => children s = []
  | (el, t) :: _ => children s = [el] \/ (children s = [] /\ t + 5000 <= clock s)
  end.

(** Every timer belongs to a banner that was shown 5000 before its
    deadline, and every shown banner has been created. *)
Definition timers_known (s : state) : Prop :=
  Forall (fun '(d, el) => exists t, (el, t) ∈ shown s /\ d = t + 5000) (timers s) /\
  Forall (fun '(el, t) => (el < length (created s))%nat /\ t <= clock s) (shown s) /\
  (forall el t t', (el, t) ∈ shown s -> (el, t') ∈ shown s -> t = t').

Definition banner_ok (s : state) : Prop := latest_or_expired s /\ timers_known s.

End Banners.

(* ===================================================================== *)
(** * ParticleSystem *)
(* ===================================================================== *)

Module ParticleSystem.

Record particle := {
  x : Q; y : Q;
  vx : Q; vy : Q;
  size : Q;
  opacity : Q
}.

Section Animate.
Context `{Rounding}.

(** The update of one particle in [animate]; [width] and [height] are the
    canvas dimensions, which are unsigned integers. *)
Definition move (width height : N) (p : particle) : particle :=
  let w := inject_Z (Z.of_N width) in
  let h := inject_Z (Z.of_N height) in
  let x1 := fadd (x p) (vx p) in
  let y1 := fadd (y p) (vy p) in
  let x2 := if Qlt_le_dec x1 0 then w else x1 in
  let x3 := if Qlt_le_dec w x2 then 0%Q else x2 in
  let y2 := if Qlt_le_dec y1 0 then h else y1 in
  let y3 := if Qlt_le_dec h y2 then 0%Q else y2 in
  {| x := x3; y := y3; vx := vx p; vy := vy p; size := size p; opacity := opacity p |}.

(** One frame: [this.particles.forEach]. *)
Definition animate (width height : N) (particles : list particle) : list particle :=
  map (move width height) particles.

(** [frames] frames on a canvas that keeps its size. *)
Definition animate_n (frames : nat) (width height : N) (particles : list particle)
    : list particle :=
  Nat.iter frames (animate width height) particles.

End Animate.

End ParticleSystem.

(* ===================================================================== *)
(** * Tooltips *)
(* ===================================================================== *)

Module Tooltips.

Inductive callback :=
  | fadeIn (tooltip : handle)
  | removeTooltip (target : handle).

(** The tooltip elements in [document.body], the opacity of every tooltip
    created so far, the [_tooltip] property of each target, the pending
    timers and the time. *)
Record state := mkState {
  body : list handle;
  opacities : list string;
  attached : gmap handle handle;
  timers : list (Z * callback);
  clock : Z
}.

Definition showTooltip (target : handle) (s : state) : state :=
  let tooltip := length (opacities s) in
  mkState (body s ++ [tooltip]) (opacities s ++ ["0"])
          (<[target := tooltip]> (attached s))
          (timers s ++ [(clock s + 10, fadeIn tooltip)])
          (clock s).

Definition hideTooltip (target : handle) (s : state) : state :=
  match attached s !! target with
  | Some tooltip =>
      mkState (body s) (<[tooltip := "0"]> (opacities s)) (attached s)
              (timers s ++ [(clock s + 200, removeTooltip target)])
              (clock s)
  | None => s
  end.

Definition run_callback (cb : callback) (s : state) : state :=
  match cb with
  | fadeIn tooltip =>
      mkState (body s) (<[tooltip := "1"]> (opacities s)) (attached s) (timers s) (clock s)
  | removeTooltip target =>
      match attached s !! target with
      | Some tooltip =>
          mkState (List.filter (fun h => negb (Nat.eqb h tooltip)) (body s))
                  (opacities s) (delete target (attached s)) (timers s) (clock s)
      | None => s
      end
  end.

(** The timer at position [i] fires at time [t]. *)
Definition fire (i : nat) (t : Z) (s : state) : state :=
  match timers s !! i with
  | Some (_, cb) =>
      run_callback cb (mkState (body s) (opacities s) (attached s) (delete i (timers s)) t)
  | None => s
  end.

Definition at_time (t : Z) (s : state) : state :=
  mkState (body s) (opacities s) (attached s) (timers s) t.

End Tooltips.

(* ===================================================================== *)
(** * AnimationObserver: which elements are animated *)
(* ===================================================================== *)

Module AnimatedElements.
Import AnimationObserver.

(** Some entry of some batch reports [h] as intersecting. *)
Definition ever_intersecting (h : handle) (batches : list (list entry)) : Prop :=
  exists b en, b ∈ batches /\ en ∈ b /\ isIntersecting en = true /\ target en = h.

(** An element of [animatedElements] carries ['aos-animate'] and was
    inserted once; any other element is as the page loaded it. *)
Definition marked_or_untouched (d : handle -> element) (s : state) : Prop :=
  forall h,
    dataTarget (dom s h) = dataTarget (d h) /\
    (h ∈ animatedElements s ->
       "aos-animate" ∈ classList (dom s h) /\
       count (is_set_added h) (effects s) = 1%nat) /\
    (h ∉ animatedElements s ->
       dom s h = d h /\ count (is_set_added h) (effects s) = 0%nat).

End AnimatedElements.

Module TooltipEvents.
Import Tooltips.

(** Mouse events on elements with [data-tooltip], and timers, which fire at
    their deadline or later. *)
Inductive step : state -> state -> Prop :=
  | step_enter s target t :
      clock s <= t -> step s (showTooltip target (at_time t s))
  | step_leave s target t :
      clock s <= t -> step s (hideTooltip target (at_time t s))
  | step_timer s i d cb t :
      timers s !! i = Some (d, cb) -> d <= t -> clock s <= t ->
      step s (fire i t s).

(** A tooltip element that is in the document but is no target's
    [_tooltip]. *)
Definition orphan (tooltip : handle) (s : state) : Prop :=
  tooltip ∈ body s /\
  (tooltip < length (opacities s))%nat /\
  forall target, attached s !! target <> Some tooltip.

End TooltipEvents.

(* ===================================================================== *)
(** * Proofs *)
(* ===================================================================== *)

(** ** AnimationObserver: the entered reaction *)

Module AnimationObserverFacts.
Import AnimationObserver.

Lemma count_snoc (p : effect -> bool) (l : list effect) (x : effect) :
  count p (l ++ [x]) = (count p l + (if p x then 1 else 0))%nat.
Proof.
  unfold count. rewrite List.filter_app, length_app. simpl.
  destruct (p x); reflexivity.
Qed.

Lemma once_init d : once (init d).
Proof. intros h c. unfold count. simpl. repeat split; lia. Qed.

Lemma once_handleEntry s en : once s -> once (handleEntry s en).
Proof.
  intros Hs. unfold handleEntry.
  destruct (isIntersecting en); simpl; [|exact Hs].
  case_bool_decide as Hin; simpl; [exact Hs|].
  assert (Hfresh := fun c => proj2 (proj2 (proj2 (Hs (target en) c))) Hin).
  match goal with |- once (if ?b then _ else _) => destruct b end.
  all: intros h c; destruct (Hs h c) as (H1 & H2 & H3 & H4).
  all: unfold start_counter, set_add, add_class; simpl.
  all: rewrite ?count_snoc; simpl.
  all: destruct (decide (target en = h)) as [<-|Hne].
  all: repeat (case_bool_decide; simpl); try congruence.
  all: try (destruct (Hfresh c) as (F1 & F2 & F3)).
  all: split_and!; try lia.
  all: intros Hn;
    first [ exfalso; apply Hn, elem_of_union; left; apply elem_of_singleton; reflexivity
          | destruct H4 as (? & ? & ?);
            [ intros Hx; apply Hn, elem_of_union; right; exact Hx
            | split_and!; lia ] ].
Qed.

Lemma once_handleIntersection entries : forall s, once s -> once (handleIntersection s entries).
Proof.
  unfold handleIntersection.
  induction entries as [|en entries IH]; intros s Hs; simpl; [exact Hs|].
  apply IH, once_handleEntry, Hs.
Qed.

Lemma once_batches batches : forall s, once s -> once (foldl handleIntersection s batches).
Proof.
  induction batches as [|b batches IH]; intros s Hs; simpl; [exact Hs|].
  apply IH, once_handleIntersection, Hs.
Qed.

(** C1.  Whatever batches of intersection entries the observer receives
    during the page's life, for every element the class ['aos-animate'] is
    added at most once, the element is inserted into [animatedElements] at
    most once, and its counter animation is started at most once. *)
Theorem entered_at_most_once (d : handle -> element) (batches : list (list entry)) (h : handle) :
  (count (is_class_added h "aos-animate") (effects (run d batches)) <= 1)%nat /\
  (count (is_set_added h) (effects (run d batches)) <= 1)%nat /\
  (count (is_counter_started h) (effects (run d batches)) <= 1)%nat.
Proof.
  destruct (once_batches batches (init d) (once_init d) h "aos-animate")
    as (H1 & H2 & H3 & _).
  unfold run. auto.
Qed.

End AnimationObserverFacts.

(** ** Rounded arithmetic *)

Module RoundingFacts.
Section Facts.
Context `{Rounding}.

Lemma rnd_proper (x y : Q) : (x == y)%Q -> (rnd x == rnd y)%Q.
Proof.
  intros E. apply Qle_antisym; apply rnd_mono; rewrite E; apply Qle_refl.
Qed.

Lemma rnd_0 : (rnd 0 == 0)%Q.
Proof. apply (rnd_int 0). simpl. lia. Qed.

Lemma rnd_nonneg (x : Q) : (0 <= x)%Q -> (0 <= rnd x)%Q.
Proof. intros Hx. rewrite <- rnd_0. apply rnd_mono, Hx. Qed.

Lemma eps_pos : (0 < eps)%Q.
Proof. reflexivity. Qed.

Lemma eps_lt_1 : (eps < 1)%Q.
Proof. reflexivity. Qed.

Lemma rnd_lower (x : Q) : (0 <= x)%Q -> (x * (1 - eps) <= rnd x)%Q.
Proof.
  intros Hx. pose proof (rnd_rel x) as Hr.
  rewrite (Qabs_pos x Hx) in Hr.
  apply Qabs_Qle_condition in Hr. destruct Hr as [Hl _]. lra.
Qed.

Lemma qpow_bounds (p : Q) (n : nat) :
  (0 <= p)%Q -> (p <= 1)%Q -> (0 <= qpow p n)%Q /\ (qpow p n <= 1)%Q.
Proof.
  intros H0 H1. induction n as [|n [IH0 IH1]]; simpl.
  - split; lra.
  - split; nra.
Qed.

End Facts.
End RoundingFacts.

(** ** AnimationObserver: the counter *)

Module CounterFacts.
Import AnimationObserver RoundingFacts.

Section Facts.
Context `{Rounding}.

Lemma frames_per_run : (fdiv duration 16 == 125)%Q.
Proof.
  unfold fdiv, duration.
  rewrite (rnd_proper (2000 / 16) (inject_Z 125)) by reflexivity.
  rewrite (rnd_int 125) by (simpl; lia). reflexivity.
Qed.

Lemma increment_eq (T : Z) : (increment T == rnd (inject_Z T / 125))%Q.
Proof.
  unfold increment, fdiv. apply rnd_proper. rewrite frames_per_run. reflexivity.
Qed.

Lemma increment_nonneg (T : Z) : 0 <= T -> (0 <= increment T)%Q.
Proof.
  intros HT. rewrite increment_eq. apply rnd_nonneg.
  assert (0 <= inject_Z T)%Q by (unfold Qle; simpl; lia).
  apply Qle_shift_div_l; [reflexivity | lra].
Qed.

Lemma increment_lower (T : Z) :
  0 <= T -> (inject_Z T / 125 * (1 - eps) <= increment T)%Q.
Proof.
  intros HT. rewrite increment_eq. apply rnd_lower.
  assert (0 <= inject_Z T)%Q by (unfold Qle; simpl; lia).
  apply Qle_shift_div_l; [reflexivity | lra].
Qed.

Lemma running_S (T : Z) (k : nat) :
  running T (S k) = fadd (running T k) (increment T).
Proof. reflexivity. Qed.

Lemma running_repr (T : Z) (k : nat) : (rnd (running T k) == running T k)%Q.
Proof.
  destruct k as [|k].
  - apply rnd_0.
  - rewrite running_S. unfold fadd. apply rnd_idem.
Qed.

Lemma running_step (T : Z) (k : nat) :
  0 <= T -> (running T k <= running T (S k))%Q.
Proof.
  intros HT. rewrite running_S. unfold fadd.
  rewrite <- (running_repr T k) at 1. apply rnd_mono.
  pose proof (increment_nonneg T HT). lra.
Qed.

Lemma running_mono (T : Z) (i j : nat) :
  0 <= T -> (i <= j)%nat -> (running T i <= running T j)%Q.
Proof.
  intros HT Hij. induction Hij as [|j Hij IH].
  - apply Qle_refl.
  - eapply Qle_trans; [exact IH | apply running_step, HT].
Qed.

Lemma running_nonneg (T : Z) (k : nat) : 0 <= T -> (0 <= running T k)%Q.
Proof. intros HT. apply (running_mono T 0 k HT). lia. Qed.

(** After [k] frames the running value has lost at most [k+1] roundings. *)
Lemma running_lower (T : Z) (k : nat) :
  0 <= T ->
  (inject_Z (Z.of_nat k) * (inject_Z T / 125) * qpow (1 - eps) (S k) <= running T k)%Q.
Proof.
  intros HT.
  assert (HT' : (0 <= inject_Z T / 125)%Q).
  { assert (0 <= inject_Z T)%Q by (unfold Qle; simpl; lia).
    apply Qle_shift_div_l; [reflexivity | lra]. }
  pose proof eps_pos as He0. pose proof eps_lt_1 as He1.
  induction k as [|k IH].
  - change (inject_Z (Z.of_nat 0)) with 0%Q. change (running T 0) with 0%Q.
    rewrite !Qmult_0_l. apply Qle_refl.
  - rewrite running_S. unfold fadd.
    pose proof (running_nonneg T k HT) as Hk.
    pose proof (increment_nonneg T HT) as Hi.
    pose proof (increment_lower T HT) as Hil.
    eapply Qle_trans; [|apply rnd_lower; lra].
    destruct (qpow_bounds (1 - eps) k) as [Hp0 Hp1]; [lra | lra |].
    rewrite Nat2Z.inj_succ. unfold Z.succ. rewrite inject_Z_plus.
    change (qpow (1 - eps) (S (S k))) with ((1 - eps) * qpow (1 - eps) (S k))%Q.
    change (qpow (1 - eps) (S k)) with ((1 - eps) * qpow (1 - eps) k)%Q in *.
    set (p := (1 - eps)%Q) in *. set (q := qpow p k) in *.
    set (a := (inject_Z T / 125)%Q) in *.
    set (n := inject_Z (Z.of_nat k)) in *.
    assert (Hn : (0 <= n)%Q).
    { unfold n, Qle; simpl; lia. }
    assert (Hp : (0 <= p)%Q) by (unfold p; lra).
    assert (Hp' : (p <= 1)%Q) by (unfold p; lra).
    clearbody a p q n.
    assert (H1 : ((n * a * (p * q) + a * p) * p <= (running T k + increment T) * p)%Q).
    { apply Qmult_le_compat_r; [lra | exact Hp]. }
    eapply Qle_trans; [|exact H1].
    assert (H2 : (a * p * p * q <= a * p * p)%Q).
    { assert (0 <= a * p * p)%Q by (repeat apply Qmult_le_0_compat; assumption).
      nra. }
    change (inject_Z 1) with 1%Q.
    assert (E1 : ((n + 1) * a * (p * (p * q)) == n * a * (p * q) * p + a * p * p * q)%Q)
      by ring.
    assert (E2 : ((n * a * (p * q) + a * p) * p == n * a * (p * q) * p + a * p * p)%Q)
      by ring.
    rewrite E1, E2. apply Qplus_le_r. exact H2.
Qed.

Lemma slack_126 : (1 <= (126 # 125) * qpow (1 - eps) 127)%Q.
Proof. vm_compute. discriminate. Qed.

Lemma running_126 (T : Z) : 0 <= T -> (inject_Z T <= running T 126)%Q.
Proof.
  intros HT. eapply Qle_trans; [|apply running_lower, HT].
  assert (H0 : (0 <= inject_Z T)%Q) by (unfold Qle; simpl; lia).
  pose proof slack_126 as Hs.
  set (q := qpow (1 - eps) 127) in *.
  change (inject_Z (Z.of_nat 126)) with (126 # 1)%Q.
  assert (E : ((126 # 1) * (inject_Z T / 125) * q == inject_Z T * ((126 # 125) * q))%Q)
    by (field).
  rewrite E. nra.
Qed.

(** The first frame at which the running value reaches the target. *)
Lemma first_frame (T : Z) (n : nat) :
  0 <= T ->
  (inject_Z T <= running T (S n))%Q ->
  exists k, (1 <= k <= S n)%nat /\ (inject_Z T <= running T k)%Q /\
            forall j, (1 <= j < k)%nat -> (running T j < inject_Z T)%Q.
Proof.
  intros HT. induction n as [|n IH]; intros Hn.
  - exists 1%nat. split_and!; [lia | lia | exact Hn | intros j Hj; lia].
  - destruct (Qlt_le_dec (running T (S n)) (inject_Z T)) as [Hlt|Hge].
    + exists (S (S n)). split_and!; [lia | lia | exact Hn |].
      intros j Hj. eapply Qle_lt_trans; [|exact Hlt].
      apply running_mono; [exact HT | lia].
    + destruct (IH Hge) as (k & Hk & Hr & Hb).
      exists k. split_and!; [lia | lia | exact Hr | exact Hb].
Qed.

Lemma updateCounter_S (fuel : nat) (T : Z) (c : Q) :
  updateCounter (S fuel) T c =
  if Qlt_le_dec (fadd c (increment T)) (inject_Z T) then
    match updateCounter fuel T (fadd c (increment T)) with
    | Some l => Some (Qfloor (fadd c (increment T)) :: l)
    | None => None
    end
  else Some [T].
Proof. reflexivity. Qed.

(** [updateCounter] started at frame [j] renders the floors of the running
    values below the target and then the target. *)
Lemma updateCounter_frames (T : Z) (n : nat) :
  forall (fuel j : nat),
    (n <= fuel)%nat ->
    (forall i, (j < i < j + S n)%nat -> (running T i < inject_Z T)%Q) ->
    (inject_Z T <= running T (j + S n))%Q ->
    updateCounter (S fuel) T (running T j) =
    Some (map (fun i => Qfloor (running T i)) (seq (S j) n) ++ [T]).
Proof.
  induction n as [|n IH]; intros fuel j Hf Hlt Hge.
  - replace (j + 1)%nat with (S j) in Hge by lia.
    rewrite updateCounter_S, <- running_S.
    destruct (Qlt_le_dec (running T (S j)) (inject_Z T)) as [Hc|Hc].
    + exfalso. apply (Qlt_not_le _ _ Hc Hge).
    + reflexivity.
  - destruct fuel as [|fuel]; [lia|].
    rewrite updateCounter_S, <- running_S.
    destruct (Qlt_le_dec (running T (S j)) (inject_Z T)) as [Hc|Hc].
    + rewrite (IH fuel (S j)).
      * reflexivity.
      * lia.
      * intros i Hi. apply Hlt. lia.
      * replace (S j + S n)%nat with (j + S (S n))%nat by lia. exact Hge.
    + exfalso. apply (Qle_not_lt _ _ Hc). apply Hlt. lia.
Qed.

Lemma Qfloor_below (x : Q) (T : Z) : (x < inject_Z T)%Q -> Qfloor x <= T.
Proof.
  intros Hx. pose proof (Qfloor_le x) as Hf.
  assert (Hq : (inject_Z (Qfloor x) < inject_Z T)%Q) by (eapply Qle_lt_trans; eassumption).
  rewrite <- Zlt_Qlt in Hq. lia.
Qed.

Lemma renders_sorted (f : nat -> Z) (T : Z) (n : nat) :
  forall a,
    (forall i j, (a <= i <= j)%nat -> (j < a + n)%nat -> f i <= f j) ->
    (forall i, (a <= i < a + n)%nat -> f i <= T) ->
    StronglySorted Z.le (map f (seq a n) ++ [T]).
Proof.
  induction n as [|n IH]; intros a Hm Hb; simpl.
  - repeat constructor.
  - constructor.
    + apply IH.
      * intros i j Hij Hj. apply Hm; lia.
      * intros i Hi. apply Hb. lia.
    + apply Forall_app. split.
      * apply Forall_forall. intros v Hv.
        apply in_map_iff in Hv. destruct Hv as (j & <- & Hj).
        apply in_seq in Hj. apply Hm; lia.
      * repeat constructor. apply Hb. lia.
Qed.

(** C2.  For every target [T >= 0] the counter stops after some frame
    [k <= 126]; the values it renders are the floors of the running value
    at the frames before [k], where the running value is strictly below
    [T], followed by [T] itself; the rendered sequence is non-decreasing,
    never exceeds [T] and ends in exactly [T]. *)
Theorem counter_reaches_target (T : Z) :
  0 <= T ->
  exists k : nat,
    (1 <= k <= 126)%nat /\
    (forall fuel, (k <= fuel)%nat -> animateCounter fuel T = Some (renders T k)) /\
    (forall j, (1 <= j < k)%nat -> (running T j < inject_Z T)%Q) /\
    (inject_Z T <= running T k)%Q /\
    StronglySorted Z.le (renders T k) /\
    Forall (fun v => v <= T) (renders T k) /\
    List.last (renders T k) 0 = T.
Proof.
  intros HT.
  destruct (first_frame T 125 HT (running_126 T HT)) as (k & Hk & Hge & Hlt).
  exists k. split_and!; try lia; try assumption.
  - intros fuel Hf. destruct fuel as [|fuel]; [lia|].
    unfold animateCounter, renders.
    change 0%Q with (running T 0).
    apply updateCounter_frames.
    + lia.
    + intros i Hi. apply Hlt. lia.
    + replace (0 + S (k - 1))%nat with k by lia. exact Hge.
  - unfold renders. apply renders_sorted.
    + intros i j Hij Hj. apply Qfloor_resp_le, running_mono; [exact HT | lia].
    + intros i Hi. apply Qfloor_below, Hlt. lia.
  - unfold renders. apply Forall_app. split.
    + apply Forall_forall. intros v Hv. apply in_map_iff in Hv.
      destruct Hv as (j & <- & Hj). apply in_seq in Hj.
      apply Qfloor_below, Hlt. lia.
    + repeat constructor. lia.
  - unfold renders. apply List.last_last.
Qed.

End Facts.

Lemma counter_reaches_target_witness :
  exists k : nat,
    (1 <= k <= 126)%nat /\
    (forall fuel, (k <= fuel)%nat ->
       animateCounter (H := exact_rounding) fuel 1000 = Some (renders (H := exact_rounding) 1000 k)) /\
    (forall j, (1 <= j < k)%nat -> (running (H := exact_rounding) 1000 j < inject_Z 1000)%Q) /\
    (inject_Z 1000 <= running (H := exact_rounding) 1000 k)%Q /\
    StronglySorted Z.le (renders (H := exact_rounding) 1000 k) /\
    Forall (fun v => v <= 1000) (renders (H := exact_rounding) 1000 k) /\
    List.last (renders (H := exact_rounding) 1000 k) 0 = 1000.
Proof. apply (counter_reaches_target (H := exact_rounding) 1000). lia. Defined.

(** In exact arithmetic the running value after [k] frames is [k * T / 125]. *)
Lemma running_exact (T : Z) (k : nat) :
  (running (H := exact_rounding) T k == inject_Z (Z.of_nat k) * (inject_Z T / 125))%Q.
Proof.
  induction k as [|k IH].
  - change (running (H := exact_rounding) T 0) with 0%Q.
    change (inject_Z (Z.of_nat 0)) with 0%Q. ring.
  - rewrite running_S. unfold fadd. cbn [rnd exact_rounding]. rewrite IH.
    rewrite Nat2Z.inj_succ. unfold Z.succ. rewrite inject_Z_plus.
    pose proof (increment_eq (H := exact_rounding) T) as Hi. cbn [rnd exact_rounding] in Hi.
    rewrite Hi. change (inject_Z 1) with 1%Q. ring.
Qed.

(** In exact arithmetic a counter to 250 renders 2, 4, ..., 248, 250. *)
Example counter_250 :
  animateCounter (H := exact_rounding) 200 250 =
  Some (map (fun j => 2 * Z.of_nat j) (seq 1 124) ++ [250]).
Proof. vm_compute. reflexivity. Qed.

Example counter_0 : animateCounter (H := exact_rounding) 1 0 = Some [0].
Proof. vm_compute. reflexivity. Qed.

End CounterFacts.

(** ** NavigationController: the active link *)

Module NavigationFacts.
Import NavigationController.

Lemma highlight_href (sid : string) (l : link) : href (highlight sid l) = href l.
Proof. unfold highlight. simpl. case_bool_decide; reflexivity. Qed.

(** What [highlight] leaves in the class list. *)
Lemma highlight_classes (sid : string) (l : link) (c : string) :
  c ∈ linkClasses (highlight sid l) <->
  (c = "active" /\ href l = Some ("#" +:+ sid)) \/ (c <> "active" /\ c ∈ linkClasses l).
Proof.
  unfold highlight, classList_add, classList_remove. simpl.
  case_bool_decide as Hh; simpl.
  - rewrite elem_of_union, elem_of_singleton, elem_of_difference, elem_of_singleton.
    destruct (decide (c = "active")); tauto.
  - rewrite elem_of_difference, elem_of_singleton. tauto.
Qed.

Lemma link_eq (l1 l2 : link) :
  href l1 = href l2 -> linkClasses l1 = linkClasses l2 -> l1 = l2.
Proof. destruct l1, l2. simpl. intros -> ->. reflexivity. Qed.

(** A later highlighting overrides an earlier one. *)
Lemma highlight_highlight (a b : string) (l : link) :
  highlight b (highlight a l) = highlight b l.
Proof.
  apply link_eq.
  - rewrite !highlight_href. reflexivity.
  - apply set_eq. intros c. rewrite !highlight_classes, highlight_href.
    destruct (decide (c = "active")); tauto.
Qed.

Lemma last_section_at_snoc (pos : Z) (secs : list section) (sec : section) :
  last_section_at pos (secs ++ [sec]) =
  if in_window pos sec then Some sec else last_section_at pos secs.
Proof.
  unfold last_section_at. rewrite List.filter_app. simpl.
  destruct (in_window pos sec).
  - rewrite map_app. simpl. apply List.last_last.
  - rewrite app_nil_r. reflexivity.
Qed.

Lemma updateActiveLink_last (scrollY : Z) (secs : list section) (links : list link) :
  updateActiveLink scrollY secs links =
  match last_section_at (scrollY + 100) secs with
  | Some sec => map (highlight (sectionId sec)) links
  | None => links
  end.
Proof.
  unfold updateActiveLink.
  induction secs as [|sec secs IH] using rev_ind.
  - reflexivity.
  - rewrite foldl_snoc, last_section_at_snoc, IH.
    destruct (in_window (scrollY + 100) sec); [|reflexivity].
    destruct (last_section_at (scrollY + 100) secs); [|reflexivity].
    rewrite map_map. apply map_ext. intros l. apply highlight_highlight.
Qed.

Lemma in_window_spec (pos : Z) (sec : section) :
  in_window pos sec = true <->
  offsetTop sec <= pos < offsetTop sec + offsetHeight sec.
Proof. unfold in_window. rewrite andb_true_iff, Z.leb_le, Z.ltb_lt. tauto. Qed.

(** [last_section_at] is the last section containing the position. *)
Lemma last_section_at_spec (pos : Z) (secs : list section) (sec : section) :
  last_section_at pos secs = Some sec <->
  exists before after,
    secs = before ++ sec :: after /\ in_window pos sec = true /\
    Forall (fun s => in_window pos s = false) after.
Proof.
  induction secs as [|x secs IH] using rev_ind.
  - split; [discriminate|]. intros (b & a & E & _). destruct b; discriminate.
  - rewrite last_section_at_snoc. destruct (in_window pos x) eqn:Hx.
    + split.
      * intros [= ->]. exists secs, []. split_and!; [reflexivity | exact Hx | constructor].
      * intros (b & a & E & Hs & Ha).
        destruct a as [|y a _] using rev_ind.
        -- apply app_inj_tail in E. destruct E as [_ ->]. reflexivity.
        -- rewrite app_comm_cons, app_assoc in E. apply app_inj_tail in E.
           destruct E as [_ ->]. apply Forall_app in Ha. destruct Ha as [_ Ha].
           inversion Ha; congruence.
    + rewrite IH. split.
      * intros (b & a & -> & Hs & Ha). exists b, (a ++ [x]).
        split_and!; [by rewrite <- app_assoc | exact Hs |].
        apply Forall_app. split; [exact Ha | repeat constructor; exact Hx].
      * intros (b & a & E & Hs & Ha).
        destruct a as [|y a _] using rev_ind.
        -- apply app_inj_tail in E. destruct E as [_ ->]. congruence.
        -- rewrite app_comm_cons, app_assoc in E. apply app_inj_tail in E.
           destruct E as [-> ->]. apply Forall_app in Ha. destruct Ha as [Ha _].
           exists b, a. split_and!; [reflexivity | exact Hs | exact Ha].
Qed.

(** C5.  After [updateActiveLink], when [sec] is the last section in
    document order whose window [[offsetTop, offsetTop + offsetHeight)]
    contains [scrollY + 100], every link keeps its [href] and its other
    classes and carries ['active'] exactly when its [href] is ['#'] followed
    by the id of [sec]; with sections [[0,300)], [[300,800)], [[800,1200)]
    and [scrollY = 450] these are the links of the second section. *)
Theorem active_link_is_last_section (scrollY : Z) (links : list link) :
  (forall (before after : list section) (sec : section),
     offsetTop sec <= scrollY + 100 < offsetTop sec + offsetHeight sec ->
     Forall (fun s => ~ (offsetTop s <= scrollY + 100 < offsetTop s + offsetHeight s)) after ->
     let links' := updateActiveLink scrollY (before ++ sec :: after) links in
     length links' = length links /\
     forall i l l', links !! i = Some l -> links' !! i = Some l' ->
       href l' = href l /\
       ("active" ∈ linkClasses l' <-> href l = Some ("#" +:+ sectionId sec)) /\
       (forall c, c <> "active" -> c ∈ linkClasses l' <-> c ∈ linkClasses l)) /\
  (forall a b c : string,
     updateActiveLink 450
       [ {| offsetTop := 0; offsetHeight := 300; sectionId := a |};
         {| offsetTop := 300; offsetHeight := 500; sectionId := b |};
         {| offsetTop := 800; offsetHeight := 400; sectionId := c |} ] links
     = map (highlight b) links /\
     Forall (fun l => "active" ∈ linkClasses (highlight b l) <-> href l = Some ("#" +:+ b))
            links).
Proof.
  split.
  - intros before after sec Hin Hafter links'.
    assert (E : links' = map (highlight (sectionId sec)) links).
    { unfold links'. rewrite updateActiveLink_last.
      replace (last_section_at (scrollY + 100) (before ++ sec :: after)) with (Some sec);
        [reflexivity|].
      symmetry. apply last_section_at_spec. exists before, after.
      split_and!; [reflexivity | apply in_window_spec, Hin |].
      eapply Forall_impl; [|exact Hafter]. intros s Hs. simpl in Hs.
      destruct (in_window (scrollY + 100) s) eqn:Hw; [|reflexivity].
      exfalso. apply Hs, in_window_spec, Hw. }
    rewrite E. split; [apply length_map|].
    intros i l l' Hl Hl'.
    change (map (highlight (sectionId sec)) links) with (highlight (sectionId sec) <$> links) in Hl'.
    rewrite list_lookup_fmap, Hl in Hl'. simpl in Hl'. injection Hl' as <-.
    split_and!.
    + apply highlight_href.
    + rewrite highlight_classes.
      split; [intros [[_ E']|[N _]]; congruence | intros E'; left; split; [reflexivity | exact E']].
    + intros c Hc. rewrite highlight_classes. tauto.
  - intros a b c. split.
    + rewrite updateActiveLink_last. reflexivity.
    + apply Forall_forall. intros l _. rewrite highlight_classes.
      split; [intros [[_ E]|[N _]]; congruence | intros E; left; split; [reflexivity | exact E]].
Qed.

(** When no section contains [scrollY + 100] the links are left as they are. *)
Lemma no_section_keeps_links (scrollY : Z) (secs : list section) (links : list link) :
  last_section_at (scrollY + 100) secs = None ->
  updateActiveLink scrollY secs links = links.
Proof. intros Hn. rewrite updateActiveLink_last, Hn. reflexivity. Qed.

End NavigationFacts.

(** ** Scroll progress indicator *)

Module ScrollProgressFacts.
Import ScrollProgress RoundingFacts.

Section Facts.
Context `{Rounding}.

Lemma js_div_nonzero (x y : Q) : ~ (y == 0)%Q -> js_div x y = Num (fdiv x y).
Proof.
  intros Hy. unfold js_div.
  destruct (Qeq_bool y 0) eqn:E; [|reflexivity].
  exfalso. apply Hy, Qeq_bool_eq, E.
Qed.

Lemma progressWidth_finite (scrollY : Q) (scrollHeight innerHeight : Z) :
  innerHeight < scrollHeight ->
  progressWidth scrollY scrollHeight innerHeight =
  Num (let p := fmul (fdiv scrollY (inject_Z (scrollHeight - innerHeight))) 100 in
       if Qle_bool p 100 then p else 100%Q).
Proof.
  intros Hlt. unfold progressWidth. rewrite js_div_nonzero; [reflexivity|].
  intros E. unfold Qeq in E. simpl in E. lia.
Qed.

(** C6, as the code has it.  When the document is taller than the viewport
    the width is the number [min(scrollY / maxScroll * 100, 100)], which
    never exceeds 100; it is not below 0 when [scrollY >= 0], it is 0 at
    [scrollY = 0] and 100 at [scrollY = maxScroll]. *)
Theorem progress_width_bounds (scrollY : Q) (scrollHeight innerHeight : Z) :
  innerHeight < scrollHeight ->
  let maxScroll := inject_Z (scrollHeight - innerHeight) in
  exists w : Q,
    progressWidth scrollY scrollHeight innerHeight = Num w /\
    (w == Qmin (fmul (fdiv scrollY maxScroll) 100) 100)%Q /\
    (w <= 100)%Q /\
    ((0 <= scrollY)%Q -> (0 <= w)%Q) /\
    ((scrollY == 0)%Q -> (w == 0)%Q) /\
    ((scrollY == maxScroll)%Q -> (w == 100)%Q).
Proof.
  intros Hlt maxScroll.
  assert (Hm : (0 < maxScroll)%Q) by (unfold maxScroll, Qlt; simpl; lia).
  rewrite (progressWidth_finite scrollY scrollHeight innerHeight Hlt).
  fold maxScroll. cbv zeta.
  set (p := fmul (fdiv scrollY maxScroll) 100).
  assert (Hmin : ((if Qle_bool p 100 then p else 100) == Qmin p 100)%Q).
  { destruct (Qle_bool p 100) eqn:E.
    - apply Qle_bool_iff in E. symmetry. apply Q.min_l, E.
    - assert (100 <= p)%Q.
      { destruct (Qlt_le_dec p 100) as [Hl|Hl]; [|exact Hl].
        apply Qlt_le_weak, Qle_bool_iff in Hl. congruence. }
      symmetry. apply Q.min_r. assumption. }
  exists (if Qle_bool p 100 then p else 100%Q).
  split; [reflexivity|]. split; [exact Hmin|].
  rewrite Hmin. split_and!.
  - apply Q.le_min_r.
  - intros Hy. apply Q.min_glb; [|discriminate].
    unfold p, fmul. apply rnd_nonneg.
    apply Qmult_le_0_compat; [|discriminate].
    unfold fdiv. apply rnd_nonneg. apply Qle_shift_div_l; [exact Hm | lra].
  - intros Hy.
    assert (Hp : (p == 0)%Q).
    { unfold p, fmul, fdiv.
      assert (E1 : (rnd (scrollY / maxScroll) == 0)%Q).
      { rewrite (rnd_proper (scrollY / maxScroll) 0)
          by (rewrite Hy; unfold Qdiv; apply Qmult_0_l).
        apply rnd_0. }
      rewrite (rnd_proper (rnd (scrollY / maxScroll) * 100) 0)
        by (rewrite E1; reflexivity).
      apply rnd_0. }
    rewrite Hp. reflexivity.
  - intros Hy.
    assert (Hp : (p == 100)%Q).
    { unfold p, fmul, fdiv.
      assert (E1 : (rnd (scrollY / maxScroll) == 1)%Q).
      { rewrite (rnd_proper (scrollY / maxScroll) (inject_Z 1))
          by (rewrite Hy; apply Qmult_inv_r; lra).
        apply (rnd_int 1). simpl. lia. }
      rewrite (rnd_proper (rnd (scrollY / maxScroll) * 100) (inject_Z 100))
        by (rewrite E1; reflexivity).
      apply (rnd_int 100). simpl. lia. }
    rewrite Hp. reflexivity.
Qed.

End Facts.

Lemma progress_width_bounds_witness :
  exists w : Q,
    progressWidth (H := exact_rounding) 250 1200 200 = Num w /\
    (w == Qmin (fmul (H := exact_rounding) (fdiv (H := exact_rounding) 250 (inject_Z (1200 - 200))) 100) 100)%Q /\
    (w <= 100)%Q /\
    ((0 <= 250)%Q -> (0 <= w)%Q) /\
    ((250 == 0)%Q -> (w == 0)%Q) /\
    ((250 == inject_Z (1200 - 200))%Q -> (w == 100)%Q).
Proof. apply (progress_width_bounds (H := exact_rounding) 250 1200 200). lia. Defined.

(** The width is not clamped from below: scrolled 50 above the top of a document whose
    scroll range is 1000, the handler computes -5. *)
Lemma progress_width_negative :
  exists w : Q,
    progressWidth (H := exact_rounding) (-50) 1200 200 = Num w /\
    (w == -5)%Q /\ ~ (0 <= w)%Q.
Proof.
  eexists. split; [reflexivity|]. split; [reflexivity|].
  intros Hc. vm_compute in Hc. apply Hc. reflexivity.
Qed.

(** A document exactly as tall as the viewport gives [NaN] at the top. *)
Example progress_width_nan : progressWidth (H := exact_rounding) 0 800 800 = NaN.
Proof. reflexivity. Qed.

End ScrollProgressFacts.

(** ** TabController *)

Module TabFacts.
Import TabController.

Lemma button_matches_attr (id : option string) : attr_only (button_matches id).
Proof. intros e cl. reflexivity. Qed.

Lemma content_matches_attr (id : option string) : attr_only (content_matches id).
Proof. intros e cl. reflexivity. Qed.

Lemma element_eq (e1 e2 : element) :
  data_tab e1 = data_tab e2 -> data_example e1 = data_example e2 ->
  elementId e1 = elementId e2 -> classes e1 = classes e2 -> e1 = e2.
Proof. destruct e1, e2. simpl. intros -> -> -> ->. reflexivity. Qed.

Lemma marked_classes (m : element -> bool) (e : element) (c : string) :
  attr_only m ->
  c ∈ classes (marked m e) <-> (c = "active" /\ m e = true) \/ (c <> "active" /\ c ∈ classes e).
Proof.
  intros Hm. unfold marked, classList_add, classList_remove. rewrite Hm.
  destruct (m e); simpl.
  - rewrite elem_of_union, elem_of_singleton, elem_of_difference, elem_of_singleton.
    destruct (decide (c = "active")); intuition congruence.
  - rewrite elem_of_difference, elem_of_singleton. intuition congruence.
Qed.

Lemma marked_attrs (m : element -> bool) (e : element) :
  data_tab (marked m e) = data_tab e /\
  data_example (marked m e) = data_example e /\
  elementId (marked m e) = elementId e.
Proof. unfold marked. destruct (m _); simpl; auto. Qed.

Lemma marked_matches (m m' : element -> bool) (e : element) :
  attr_only m' -> m' (marked m e) = m' e.
Proof.
  intros Hm'. unfold marked. destruct (m _); rewrite ?Hm'; reflexivity.
Qed.

Lemma marked_idem (m : element -> bool) (e : element) :
  attr_only m -> marked m (marked m e) = marked m e.
Proof.
  intros Hm. destruct (marked_attrs m (marked m e)) as (A1 & A2 & A3).
  apply element_eq; try assumption.
  apply set_eq. intros c. rewrite !marked_classes by exact Hm.
  rewrite (marked_matches m m e Hm).
  destruct (decide (c = "active")); tauto.
Qed.

(** The effect of a whole [forEach] on one handle. *)
Lemma foldl_mark (m : element -> bool) (l : list handle) (dom : handle -> element) (h : handle) :
  attr_only m ->
  foldl (mark m) dom l h = if bool_decide (h ∈ l) then marked m (dom h) else dom h.
Proof.
  intros Hm. induction l as [|x l IH] using rev_ind.
  - reflexivity.
  - rewrite foldl_snoc. unfold mark at 1.
    destruct (decide (x = h)) as [->|Hne].
    + rewrite fn_lookup_insert, IH.
      rewrite (bool_decide_eq_true_2 (h ∈ l ++ [h])) by (apply elem_of_app; right; constructor).
      case_bool_decide; [apply marked_idem, Hm | reflexivity].
    + rewrite fn_lookup_insert_ne by exact Hne. rewrite IH.
      repeat case_bool_decide; try reflexivity; exfalso.
      * match goal with Hn : _ ∉ _ ++ _ |- _ => apply Hn, elem_of_app; left; assumption end.
      * match goal with Hi : _ ∈ _ ++ _ |- _ =>
          apply elem_of_app in Hi; destruct Hi as [Hi|Hi];
          [contradiction | apply list_elem_of_singleton in Hi; congruence] end.
Qed.

Lemma is_active_marked (m : element -> bool) (e : element) :
  attr_only m -> classList_contains "active" (classes (marked m e)) = m e.
Proof.
  intros Hm. unfold classList_contains.
  destruct (m e) eqn:E.
  - apply bool_decide_eq_true_2, marked_classes; [exact Hm | left; auto].
  - apply bool_decide_eq_false_2. rewrite marked_classes by exact Hm.
    intros [[_ ?]|[? _]]; congruence.
Qed.

Lemma switchTab_content (c : controller) (id : option string) (dom : handle -> element) (h : handle) :
  h ∈ tabContents c ->
  is_active (switchTab c id dom) h = content_matches id (dom h).
Proof.
  intros Hh. unfold switchTab, is_active.
  rewrite foldl_mark by apply content_matches_attr.
  rewrite bool_decide_eq_true_2 by exact Hh.
  rewrite is_active_marked by apply content_matches_attr.
  rewrite foldl_mark by apply button_matches_attr.
  case_bool_decide; [|reflexivity].
  apply marked_matches, content_matches_attr.
Qed.

Lemma switchTab_button (c : controller) (id : option string) (dom : handle -> element) (h : handle) :
  h ∈ tabButtons c -> h ∉ tabContents c ->
  is_active (switchTab c id dom) h = button_matches id (dom h).
Proof.
  intros Hh Hn. unfold switchTab, is_active.
  rewrite foldl_mark by apply content_matches_attr.
  rewrite bool_decide_eq_false_2 by exact Hn.
  rewrite foldl_mark by apply button_matches_attr.
  rewrite bool_decide_eq_true_2 by exact Hh.
  apply is_active_marked, button_matches_attr.
Qed.

(** At most one element of a duplicate-free list satisfies a predicate that
    identifies its elements. *)
Lemma filter_at_most_one (p : handle -> bool) (l : list handle) :
  NoDup l ->
  (forall x y, x ∈ l -> y ∈ l -> p x = true -> p y = true -> x = y) ->
  (length (List.filter p l) <= 1)%nat.
Proof.
  intros Hnd Hinj. induction Hnd as [|x l Hx Hnd IH]; simpl; [lia|].
  assert (IH' : (length (List.filter p l) <= 1)%nat).
  { apply IH. intros a b Ha Hb. apply Hinj; constructor; assumption. }
  destruct (p x) eqn:Hpx; [|exact IH'].
  assert (E : List.filter p l = []).
  { destruct (List.filter p l) as [|y r] eqn:Hf; [reflexivity|].
    exfalso. assert (Hy : In y (List.filter p l)) by (rewrite Hf; left; reflexivity).
    apply filter_In in Hy. destruct Hy as [Hy Hpy].
    apply list_elem_of_In in Hy.
    assert (x = y) by (apply Hinj; [constructor | constructor; exact Hy | exact Hpx | exact Hpy]).
    subst y. contradiction. }
  rewrite E. simpl. lia.
Qed.

(** C9, as the code has it.  After [switchTab(id)] a panel carries
    ['active'] exactly when its element id is ['tab-'+id] or ['example-'+id],
    and a button exactly when [data-tab || data-example] equals [id]; an
    element outside both lists is untouched.  At most one button is active
    when the buttons' tab ids are pairwise distinct, and at most one panel
    when at most one panel has one of the two ids. *)
Theorem switchTab_active (c : controller) (id : option string) (dom : handle -> element) :
  let dom' := switchTab c id dom in
  (forall h, h ∈ tabContents c ->
     (is_active dom' h = true <->
      elementId (dom h) = Some ("tab-" +:+ to_string id) \/
      elementId (dom h) = Some ("example-" +:+ to_string id))) /\
  (forall h, h ∈ tabButtons c -> h ∉ tabContents c ->
     (is_active dom' h = true <-> js_or (data_tab (dom h)) (data_example (dom h)) = id)) /\
  (forall h, h ∉ tabButtons c -> h ∉ tabContents c -> dom' h = dom h) /\
  (NoDup (tabButtons c) ->
   (forall h, h ∈ tabButtons c -> h ∉ tabContents c) ->
   (forall h1 h2, h1 ∈ tabButtons c -> h2 ∈ tabButtons c ->
      buttonTabId (dom h1) = buttonTabId (dom h2) -> h1 = h2) ->
   (active_count dom' (tabButtons c) <= 1)%nat) /\
  (NoDup (tabContents c) ->
   (forall h1 h2, h1 ∈ tabContents c -> h2 ∈ tabContents c ->
      content_matches id (dom h1) = true -> content_matches id (dom h2) = true -> h1 = h2) ->
   (active_count dom' (tabContents c) <= 1)%nat).
Proof.
  intros dom'. split_and!.
  - intros h Hh. unfold dom'. rewrite switchTab_content by exact Hh.
    unfold content_matches. rewrite orb_true_iff, !bool_decide_eq_true. reflexivity.
  - intros h Hh Hn. unfold dom'. rewrite switchTab_button by assumption.
    unfold button_matches, buttonTabId. rewrite bool_decide_eq_true. reflexivity.
  - intros h Hb Hc. unfold dom', switchTab.
    rewrite foldl_mark by apply content_matches_attr.
    rewrite bool_decide_eq_false_2 by exact Hc.
    rewrite foldl_mark by apply button_matches_attr.
    rewrite bool_decide_eq_false_2 by exact Hb. reflexivity.
  - intros Hnd Hdisj Hinj. unfold active_count.
    apply filter_at_most_one; [exact Hnd|].
    intros x y Hx Hy Ax Ay. unfold dom' in Ax, Ay.
    rewrite switchTab_button in Ax by auto.
    rewrite switchTab_button in Ay by auto.
    unfold button_matches in Ax, Ay.
    apply bool_decide_eq_true in Ax. apply bool_decide_eq_true in Ay.
    apply Hinj; congruence.
  - intros Hnd Hinj. unfold active_count.
    apply filter_at_most_one; [exact Hnd|].
    intros x y Hx Hy Ax Ay. unfold dom' in Ax, Ay.
    rewrite switchTab_content in Ax by auto.
    rewrite switchTab_content in Ay by auto.
    apply Hinj; assumption.
Qed.

(** More than one button can be active: both twins are after [switchTab('a')]. *)
Lemma switchTab_two_active :
  active_count
    (switchTab {| tabButtons := [0%nat; 1%nat]; tabContents := [] |} (Some "a") twin_buttons)
    [0%nat; 1%nat] = 2%nat /\
  ~ (active_count
       (switchTab {| tabButtons := [0%nat; 1%nat]; tabContents := [] |} (Some "a") twin_buttons)
       [0%nat; 1%nat] <= 1)%nat.
Proof.
  assert (E : active_count
    (switchTab {| tabButtons := [0%nat; 1%nat]; tabContents := [] |} (Some "a") twin_buttons)
    [0%nat; 1%nat] = 2%nat).
  { unfold active_count. simpl List.filter.
    rewrite !switchTab_button by (simpl; set_solver). reflexivity. }
  split; [exact E | rewrite E; lia].
Qed.

(** A button whose [data-example] equals the id stays inactive when it also
    has a different [data-tab]. *)
Example switchTab_data_example_shadowed :
  is_active
    (switchTab {| tabButtons := [0%nat]; tabContents := [] |} (Some "b")
       (fun _ => {| data_tab := Some "a"; data_example := Some "b";
                    elementId := None; classes := ∅ |}))
    0%nat = false.
Proof. rewrite switchTab_button by (simpl; set_solver). reflexivity. Qed.

(** An element that is both a button and a panel is judged as a panel, by the
    second [forEach]: with the tab id asked for and no matching element id
    it ends up inactive. *)
Example switchTab_button_and_panel :
  is_active
    (switchTab {| tabButtons := [0%nat]; tabContents := [0%nat] |} (Some "a")
       (fun _ => {| data_tab := Some "a"; data_example := None;
                    elementId := None; classes := ∅ |}))
    0%nat = false.
Proof. rewrite switchTab_content by (simpl; set_solver). reflexivity. Qed.

(** Two such elements with different tab ids are both active when each has
    one of the two element ids. *)
Example switchTab_two_panel_buttons :
  let dom := fun h : handle =>
    match h with
    | O => {| data_tab := Some "x"; data_example := None;
              elementId := Some "tab-a"; classes := ∅ |}
    | _ => {| data_tab := Some "y"; data_example := None;
              elementId := Some "example-a"; classes := ∅ |}
    end in
  let c := {| tabButtons := [0%nat; 1%nat]; tabContents := [0%nat; 1%nat] |} in
  buttonTabId (dom 0%nat) <> buttonTabId (dom 1%nat) /\
  active_count (switchTab c (Some "a") dom) (tabButtons c) = 2%nat.
Proof.
  intros dom c. split; [discriminate|].
  unfold active_count. simpl List.filter.
  rewrite !switchTab_content by (simpl; set_solver). reflexivity.
Qed.

End TabFacts.

(** ** Regular expressions: the derivative matcher is correct *)

Module RegexFacts.
Import Regex.

Lemma seq_inv (r1 r2 : regex) (s : jsstring) :
  matches (Seq r1 r2) s <-> exists s1 s2, s = s1 ++ s2 /\ matches r1 s1 /\ matches r2 s2.
Proof.
  split.
  - intros Hm. inversion Hm; subst. eauto.
  - intros (s1 & s2 & -> & H1 & H2). constructor; assumption.
Qed.

Lemma alt_inv (r1 r2 : regex) (s : jsstring) :
  matches (Alt r1 r2) s <-> matches r1 s \/ matches r2 s.
Proof.
  split.
  - intros Hm. inversion Hm; subst; auto.
  - intros [Hm|Hm]; [apply m_alt_l | apply m_alt_r]; exact Hm.
Qed.

Lemma class_inv (p : N -> bool) (s : jsstring) :
  matches (Class p) s <-> exists c, s = [c] /\ p c = true.
Proof.
  split.
  - intros Hm. inversion Hm; subst. eauto.
  - intros (c & -> & Hc). constructor. exact Hc.
Qed.

Lemma chr_inv (c : N) (s : jsstring) : matches (Chr c) s <-> s = [c].
Proof.
  unfold Chr. rewrite class_inv. split.
  - intros (d & -> & Hd). apply N.eqb_eq in Hd. congruence.
  - intros ->. exists c. split; [reflexivity | apply N.eqb_refl].
Qed.

Lemma eps_inv (s : jsstring) : matches Eps s <-> s = [].
Proof.
  split.
  - intros Hm. inversion Hm. reflexivity.
  - intros ->. constructor.
Qed.

Lemma nullable_matches (r : regex) : nullable r = true <-> matches r [].
Proof.
  induction r as [| |p|r1 IH1 r2 IH2|r1 IH1 r2 IH2|r IH]; simpl.
  - split; [discriminate | intros Hm; inversion Hm].
  - split; [constructor | reflexivity].
  - split; [discriminate | intros Hm; inversion Hm].
  - rewrite andb_true_iff, IH1, IH2, seq_inv. split.
    + intros [H1 H2]. exists [], []. auto.
    + intros (s1 & s2 & E & H1 & H2).
      symmetry in E. apply app_eq_nil in E. destruct E as [-> ->]. auto.
  - rewrite orb_true_iff, IH1, IH2, alt_inv. reflexivity.
  - split; [constructor | reflexivity].
Qed.

(** A match of [Star r] on a non-empty string starts with a non-empty match
    of [r]. *)
Lemma star_cons_inv (r : regex) (s : jsstring) :
  matches (Star r) s -> s <> [] ->
  exists c s1 s2, s = (c :: s1) ++ s2 /\ matches r (c :: s1) /\ matches (Star r) s2.
Proof.
  intros Hm. remember (Star r) as r' eqn:Er.
  induction Hm as [| | | | | |r0 s1 s2 H1 _ H2 IH2]; try discriminate.
  - intros Hn. congruence.
  - injection Er as ->. intros Hn.
    destruct s1 as [|c s1].
    + simpl in *. apply IH2; [reflexivity | exact Hn].
    + exists c, s1, s2. auto.
Qed.

Lemma der_matches (r : regex) : forall (c : N) (s : jsstring),
  matches (der c r) s <-> matches r (c :: s).
Proof.
  induction r as [| |p|r1 IH1 r2 IH2|r1 IH1 r2 IH2|r IH]; intros c s; simpl.
  - split; intros Hm; inversion Hm.
  - split; intros Hm; inversion Hm.
  - destruct (p c) eqn:Hp.
    + rewrite eps_inv, class_inv. split.
      * intros ->. eauto.
      * intros (d & [= -> ->] & _). reflexivity.
    + split; [intros Hm; inversion Hm|].
      rewrite class_inv. intros (d & [= -> ->] & Hd). congruence.
  - assert (Hseq : matches (Seq (der c r1) r2) s <->
                   exists s1 s2, s = s1 ++ s2 /\ matches r1 (c :: s1) /\ matches r2 s2).
    { rewrite seq_inv. split; intros (s1 & s2 & E & H1 & H2); exists s1, s2;
        (split_and!; [exact E | apply IH1, H1 | exact H2]). }
    destruct (nullable r1) eqn:Hn.
    + rewrite alt_inv, Hseq, IH2, seq_inv. split.
      * intros [(s1 & s2 & -> & H1 & H2)|H2].
        -- exists (c :: s1), s2. auto.
        -- exists [], (c :: s). split_and!; [reflexivity | apply nullable_matches, Hn | exact H2].
      * intros (s1 & s2 & E & H1 & H2). destruct s1 as [|d s1].
        -- simpl in E. subst s2. right. exact H2.
        -- injection E as <- ->. left. eauto.
    + rewrite Hseq, seq_inv. split.
      * intros (s1 & s2 & -> & H1 & H2). exists (c :: s1), s2. auto.
      * intros (s1 & s2 & E & H1 & H2). destruct s1 as [|d s1].
        -- apply nullable_matches in H1. congruence.
        -- injection E as <- ->. eauto.
  - rewrite !alt_inv, IH1, IH2. reflexivity.
  - rewrite seq_inv. split.
    + intros (s1 & s2 & -> & H1 & H2). apply IH in H1.
      change (c :: s1 ++ s2) with ((c :: s1) ++ s2). constructor; assumption.
    + intros Hm. destruct (star_cons_inv r (c :: s) Hm) as (d & s1 & s2 & E & H1 & H2);
        [discriminate|].
      injection E as <- ->. exists s1, s2. split_and!; [reflexivity | apply IH, H1 | exact H2].
Qed.

(** [test] decides [matches]. *)
Lemma test_matches (s : jsstring) : forall r : regex,
  test r s = true <-> matches r s.
Proof.
  unfold test. induction s as [|c s IH]; intros r; simpl.
  - apply nullable_matches.
  - rewrite IH. apply der_matches.
Qed.

Lemma star_class (p : N -> bool) (s : jsstring) :
  matches (Star (Class p)) s <-> Forall (fun c => p c = true) s.
Proof.
  split.
  - induction s as [|c s IH]; intros Hm; [constructor|].
    destruct (star_cons_inv _ _ Hm) as (d & s1 & s2 & E & H1 & H2); [discriminate|].
    apply class_inv in H1. destruct H1 as (e & [= -> ->] & He).
    injection E as <- ->. constructor; [exact He | apply IH, H2].
  - induction 1 as [|c s Hc _ IH]; [constructor|].
    change (c :: s) with ([c] ++ s). constructor; [constructor; exact Hc | exact IH].
Qed.

Lemma plus_class (p : N -> bool) (s : jsstring) :
  matches (Plus (Class p)) s <-> s <> [] /\ Forall (fun c => p c = true) s.
Proof.
  unfold Plus. rewrite seq_inv. split.
  - intros (s1 & s2 & -> & H1 & H2).
    apply class_inv in H1. destruct H1 as (c & -> & Hc). apply star_class in H2.
    split; [discriminate | constructor; assumption].
  - intros [Hn Hall]. destruct s as [|c s]; [congruence|].
    inversion Hall; subst. exists [c], s.
    split_and!; [reflexivity | constructor; assumption | apply star_class; assumption].
Qed.

End RegexFacts.

(** ** FormController: field validation *)

Module FormFacts.
Import Regex RegexFacts FormController.

(** The regular expression of the source describes the shape in words. *)
Lemma emailRegex_shape (s : jsstring) : matches emailRegex s <-> email_shape s.
Proof.
  unfold emailRegex, email_shape. rewrite seq_inv. split.
  - intros (loc & s1 & -> & Hloc & H1).
    apply seq_inv in H1. destruct H1 as (a & s2 & -> & Ha & H2).
    apply seq_inv in H2. destruct H2 as (dom & s3 & -> & Hdom & H3).
    apply seq_inv in H3. destruct H3 as (d & tld & -> & Hd & Htld).
    apply chr_inv in Ha. apply chr_inv in Hd. subst a d.
    apply plus_class in Hloc. apply plus_class in Hdom. apply plus_class in Htld.
    exists loc, dom, tld. intuition.
  - intros (loc & dom & tld & -> & Nl & Nd & Nt & Hl & Hd & Ht).
    exists loc, ([at_sign] ++ dom ++ [dot] ++ tld).
    split_and!; [reflexivity | apply plus_class; auto |].
    apply m_seq; [apply chr_inv; reflexivity|].
    apply m_seq; [apply plus_class; auto|].
    apply m_seq; [apply chr_inv; reflexivity | apply plus_class; auto].
Qed.

Lemma validateField_fst (f : field) :
  fst (validateField f) = isValid (name f) (trim (value f)).
Proof. unfold validateField. destruct (isValid _ _); reflexivity. Qed.

(** C7.  [validateField] accepts a field named ['name'] or ['company'] iff
    the trimmed value has at least two code units, a field named
    ['team-size'] iff the trimmed value is not empty, and a field named
    ['email'] iff the trimmed value has the [local@domain.tld] shape; the
    email value ["a@b"] is rejected and ["a@b.com"] is accepted. *)
Theorem validateField_rules (tg : tagName) (req : bool) (v dv : jsstring) (cl : gset string) :
  let fld n := {| tag := tg; name := Some n; required := req; value := v;
                  defaultValue := dv; classes := cl |} in
  let email w := {| tag := tg; name := Some "email"; required := req; value := w;
                    defaultValue := dv; classes := cl |} in
  (fst (validateField (fld "name")) = true <-> (2 <= length (trim v))%nat) /\
  (fst (validateField (fld "company")) = true <-> (2 <= length (trim v))%nat) /\
  (fst (validateField (fld "team-size")) = true <-> trim v <> []) /\
  (fst (validateField (fld "email")) = true <-> email_shape (trim v)) /\
  fst (validateField (email (str "a@b"))) = false /\
  fst (validateField (email (str "a@b.com"))) = true.
Proof.
  intros fld email. rewrite !validateField_fst. unfold fld, email. cbn [name value].
  split_and!.
  - change (isValid (Some "name") (trim v)) with (2 <=? length (trim v))%nat.
    apply Nat.leb_le.
  - change (isValid (Some "company") (trim v)) with (2 <=? length (trim v))%nat.
    apply Nat.leb_le.
  - change (isValid (Some "team-size") (trim v)) with (negb (bool_decide (trim v = []))).
    rewrite negb_true_iff, bool_decide_eq_false. reflexivity.
  - change (isValid (Some "email") (trim v)) with (test emailRegex (trim v)).
    rewrite test_matches. apply emailRegex_shape.
  - vm_compute. reflexivity.
  - vm_compute. reflexivity.
Qed.

(** The shape is tested on the trimmed value: surrounding blanks are
    accepted, an inner blank is not. *)
Example email_surrounding_blanks :
  isValid (Some "email") (trim (str " a@b.com ")) = true /\
  isValid (Some "email") (trim (str "a @b.com")) = false.
Proof. split; vm_compute; reflexivity. Qed.

Lemma isValid_other (n : option string) (v : jsstring) :
  n ∉ validated_names -> isValid n v = true.
Proof.
  intros Hn. destruct n as [n|]; [|reflexivity]. unfold isValid.
  destruct (String.eqb_spec n "name") as [->|_].
  { exfalso. apply Hn. unfold validated_names. set_solver. }
  destruct (String.eqb_spec n "email") as [->|_].
  { exfalso. apply Hn. unfold validated_names. set_solver. }
  destruct (String.eqb_spec n "company") as [->|_].
  { exfalso. apply Hn. unfold validated_names. set_solver. }
  destruct (String.eqb_spec n "team-size") as [->|_].
  { exfalso. apply Hn. unfold validated_names. set_solver. }
  reflexivity.
Qed.

Lemma validateAll_snoc (cs : list field) (f : field) :
  validateAll (cs ++ [f]) =
  (fst (validateAll cs) ++ [if selected f then snd (validateField f) else f],
   if selected f && negb (fst (validateField f)) then false else snd (validateAll cs)).
Proof.
  unfold validateAll. rewrite foldl_snoc.
  destruct (foldl _ _ cs) as [done ok]. simpl.
  destruct (selected f); [|reflexivity].
  destruct (validateField f) as [b f']. simpl. destruct b; reflexivity.
Qed.

(** [validateAll] validates every selected control and reports whether all
    of them passed. *)
Lemma validateAll_spec (cs : list field) :
  validateAll cs =
  (map (fun f => if selected f then snd (validateField f) else f) cs,
   forallb (fun f => fst (validateField f)) (List.filter selected cs)).
Proof.
  induction cs as [|f cs IH] using rev_ind; [reflexivity|].
  rewrite validateAll_snoc, IH. simpl.
  rewrite map_app, List.filter_app, forallb_app. simpl.
  f_equal. destruct (selected f); simpl; [|rewrite andb_true_r; reflexivity].
  rewrite andb_true_r. destruct (fst (validateField f)); simpl.
  - rewrite andb_true_r. reflexivity.
  - rewrite andb_false_r. reflexivity.
Qed.

Lemma handleSubmit_cases (fm : form) :
  let cs := map (fun f => if selected f then snd (validateField f) else f) (controls fm) in
  handleSubmit fm =
  if forallb (fun f => fst (validateField f)) (List.filter selected (controls fm))
  then Awaiting (startApiCall (setLoadingState true (with_controls fm cs)))
  else Blocked (showError invalid_fields_message (with_controls fm cs)).
Proof.
  intros cs. unfold handleSubmit. rewrite validateAll_spec. fold cs.
  destruct (forallb _ _); reflexivity.
Qed.

Lemma all_valid_iff (cs : list field) :
  forallb (fun f => fst (validateField f)) (List.filter selected cs) = true <->
  Forall (fun f => selected f = true -> fst (validateField f) = true) cs.
Proof.
  rewrite forallb_forall, Forall_forall. split.
  - intros Hall f Hin Hsel. apply Hall, filter_In. auto.
  - intros Hall f Hin. apply filter_In in Hin. destruct Hin as [Hin Hsel]. auto.
Qed.

Lemma some_invalid_iff (cs : list field) :
  forallb (fun f => fst (validateField f)) (List.filter selected cs) = false <->
  Exists (fun f => selected f = true /\ fst (validateField f) = false) cs.
Proof.
  induction cs as [|f cs IH]; simpl.
  - split; [discriminate | intros Hex; inversion Hex].
  - rewrite Exists_cons, <- IH.
    destruct (selected f); simpl; [|intuition congruence].
    destruct (fst (validateField f)); simpl; intuition congruence.
Qed.

(** C10.  A field whose name is none of ['name'], ['email'], ['company'],
    ['team-size'] (or that has no name) is always valid, whatever its value,
    and leaves [validateField] without the ['error'] class; a blocked
    submission always has a selected field with one of the four names that
    fails its rule. *)
Theorem other_fields_always_valid :
  (forall f : field,
     name f ∉ validated_names ->
     fst (validateField f) = true /\
     snd (validateField f) = set_classes f (classList_remove "error" (classes f)) /\
     "error" ∉ classes (snd (validateField f))) /\
  (forall fm fm' : form,
     handleSubmit fm = Blocked fm' ->
     exists f, f ∈ controls fm /\ selected f = true /\
               name f ∈ validated_names /\ fst (validateField f) = false) /\
  (forall fm : form,
     Forall (fun f => name f ∉ validated_names) (controls fm) ->
     exists fm', handleSubmit fm = Awaiting fm').
Proof.
  split_and!.
  - intros f Hn. unfold validateField.
    rewrite (isValid_other _ _ Hn). simpl.
    split_and!; [reflexivity | reflexivity |].
    unfold classList_remove. rewrite elem_of_difference, elem_of_singleton. tauto.
  - intros fm fm' Hb. rewrite handleSubmit_cases in Hb.
    destruct (forallb _ _) eqn:E; [discriminate|].
    apply some_invalid_iff, Exists_exists in E. destruct E as (f & Hin & Hsel & Hv).
    exists f. split_and!; [apply list_elem_of_In, Hin | exact Hsel | | exact Hv].
    destruct (decide (name f ∈ validated_names)) as [Hy|Hn]; [exact Hy|].
    rewrite validateField_fst, (isValid_other _ _ Hn) in Hv. discriminate.
  - intros fm Hall. rewrite handleSubmit_cases.
    rewrite (proj2 (all_valid_iff (controls fm))); [eauto|].
    eapply Forall_impl; [|exact Hall]. intros f Hn _. simpl in Hn.
    rewrite validateField_fst. apply isValid_other, Hn.
Qed.

(** Validation changes the class list only, so a control that has been
    validated is selected as before and gets the same verdict again. *)
Lemma validateField_keeps (f : field) :
  tag (snd (validateField f)) = tag f /\
  name (snd (validateField f)) = name f /\
  required (snd (validateField f)) = required f /\
  value (snd (validateField f)) = value f /\
  defaultValue (snd (validateField f)) = defaultValue f.
Proof. unfold validateField. destruct (negb _); simpl; auto. Qed.

Lemma revalidate (f : field) :
  let f' := if selected f then snd (validateField f) else f in
  selected f' = selected f /\ fst (validateField f') = fst (validateField f).
Proof.
  simpl. destruct (selected f) eqn:Es; [|auto].
  destruct (validateField_keeps f) as (Et & En & Er & Ev & _).
  split.
  - unfold selected in *. rewrite Et, Er. exact Es.
  - rewrite !validateField_fst, En, Ev. reflexivity.
Qed.

Lemma all_valid_again (cs : list field) :
  forallb (fun f => fst (validateField f)) (List.filter selected cs) = true ->
  forallb (fun f => fst (validateField f))
    (List.filter selected
       (map (fun f => if selected f then snd (validateField f) else f) cs)) = true.
Proof.
  rewrite !all_valid_iff, !Forall_forall. intros Hall f' Hin Hsel.
  apply in_map_iff in Hin. destruct Hin as (f & <- & Hin).
  destruct (revalidate f) as [Es Ev]. simpl in Es, Ev.
  rewrite Ev. apply (Hall f Hin). rewrite <- Es. exact Hsel.
Qed.

(** C8.  When a required input or select fails validation, [handleSubmit]
    returns after showing the form-level error: the submit control, the
    loading indicator, the values and the number of API calls are as
    before.  When all of them pass, whatever the other controls hold, it
    disables the submit control, shows the loading indicator and starts the
    API call; when that call settles, with either outcome, the control is
    enabled and the indicator hidden again, and the banner tells the
    outcome: success when [Math.random()] exceeded the double [0.1],
    failure otherwise.  [handleSubmit] does not look at the submit control:
    run again while the first call is pending, it starts a second call. *)
Theorem handleSubmit_blocks_or_loads (fm : form) :
  (Exists (fun f => selected f = true /\ fst (validateField f) = false) (controls fm) ->
   exists fm',
     handleSubmit fm = Blocked fm' /\
     messages fm' = [error_message invalid_fields_message] /\
     submitDisabled fm' = submitDisabled fm /\
     loadingDisplay fm' = loadingDisplay fm /\
     labelDisplay fm' = labelDisplay fm /\
     map value (controls fm') = map value (controls fm) /\
     apiCalls fm' = apiCalls fm) /\
  (Forall (fun f => selected f = true -> fst (validateField f) = true) (controls fm) ->
   exists fm',
     handleSubmit fm = Awaiting fm' /\
     submitDisabled fm' = true /\
     loadingDisplay fm' = "inline" /\
     labelDisplay fm' = "none" /\
     apiCalls fm' = S (apiCalls fm) /\
     messages fm' = messages fm /\
     (forall random : Q,
        submitDisabled (resume random fm') = false /\
        loadingDisplay (resume random fm') = "none" /\
        labelDisplay (resume random fm') = "inline" /\
        apiCalls (resume random fm') = S (apiCalls fm) /\
        ((one_tenth < random)%Q ->
         messages (resume random fm') = [success_message thanks_message]) /\
        ((random <= one_tenth)%Q ->
         messages (resume random fm') = [error_message failure_message])) /\
     (exists fm'',
        handleSubmit fm' = Awaiting fm'' /\
        submitDisabled fm'' = true /\
        apiCalls fm'' = S (S (apiCalls fm)))).
Proof.
  split.
  - intros Hex. apply some_invalid_iff in Hex.
    rewrite handleSubmit_cases, Hex. eexists. split; [reflexivity|].
    simpl. split_and!; try reflexivity.
    rewrite map_map. apply map_ext. intros f.
    destruct (selected f); [|reflexivity].
    unfold validateField. destruct (negb _); reflexivity.
  - intros Hall. apply all_valid_iff in Hall.
    rewrite handleSubmit_cases, Hall. eexists. split; [reflexivity|].
    simpl. split_and!; try reflexivity.
    + intros random. unfold resume.
      destruct (Qlt_le_dec one_tenth random) as [Hr|Hr]; simpl; split_and!; try reflexivity.
      * intros Hc. exfalso. apply (Qlt_not_le _ _ Hr Hc).
      * intros Hc. exfalso. apply (Qlt_not_le _ _ Hc Hr).
    + rewrite handleSubmit_cases. simpl.
      rewrite (all_valid_again _ Hall). eexists. split; [reflexivity|].
      simpl. auto.
Qed.

(** The hypotheses of both cases hold of one-control forms. *)
Lemma handleSubmit_blocks_or_loads_witness :
  (exists fm', handleSubmit (single_control
       {| tag := input; name := Some "name"; required := true; value := [];
          defaultValue := []; classes := ∅ |}) = Blocked fm') /\
  (exists fm', handleSubmit (single_control
       {| tag := input; name := Some "phone"; required := true; value := [];
          defaultValue := []; classes := ∅ |}) = Awaiting fm').
Proof.
  split.
  - destruct (handleSubmit_blocks_or_loads (single_control
       {| tag := input; name := Some "name"; required := true; value := [];
          defaultValue := []; classes := ∅ |})) as [H _].
    destruct H as (fm' & E & _).
    + apply Exists_cons_hd. split; reflexivity.
    + exists fm'. exact E.
  - destruct (handleSubmit_blocks_or_loads (single_control
       {| tag := input; name := Some "phone"; required := true; value := [];
          defaultValue := []; classes := ∅ |})) as [_ H].
    destruct H as (fm' & E & _).
    + apply Forall_cons; [reflexivity | apply Forall_nil].
    + exists fm'. exact E.
Defined.

(** A required textarea is not among the controls [handleSubmit] selects: one
    named ['email'] whose value is no address fails [validateField], and the
    form is submitted all the same. *)
Lemma handleSubmit_skips_required_textarea :
  let f := {| tag := textarea; name := Some "email"; required := true;
              value := str "bad"; defaultValue := []; classes := ∅ |} in
  required f = true /\
  fst (validateField f) = false /\
  exists fm',
    handleSubmit (single_control f) = Awaiting fm' /\
    submitDisabled fm' = true /\
    messages fm' = [] /\
    apiCalls fm' = 1%nat.
Proof.
  intros f. split_and!; [reflexivity | vm_compute; reflexivity |].
  rewrite handleSubmit_cases. simpl. eexists. split; [reflexivity|]. auto.
Qed.

(** The double [0.1] is not 1/10: were [Math.random()] to return it, the
    call fails although the value exceeds 1/10. *)
Example resume_at_one_tenth (fm : form) :
  (1 # 10 < one_tenth)%Q /\
  messages (resume one_tenth fm) = [error_message failure_message].
Proof. split; reflexivity. Qed.

(** A form whose only required field is an email input. *)
Example submit_email_form :
  let fm v := {| controls := [ {| tag := input; name := Some "email"; required := true;
                                  value := str v; defaultValue := []; classes := ∅ |} ];
                 submitDisabled := false; loadingDisplay := "none";
                 labelDisplay := "inline"; messages := []; apiCalls := 0 |} in
  (exists fm', handleSubmit (fm "a@b") = Blocked fm' /\ apiCalls fm' = 0%nat /\
               submitDisabled fm' = false) /\
  (exists fm', handleSubmit (fm "a@b.com") = Awaiting fm' /\ apiCalls fm' = 1%nat /\
               submitDisabled fm' = true /\
               submitDisabled (resume (1 # 2) fm') = false /\
               submitDisabled (resume (1 # 20) fm') = false).
Proof.
  intros fm. split.
  - rewrite handleSubmit_cases.
    replace (forallb _ _) with false by (vm_compute; reflexivity).
    eexists. split; [reflexivity|]. auto.
  - rewrite handleSubmit_cases.
    replace (forallb _ _) with true by (vm_compute; reflexivity).
    eexists. split; [reflexivity|]. auto.
Qed.

End FormFacts.

(** ** TelegramAnimator: one playback *)

Module TelegramFacts.
Import TelegramAnimator.

Lemma state_eq (a a' : bool) (b b' : nat) (c c' : list messageElement)
    (d d' : list handle) (e e' : list timer) (f f' : Z) (g g' : list (Z * mutation)) :
  a = a' -> b = b' -> c = c' -> d = d' -> e = e' -> f = f' -> g = g' ->
  mkState a b c d e f g = mkState a' b' c' d' e' f' g'.
Proof. intros. subst. reflexivity. Qed.

Lemma timer_eq (d d' : Z) (cb cb' : callback) :
  d = d' -> cb = cb' -> {| due := d; run := cb |} = {| due := d'; run := cb' |}.
Proof. intros. subst. reflexivity. Qed.

Lemma alter_last (f : messageElement -> messageElement) (l : list messageElement) (x : messageElement) :
  alter f (length l) (l ++ [x]) = l ++ [f x].
Proof.
  replace (length l) with (length l + 0)%nat by lia.
  rewrite alter_app_r. reflexivity.
Qed.

Lemma typed_log_S (t : Z) (el : handle) (txt : jsstring) (k : nat) :
  typed_log t el txt (S k) =
  typed_log t el txt k ++ [(t + 50 * Z.of_nat (S k), Typed el (take (S k) txt))].
Proof. unfold typed_log. rewrite seq_S, map_app. reflexivity. Qed.

Lemma fire_n_add (script : list message) (a b : nat) (s : state) :
  fire_n script (a + b) s =
  match fire_n script a s with
  | Some s' => fire_n script b s'
  | None => None
  end.
Proof.
  revert s. induction a as [|a IH]; intros s; simpl; [reflexivity|].
  destruct (fire script s); [apply IH | reflexivity].
Qed.

Section Playback.
Variable script : list message.

Lemma addMessage_typing (s : state) (i : nat) (m : message) :
  timers s = [] -> addMessage i m s = typing_state s i m 0.
Proof.
  intros Ht. unfold addMessage, typeText, schedule, record, update_element, typing_state.
  simpl. rewrite Ht, alter_last. simpl.
  apply state_eq; try reflexivity; lia.
Qed.

Lemma fire_typing (s : state) (i : nat) (m : message) (k : nat) :
  (k < length (text m))%nat ->
  fire script (typing_state s i m k) = Some (typing_state s i m (S k)).
Proof.
  intros Hk. unfold fire, typing_state. simpl.
  destruct (lookup_lt_is_Some_2 (text m) k Hk) as [c Hc]. rewrite Hc.
  unfold schedule, record, update_element. simpl.
  rewrite alter_last. simpl. rewrite <- (take_S_r _ _ _ Hc).
  f_equal. apply state_eq; try reflexivity.
  - f_equal. apply timer_eq; [lia | reflexivity].
  - lia.
  - rewrite typed_log_S, <- app_assoc.
    replace (Z.of_nat (S k)) with (Z.of_nat k + 1) by lia. reflexivity.
Qed.

Lemma fire_n_typing (s : state) (i : nat) (m : message) (j : nat) : forall k,
  (k + j = length (text m))%nat ->
  fire_n script j (typing_state s i m k) = Some (typing_state s i m (length (text m))).
Proof.
  induction j as [|j IH]; intros k Hk; cbn [fire_n].
  - replace k with (length (text m)) by lia. reflexivity.
  - rewrite fire_typing by lia. apply IH. lia.
Qed.

Lemma fire_typing_end (s : state) (i : nat) (m : message) :
  fire script (typing_state s i m (length (text m))) = Some (pause_state s i m).
Proof.
  unfold fire, typing_state. simpl.
  rewrite (lookup_ge_None_2 (text m) (length (text m))) by lia.
  unfold schedule, record, pause_state, typed_element, message_time, typing_time. simpl.
  rewrite firstn_all.
  f_equal. apply state_eq; try reflexivity.
  - f_equal. apply timer_eq; [lia | reflexivity].
  - rewrite <- app_assoc. reflexivity.
Qed.

Lemma fire_pause (s : state) (i : nat) (m : message) :
  fire script (pause_state s i m) = Some (continue_loop script (S i) (played s i [m])).
Proof.
  unfold fire, pause_state. simpl. f_equal. f_equal.
  unfold played. simpl. apply state_eq; try reflexivity.
  unfold message_time. lia.
Qed.

(** One message: typing, the stopping tick and the pause. *)
Lemma fire_n_message (s : state) (i : nat) (m : message) :
  timers s = [] ->
  fire_n script (message_ticks m) (addMessage i m s) =
  Some (continue_loop script (S i) (played s i [m])).
Proof.
  intros Ht. rewrite (addMessage_typing s i m Ht). unfold message_ticks.
  rewrite fire_n_add, (fire_n_typing s i m (length (text m)) 0) by lia.
  cbn [fire_n]. rewrite fire_typing_end, fire_pause. reflexivity.
Qed.

Lemma played_cons (s : state) (i : nat) (m : message) (ms : list message) :
  played (played s i [m]) (S i) ms = played s i (m :: ms).
Proof.
  unfold played. simpl. rewrite !length_app. simpl.
  replace (length (elements s) + 1)%nat with (S (length (elements s))) by lia.
  replace (clock s + (message_time m + 0)) with (clock s + message_time m) by lia.
  apply state_eq; try reflexivity.
  - rewrite <- app_assoc. reflexivity.
  - rewrite <- app_assoc. reflexivity.
  - lia.
  - rewrite <- !app_assoc. simpl. rewrite <- app_assoc. reflexivity.
Qed.

Lemma played_nil (s : state) (i : nat) : timers s = [] -> played s i [] = s.
Proof.
  intros Ht. destruct s as [a b c d e f g]. simpl in Ht. subst e.
  unfold played. simpl. apply state_eq; try reflexivity.
  - apply app_nil_r.
  - apply app_nil_r.
  - lia.
  - apply app_nil_r.
Qed.

(** The loop from message [i] on, up to the creation of the cooldown. *)
Lemma fire_n_loop (ms : list message) : forall (i : nat) (s : state),
  drop i script = ms ->
  timers s = [] ->
  fire_n script (script_ticks ms) (continue_loop script i s) =
  Some (schedule 5000 restart (played s i ms)).
Proof.
  induction ms as [|m ms IH]; intros i s Hd Ht.
  - assert (Hl : script !! i = None).
    { apply lookup_ge_None_2. apply (f_equal length) in Hd.
      rewrite length_drop in Hd. simpl in Hd. lia. }
    unfold continue_loop. rewrite Hl, (played_nil s i Ht). reflexivity.
  - assert (Hl : script !! i = Some m).
    { pose proof (lookup_drop script i 0) as E. rewrite Hd in E.
      rewrite Nat.add_0_r in E. symmetry. exact E. }
    assert (Hd' : drop (S i) script = ms).
    { rewrite (drop_S _ _ _ Hl) in Hd. congruence. }
    unfold continue_loop at 1. rewrite Hl.
    change (script_ticks (m :: ms)) with (message_ticks m + script_ticks ms)%nat.
    rewrite fire_n_add, (fire_n_message s i m Ht).
    rewrite (IH (S i) (played s i [m]) Hd' eq_refl), played_cons. reflexivity.
Qed.

Lemma startAnimation_flags (a a' : bool) (b b' : nat) (c : list messageElement)
    (d d' : list handle) (e : list timer) (f : Z) (g : list (Z * mutation)) :
  startAnimation script (mkState a b c d e f g) =
  startAnimation script (mkState a' b' c d' e f g).
Proof. reflexivity. Qed.

(** One playback with its cooldown. *)
Lemma fire_n_cycle (s : state) :
  timers s = [] ->
  fire_n script (cycle_ticks script) (startAnimation script s) =
  Some (startAnimation script (rest_state script s)).
Proof.
  intros Ht. unfold cycle_ticks, startAnimation at 1.
  rewrite fire_n_add, (fire_n_loop script 0); [|reflexivity|exact Ht].
  cbn [fire_n]. unfold fire, schedule, played, record, rest_state, playback_log, period.
  simpl. f_equal.
  rewrite (startAnimation_flags false true 0 0 _ (seq (length (elements s)) (length script))
             (seq (length (elements s)) (length script))).
  f_equal. apply state_eq; try reflexivity.
  - lia.
  - rewrite <- app_assoc. reflexivity.
Qed.

Lemma fire_n_cycles (c : nat) : forall s : state,
  timers s = [] ->
  fire_n script (c * cycle_ticks script) (startAnimation script s) =
  Some (startAnimation script (Nat.iter c (rest_state script) s)).
Proof.
  induction c as [|c IH]; intros s Ht; [reflexivity|].
  change (S c * cycle_ticks script)%nat with (cycle_ticks script + c * cycle_ticks script)%nat.
  rewrite fire_n_add, (fire_n_cycle s Ht), (IH (rest_state script s) eq_refl).
  rewrite Nat.iter_succ_r. reflexivity.
Qed.

(** ** The states of a playback *)

Lemma script_time_app (ms1 ms2 : list message) :
  script_time (ms1 ++ ms2) = script_time ms1 + script_time ms2.
Proof.
  induction ms1 as [|m ms1 IH]; simpl; [reflexivity|].
  unfold script_time in *. simpl. rewrite IH. lia.
Qed.

Lemma message_log_app (ms1 ms2 : list message) : forall (t : Z) (i el : nat),
  message_log t i el (ms1 ++ ms2) =
  message_log t i el ms1 ++
  message_log (t + script_time ms1) (i + length ms1) (el + length ms1) ms2.
Proof.
  induction ms1 as [|m ms1 IH]; intros t i el.
  - simpl. rewrite Z.add_0_r, !Nat.add_0_r. reflexivity.
  - simpl. rewrite IH.
    replace (t + message_time m + script_time ms1) with (t + script_time (m :: ms1))
      by (unfold script_time; simpl; lia).
    replace (S i + length ms1)%nat with (i + S (length ms1))%nat by lia.
    replace (S el + length ms1)%nat with (el + S (length ms1))%nat by lia.
    rewrite <- !app_assoc. reflexivity.
Qed.

Lemma played_snoc (b : state) (ms : list message) (m : message) :
  played (played b 0 ms) (length ms) [m] = played b 0 (ms ++ [m]).
Proof.
  unfold played. simpl. rewrite !length_app, !length_map. simpl.
  rewrite message_log_app, script_time_app. simpl.
  apply state_eq; try reflexivity.
  - rewrite map_app, <- app_assoc. reflexivity.
  - rewrite seq_app, <- app_assoc. reflexivity.
  - unfold script_time. simpl. lia.
  - rewrite <- !app_assoc. reflexivity.
Qed.

Lemma take_lookup_snoc (i : nat) (m : message) :
  script !! i = Some m ->
  take (S i) script = take i script ++ [m] /\ length (take i script) = i.
Proof.
  intros Hl. split; [apply take_S_r, Hl|].
  rewrite length_take. apply lookup_lt_Some in Hl. lia.
Qed.

(** Entering the loop at index [i] after the first [i] messages. *)
Lemma playing_continue (b : state) (i : nat) :
  timers b = [] ->
  playing script b (continue_loop script i (played b 0 (take i script))).
Proof.
  intros Ht. unfold continue_loop. destruct (script !! i) as [m|] eqn:Hl.
  - rewrite addMessage_typing by reflexivity. apply playing_typing; [exact Hl | lia].
  - apply lookup_ge_None_1 in Hl. rewrite take_ge by exact Hl. apply playing_cooldown.
Qed.

Lemma startAnimation_playing (s : state) :
  timers s = [] -> playing script (cleared s) (startAnimation script s).
Proof.
  intros Ht. unfold startAnimation. fold (cleared s).
  rewrite <- (played_nil (cleared s) 0) at 2 by exact Ht.
  rewrite <- (take_0 script). apply playing_continue. exact Ht.
Qed.

(** A timer firing inside a playback leads to the next state of that
    playback or to the start of the next one. *)
Lemma fire_playing (b s : state) :
  timers b = [] ->
  playing script b s ->
  exists s',
    fire script s = Some s' /\
    (playing script b s' \/ exists s0, timers s0 = [] /\ s' = startAnimation script s0).
Proof.
  intros Ht Hp. destruct Hp as [i m k Hl Hk|i m Hl|].
  - destruct (decide (k = length (text m))) as [->|Hne].
    + eexists. split; [apply fire_typing_end|]. left. apply playing_pause, Hl.
    + eexists. split; [apply fire_typing; lia|]. left. apply playing_typing; [exact Hl | lia].
  - eexists. split; [apply fire_pause|]. left.
    destruct (take_lookup_snoc i m Hl) as [E1 E2].
    assert (E : played (played b 0 (take i script)) i [m] = played b 0 (take (S i) script)).
    { rewrite E1, <- played_snoc, E2. reflexivity. }
    rewrite E. apply playing_continue, Ht.
  - eexists. split; [reflexivity|]. right. eexists. split; [|reflexivity]. reflexivity.
Qed.

Lemma shown_seq (X : list messageElement) : forall E Y : list messageElement,
  map (fun h => textContent <$> (E ++ X ++ Y) !! h) (seq (length E) (length X)) =
  map (fun e => Some (textContent e)) X.
Proof.
  induction X as [|x X IH]; intros E Y; [reflexivity|].
  simpl. f_equal.
  - rewrite lookup_app_r by lia. rewrite Nat.sub_diag. reflexivity.
  - replace (S (length E)) with (length (E ++ [x])) by (rewrite length_app; simpl; lia).
    replace (E ++ x :: X ++ Y) with ((E ++ [x]) ++ X ++ Y) by (rewrite <- app_assoc; reflexivity).
    apply IH.
Qed.

Lemma shown_played (E : list messageElement) (ms : list message) (Y : list messageElement) :
  map (fun h => textContent <$> ((E ++ map typed_element ms) ++ Y) !! h)
      (seq (length E) (length ms)) =
  map (fun m => Some (text m)) ms.
Proof.
  rewrite <- app_assoc. rewrite <- (length_map typed_element ms).
  rewrite shown_seq, map_map. reflexivity.
Qed.

Lemma playing_view (b s : state) :
  messageContainer b = [] -> playing script b s -> sequential_view script s.
Proof.
  intros Hc Hp. destruct Hp as [i m k Hl Hk|i m Hl|].
  - right. exists i, m, k. split; [exact Hl|].
    unfold shown, typing_state, played. simpl. rewrite Hc. simpl.
    rewrite map_app, shown_played. simpl. f_equal.
    rewrite lookup_app_r by lia. rewrite Nat.sub_diag. reflexivity.
  - left. exists (S i). destruct (take_lookup_snoc i m Hl) as [E1 _]. rewrite E1.
    unfold shown, pause_state, played. simpl. rewrite Hc. simpl.
    rewrite !map_app, shown_played. simpl. f_equal.
    rewrite lookup_app_r by lia. rewrite Nat.sub_diag. reflexivity.
  - left. exists (length script). rewrite firstn_all.
    unfold shown, schedule, played. simpl. rewrite Hc. simpl.
    rewrite <- (app_nil_r (elements b ++ map typed_element script)).
    apply shown_played.
Qed.

(** Every state of a running animator belongs to some playback. *)
Lemma fire_n_playing (n : nat) : forall b s : state,
  timers b = [] -> messageContainer b = [] -> playing script b s ->
  exists s' b',
    fire_n script n s = Some s' /\
    timers b' = [] /\ messageContainer b' = [] /\ playing script b' s'.
Proof.
  induction n as [|n IH]; intros b s Ht Hc Hp.
  - exists s, b. auto.
  - destruct (fire_playing b s Ht Hp) as (s1 & Hf & [Hp1|(s0 & Ht0 & ->)]).
    + destruct (IH b s1 Ht Hc Hp1) as (s' & b' & Hf' & H').
      exists s', b'. cbn [fire_n]. rewrite Hf. auto.
    + destruct (IH (cleared s0) (startAnimation script s0) Ht0 eq_refl
                  (startAnimation_playing s0 Ht0)) as (s' & b' & Hf' & H').
      exists s', b'. cbn [fire_n]. rewrite Hf. auto.
Qed.

(** ** What every callback does to the timer queue, the flag and the log *)

Lemma continue_loop_effect (i : nat) (s : state) :
  exists tm l,
    timers (continue_loop script i s) = timers s ++ [tm] /\
    isAnimating (continue_loop script i s) = isAnimating s /\
    log (continue_loop script i s) = log s ++ l.
Proof.
  unfold continue_loop. destruct (script !! i) as [m|].
  - unfold addMessage, typeText, schedule, record, update_element. simpl. eauto.
  - unfold schedule. simpl. exists {| due := clock s + 5000; run := restart |}, [].
    rewrite app_nil_r. auto.
Qed.

Lemma startAnimation_effect (s : state) :
  exists tm l,
    timers (startAnimation script s) = timers s ++ [tm] /\
    isAnimating (startAnimation script s) = true /\
    log (startAnimation script s) = log s ++ l.
Proof.
  unfold startAnimation.
  destruct (continue_loop_effect 0
              (record Cleared (mkState true 0 (elements s) [] (timers s) (clock s) (log s))))
    as (tm & l & Ht & Ha & Hl).
  exists tm, ((clock s, Cleared) :: l). rewrite Ht, Ha, Hl. simpl.
  rewrite <- app_assoc. auto.
Qed.

Lemma run_callback_effect (cb : callback) (s : state) :
  exists tm l,
    timers (run_callback script cb s) = timers s ++ [tm] /\
    (isAnimating s = true -> isAnimating (run_callback script cb s) = true) /\
    log (run_callback script cb s) = log s ++ l.
Proof.
  destruct cb as [i el txt k cur|i|]; simpl.
  - destruct (txt !! k) as [c|]; unfold schedule, record, update_element; simpl; eauto.
  - destruct (continue_loop_effect (S i) s) as (tm & l & Ht & Ha & Hl).
    exists tm, l. rewrite Ht, Ha, Hl. auto.
  - destruct (startAnimation_effect
                (mkState false (currentMessageIndex s) (elements s) (messageContainer s)
                         (timers s) (clock s) (log s))) as (tm & l & Ht & Ha & Hl).
    exists tm, l. rewrite Ht, Ha, Hl. auto.
Qed.

Lemma fire_single (s : state) (t : timer) :
  timers s = [t] ->
  exists s' tm l,
    fire script s = Some s' /\ timers s' = [tm] /\
    (isAnimating s = true -> isAnimating s' = true) /\
    log s' = log s ++ l.
Proof.
  intros Ht. unfold fire. rewrite Ht. simpl.
  destruct (run_callback_effect (run t)
              (mkState (isAnimating s) (currentMessageIndex s) (elements s)
                       (messageContainer s) [] (due t) (log s)))
    as (tm & l & Hts & Ha & Hl).
  eexists _, tm, l. split; [reflexivity|]. auto.
Qed.

Lemma fire_idle (s : state) : timers s = [] -> fire script s = None.
Proof. intros Ht. unfold fire. rewrite Ht. reflexivity. Qed.

(** A running playback never stops, and the log only grows. *)
Lemma fire_n_live (n : nat) : forall s : state,
  length (timers s) = 1%nat -> isAnimating s = true ->
  exists s',
    fire_n script n s = Some s' /\ length (timers s') = 1%nat /\
    isAnimating s' = true /\ log s `prefix_of` log s'.
Proof.
  induction n as [|n IH]; intros s Ht Ha.
  - exists s. split_and!; [reflexivity | exact Ht | exact Ha | reflexivity].
  - destruct (timers s) as [|t [|? ?]] eqn:Et; try discriminate.
    destruct (fire_single s t Et) as (s1 & tm & l & Hf & Ht1 & Ha1 & Hl1).
    destruct (IH s1) as (s' & Hf' & Ht' & Ha' & Hp'); [rewrite Ht1; reflexivity | auto |].
    exists s'. cbn [fire_n]. rewrite Hf. split_and!; try assumption.
    etrans; [|exact Hp']. rewrite Hl1. apply prefix_app_r. reflexivity.
Qed.

Lemma startAnimation_running (s : state) :
  timers s = [] ->
  length (timers (startAnimation script s)) = 1%nat /\
  isAnimating (startAnimation script s) = true.
Proof.
  intros Ht. destruct (startAnimation_effect s) as (tm & l & Hts & Ha & _).
  rewrite Hts, Ht, Ha. auto.
Qed.

Lemma iter_rest_clock (c : nat) (s : state) :
  clock (Nat.iter c (rest_state script) s) = clock s + Z.of_nat c * period script.
Proof.
  induction c as [|c IH]; [simpl; lia|].
  change (Nat.iter (S c) (rest_state script) s)
    with (rest_state script (Nat.iter c (rest_state script) s)).
  unfold rest_state at 1. cbn [clock]. rewrite IH. lia.
Qed.

Lemma iter_rest_elements (c : nat) (s : state) :
  length (elements (Nat.iter c (rest_state script) s)) =
  (length (elements s) + c * length script)%nat.
Proof.
  induction c as [|c IH]; [simpl; lia|].
  change (Nat.iter (S c) (rest_state script) s)
    with (rest_state script (Nat.iter c (rest_state script) s)).
  unfold rest_state at 1. cbn [elements]. rewrite length_app, length_map, IH. lia.
Qed.

Lemma script_ticks_app (ms1 ms2 : list message) :
  script_ticks (ms1 ++ ms2) = (script_ticks ms1 + script_ticks ms2)%nat.
Proof.
  induction ms1 as [|m ms1 IH]; [reflexivity|].
  unfold script_ticks in *. simpl. rewrite IH. lia.
Qed.

Lemma fire_n_typing_upto (s : state) (i : nat) (m : message) (j : nat) : forall k,
  (k + j <= length (text m))%nat ->
  fire_n script j (typing_state s i m k) = Some (typing_state s i m (k + j)).
Proof.
  induction j as [|j IH]; intros k Hk; cbn [fire_n].
  - rewrite Nat.add_0_r. reflexivity.
  - rewrite fire_typing by lia. rewrite (IH (S k)) by lia.
    replace (S k + j)%nat with (k + S j)%nat by lia. reflexivity.
Qed.

(** The loop up to its test at index [i]. *)
Lemma fire_n_prefix (b : state) (i : nat) :
  timers b = [] -> (i <= length script)%nat ->
  fire_n script (script_ticks (take i script)) (continue_loop script 0 b) =
  Some (continue_loop script i (played b 0 (take i script))).
Proof.
  intros Ht. induction i as [|i IH]; intros Hi.
  - rewrite take_0, (played_nil b 0 Ht). reflexivity.
  - destruct (lookup_lt_is_Some_2 script i ltac:(lia)) as [m Hl].
    destruct (take_lookup_snoc i m Hl) as [E1 E2].
    rewrite E1, script_ticks_app, fire_n_add, IH by lia.
    unfold continue_loop at 1. rewrite Hl.
    change (script_ticks [m]) with (message_ticks m + 0)%nat. rewrite Nat.add_0_r.
    rewrite fire_n_message by reflexivity.
    assert (E : played (played b 0 (take i script)) i [m] = played b 0 (take i script ++ [m])).
    { rewrite <- played_snoc, E2. reflexivity. }
    rewrite E. reflexivity.
Qed.

(** The animator while message [i] is typed, [k] code units being shown. *)
Lemma fire_n_to_typing (s : state) (i : nat) (m : message) (k : nat) :
  timers s = [] -> script !! i = Some m -> (k <= length (text m))%nat ->
  fire_n script (script_ticks (take i script) + k) (startAnimation script s) =
  Some (typing_state (played (cleared s) 0 (take i script)) i m k).
Proof.
  intros Ht Hl Hk. unfold startAnimation. fold (cleared s).
  rewrite fire_n_add, (fire_n_prefix (cleared s) i Ht)
    by (apply lookup_lt_Some in Hl; lia).
  unfold continue_loop. rewrite Hl, addMessage_typing by reflexivity.
  apply (fire_n_typing_upto _ i m k 0). lia.
Qed.

(** The animator during the pause after message [i]. *)
Lemma fire_n_to_pause (s : state) (i : nat) (m : message) :
  timers s = [] -> script !! i = Some m ->
  fire_n script (script_ticks (take i script) + (length (text m) + 1)) (startAnimation script s) =
  Some (pause_state (played (cleared s) 0 (take i script)) i m).
Proof.
  intros Ht Hl.
  rewrite Nat.add_assoc, fire_n_add, (fire_n_to_typing s i m _ Ht Hl (le_n _)).
  cbn [fire_n]. rewrite fire_typing_end. reflexivity.
Qed.

(** The animator during the cooldown. *)
Lemma fire_n_to_cooldown (s : state) :
  timers s = [] ->
  fire_n script (script_ticks script) (startAnimation script s) =
  Some (schedule 5000 restart (played (cleared s) 0 script)).
Proof.
  intros Ht. unfold startAnimation. fold (cleared s).
  apply fire_n_loop; [reflexivity | exact Ht].
Qed.

(** Later cycles are the first cycle started from the rest state. *)
Lemma fire_n_in_cycle (c n : nat) (s : state) :
  timers s = [] ->
  fire_n script (c * cycle_ticks script + n) (startAnimation script s) =
  fire_n script n (startAnimation script (Nat.iter c (rest_state script) s)).
Proof.
  intros Ht. rewrite fire_n_add, (fire_n_cycles c s Ht). reflexivity.
Qed.

Lemma iter_rest_timers (c : nat) (s : state) :
  timers s = [] -> timers (Nat.iter c (rest_state script) s) = [].
Proof. intros Ht. destruct c; [exact Ht | reflexivity]. Qed.

Lemma iter_rest_log (c : nat) (s : state) :
  log (Nat.iter c (rest_state script) s) =
  log s ++ cycles_log script (clock s) (length (elements s)) c.
Proof.
  induction c as [|c IH]; [simpl; rewrite app_nil_r; reflexivity|].
  change (Nat.iter (S c) (rest_state script) s)
    with (rest_state script (Nat.iter c (rest_state script) s)).
  unfold rest_state at 1. cbn [log].
  rewrite IH, iter_rest_clock, iter_rest_elements.
  rewrite <- app_assoc. reflexivity.
Qed.

Lemma shown_typing (x : state) (i : nat) (m : message) (k : nat) :
  shown (typing_state (played (cleared x) 0 (take i script)) i m k) =
  map (fun m => Some (text m)) (take i script) ++ [Some (take k (text m))].
Proof.
  unfold shown, typing_state, played, cleared, record. simpl.
  rewrite map_app, shown_played. simpl. f_equal.
  rewrite lookup_app_r by lia. rewrite Nat.sub_diag. reflexivity.
Qed.

Lemma shown_pause (x : state) (i : nat) (m : message) :
  script !! i = Some m ->
  shown (pause_state (played (cleared x) 0 (take i script)) i m) =
  map (fun m => Some (text m)) (take (S i) script).
Proof.
  intros Hl. destruct (take_lookup_snoc i m Hl) as [E1 _]. rewrite E1.
  unfold shown, pause_state, played, cleared, record. simpl.
  rewrite !map_app, shown_played. simpl. f_equal.
  rewrite lookup_app_r by lia. rewrite Nat.sub_diag. reflexivity.
Qed.

Lemma shown_cooldown (x : state) :
  shown (schedule 5000 restart (played (cleared x) 0 script)) =
  map (fun m => Some (text m)) script.
Proof.
  unfold shown, schedule, played, cleared, record. simpl.
  rewrite <- (app_nil_r (elements x ++ map typed_element script)).
  apply shown_played.
Qed.

(** C3.  A playback started at time [t] produces exactly [playback_log t]:
    the container is cleared, then for each message of the script in order
    its element is created, one code unit is appended every 50 time units,
    [typeText] resolves 50 later and the next element is created 1500 after
    that; 5000 after the pause that follows the last message the next
    playback starts from message 0.  This repeats for ever: after any
    number of timer firings a timer is pending, the container shows the
    first messages of the script in full and at most an initial part of the
    next one, and what has happened so far is an initial part of that
    schedule.  The last three parts give the animator itself in cycle [c]:
    while message [i] is typed and shows [k] code units, during the pause
    after message [i], and during the cooldown; in each the time, the one
    pending timer with its deadline, the texts in the container and the
    whole log are written out. *)
Theorem chat_playback_sequential (s : state) :
  timers s = [] ->
  (forall c : nat,
     let sc := Nat.iter c (rest_state script) s in
     fire_n script (c * cycle_ticks script) (startAnimation script s) =
       Some (startAnimation script sc) /\
     clock sc = clock s + Z.of_nat c * period script /\
     length (elements sc) = (length (elements s) + c * length script)%nat /\
     log (rest_state script sc) =
       log sc ++ playback_log script (clock sc) (length (elements sc))) /\
  (forall n : nat,
     exists s',
       fire_n script n (startAnimation script s) = Some s' /\
       length (timers s') = 1%nat /\
       isAnimating s' = true /\
       sequential_view script s' /\
       log s' `prefix_of` log (startAnimation script (Nat.iter n (rest_state script) s))) /\
  (forall (c i : nat) (m : message) (k : nat),
     script !! i = Some m -> (k <= length (text m))%nat ->
     let t := clock s + Z.of_nat c * period script in
     let e := (length (elements s) + c * length script)%nat in
     let ti := t + script_time (take i script) in
     exists s',
       fire_n script (c * cycle_ticks script + (script_ticks (take i script) + k))
              (startAnimation script s) = Some s' /\
       isAnimating s' = true /\
       clock s' = ti + 50 * Z.of_nat k /\
       timers s' = [ {| due := ti + 50 * (Z.of_nat k + 1);
                        run := typeInterval i (e + i) (text m) k (take k (text m)) |} ] /\
       shown s' = map (fun m => Some (text m)) (take i script) ++ [Some (take k (text m))] /\
       log s' = (log s ++ cycles_log script (clock s) (length (elements s)) c)
                ++ (t, Cleared) :: message_log t 0 e (take i script)
                ++ (ti, Created i (e + i)) :: typed_log ti (e + i) (text m) k) /\
  (forall (c i : nat) (m : message),
     script !! i = Some m ->
     let t := clock s + Z.of_nat c * period script in
     let e := (length (elements s) + c * length script)%nat in
     let ti := t + script_time (take i script) in
     exists s',
       fire_n script (c * cycle_ticks script + (script_ticks (take i script) + (length (text m) + 1)))
              (startAnimation script s) = Some s' /\
       isAnimating s' = true /\
       clock s' = ti + 50 * (Z.of_nat (length (text m)) + 1) /\
       timers s' = [ {| due := ti + 50 * (Z.of_nat (length (text m)) + 1) + 1500;
                        run := afterPause i |} ] /\
       shown s' = map (fun m => Some (text m)) (take (S i) script) /\
       log s' = (log s ++ cycles_log script (clock s) (length (elements s)) c)
                ++ (t, Cleared) :: message_log t 0 e (take (S i) script)) /\
  (forall c : nat,
     let t := clock s + Z.of_nat c * period script in
     let e := (length (elements s) + c * length script)%nat in
     exists s',
       fire_n script (c * cycle_ticks script + script_ticks script)
              (startAnimation script s) = Some s' /\
       isAnimating s' = true /\
       clock s' = t + script_time script /\
       timers s' = [ {| due := t + script_time script + 5000; run := restart |} ] /\
       shown s' = map (fun m => Some (text m)) script /\
       log s' = (log s ++ cycles_log script (clock s) (length (elements s)) c)
                ++ playback_log script t e).
Proof.
  intros Ht. split_and!.
  - intros c sc. split_and!.
    + apply fire_n_cycles, Ht.
    + apply iter_rest_clock.
    + apply iter_rest_elements.
    + reflexivity.
  - intros n.
    destruct (startAnimation_running s Ht) as [Hone Hon].
    destruct (fire_n_live n _ Hone Hon) as (s' & Hf & Ht' & Ha' & _).
    exists s'. split_and!; try assumption.
    { destruct (fire_n_playing n (cleared s) (startAnimation script s) Ht eq_refl
                  (startAnimation_playing s Ht)) as (s2 & b & Hf2 & Hb & Hcb & Hp).
      rewrite Hf in Hf2. injection Hf2 as <-. apply (playing_view b s' Hcb Hp). }
    pose proof (fire_n_cycles n s Ht) as Hc.
    assert (cycle_ticks script = S (script_ticks script)) as Ek by (unfold cycle_ticks; lia).
    replace (n * cycle_ticks script)%nat with (n + n * script_ticks script)%nat in Hc
      by (rewrite Ek; lia).
    rewrite fire_n_add, Hf in Hc.
    destruct (fire_n_live (n * script_ticks script) s' Ht' Ha') as (s2 & Hf2 & _ & _ & Hp).
    rewrite Hf2 in Hc. injection Hc as <-. exact Hp.
  - intros c i m k Hl Hk t e ti.
    pose proof (iter_rest_clock c s) as Ec. pose proof (iter_rest_elements c s) as Ee.
    pose proof (iter_rest_log c s) as El. pose proof (iter_rest_timers c s Ht) as Et.
    fold t in Ec. fold e in Ee.
    destruct (take_lookup_snoc i m Hl) as [_ Ei].
    set (sc := Nat.iter c (rest_state script) s) in *.
    eexists. split.
    { rewrite fire_n_in_cycle by exact Ht. apply (fire_n_to_typing sc i m k Et Hl Hk). }
    split_and!; [| | | apply (shown_typing sc i m k) |];
      unfold typing_state, played, cleared, record;
      cbn [isAnimating clock timers log elements];
      rewrite ?length_app, ?length_map, ?Ei, ?Ee, ?Ec, ?El; fold ti;
      rewrite <- ?app_assoc; reflexivity.
  - intros c i m Hl t e ti.
    pose proof (iter_rest_clock c s) as Ec. pose proof (iter_rest_elements c s) as Ee.
    pose proof (iter_rest_log c s) as El. pose proof (iter_rest_timers c s Ht) as Et.
    fold t in Ec. fold e in Ee.
    destruct (take_lookup_snoc i m Hl) as [Es Ei].
    set (sc := Nat.iter c (rest_state script) s) in *.
    eexists. split.
    { rewrite fire_n_in_cycle by exact Ht. apply (fire_n_to_pause sc i m Et Hl). }
    split_and!; [| | | apply (shown_pause sc i m Hl) |];
      unfold pause_state, played, cleared, record;
      cbn [isAnimating clock timers log elements];
      rewrite ?length_app, ?length_map, ?Ei, ?Ee, ?Ec, ?El; fold ti.
    + reflexivity.
    + reflexivity.
    + unfold message_time, typing_time. do 2 f_equal. lia.
    + rewrite Es, message_log_app, Ei. fold ti.
      rewrite <- !app_assoc. reflexivity.
  - intros c t e.
    pose proof (iter_rest_clock c s) as Ec. pose proof (iter_rest_elements c s) as Ee.
    pose proof (iter_rest_log c s) as El. pose proof (iter_rest_timers c s Ht) as Et.
    fold t in Ec. fold e in Ee.
    set (sc := Nat.iter c (rest_state script) s) in *.
    eexists. split.
    { rewrite fire_n_in_cycle by exact Ht. apply (fire_n_to_cooldown sc Et). }
    split_and!; [| | | apply (shown_cooldown sc) |];
      unfold schedule, played, cleared, record, playback_log;
      cbn [isAnimating clock timers log elements];
      rewrite ?Ee, ?Ec, ?El; rewrite <- ?app_assoc; reflexivity.
Qed.

End Playback.

Lemma chat_playback_sequential_witness :
  (forall c : nat,
     let sc := Nat.iter c (rest_state messages) (init [] 0) in
     fire_n messages (c * cycle_ticks messages) (startAnimation messages (init [] 0)) =
       Some (startAnimation messages sc) /\
     clock sc = clock (init [] 0) + Z.of_nat c * period messages /\
     length (elements sc) = (length (elements (init [] 0)) + c * length messages)%nat /\
     log (rest_state messages sc) =
       log sc ++ playback_log messages (clock sc) (length (elements sc))) /\
  (forall n : nat,
     exists s',
       fire_n messages n (startAnimation messages (init [] 0)) = Some s' /\
       length (timers s') = 1%nat /\
       isAnimating s' = true /\
       sequential_view messages s' /\
       log s' `prefix_of` log (startAnimation messages (Nat.iter n (rest_state messages) (init [] 0)))) /\
  (forall (c i : nat) (m : message) (k : nat),
     messages !! i = Some m -> (k <= length (text m))%nat ->
     let t := clock (init [] 0) + Z.of_nat c * period messages in
     let e := (length (elements (init [] 0)) + c * length messages)%nat in
     let ti := t + script_time (take i messages) in
     exists s',
       fire_n messages (c * cycle_ticks messages + (script_ticks (take i messages) + k))
              (startAnimation messages (init [] 0)) = Some s' /\
       isAnimating s' = true /\
       clock s' = ti + 50 * Z.of_nat k /\
       timers s' = [ {| due := ti + 50 * (Z.of_nat k + 1);
                        run := typeInterval i (e + i) (text m) k (take k (text m)) |} ] /\
       shown s' = map (fun m => Some (text m)) (take i messages) ++ [Some (take k (text m))] /\
       log s' = (log (init [] 0) ++ cycles_log messages (clock (init [] 0)) (length (elements (init [] 0))) c)
                ++ (t, Cleared) :: message_log t 0 e (take i messages)
                ++ (ti, Created i (e + i)) :: typed_log ti (e + i) (text m) k) /\
  (forall (c i : nat) (m : message),
     messages !! i = Some m ->
     let t := clock (init [] 0) + Z.of_nat c * period messages in
     let e := (length (elements (init [] 0)) + c * length messages)%nat in
     let ti := t + script_time (take i messages) in
     exists s',
       fire_n messages (c * cycle_ticks messages + (script_ticks (take i messages) + (length (text m) + 1)))
              (startAnimation messages (init [] 0)) = Some s' /\
       isAnimating s' = true /\
       clock s' = ti + 50 * (Z.of_nat (length (text m)) + 1) /\
       timers s' = [ {| due := ti + 50 * (Z.of_nat (length (text m)) + 1) + 1500;
                        run := afterPause i |} ] /\
       shown s' = map (fun m => Some (text m)) (take (S i) messages) /\
       log s' = (log (init [] 0) ++ cycles_log messages (clock (init [] 0)) (length (elements (init [] 0))) c)
                ++ (t, Cleared) :: message_log t 0 e (take (S i) messages)) /\
  (forall c : nat,
     let t := clock (init [] 0) + Z.of_nat c * period messages in
     let e := (length (elements (init [] 0)) + c * length messages)%nat in
     exists s',
       fire_n messages (c * cycle_ticks messages + script_ticks messages)
              (startAnimation messages (init [] 0)) = Some s' /\
       isAnimating s' = true /\
       clock s' = t + script_time messages /\
       timers s' = [ {| due := t + script_time messages + 5000; run := restart |} ] /\
       shown s' = map (fun m => Some (text m)) messages /\
       log s' = (log (init [] 0) ++ cycles_log messages (clock (init [] 0)) (length (elements (init [] 0))) c)
                ++ playback_log messages t e).
Proof. apply (chat_playback_sequential messages (init [] 0)). reflexivity. Defined.

(** The schedule of a two-message script started at time 0. *)
Example playback_log_small :
  let script := [ {| type := bot; text := str "hi" |}; {| type := user; text := str "x" |} ] in
  playback_log script 0 0 =
    [ (0, Cleared);
      (0, Created 0 0); (50, Typed 0 (str "h")); (100, Typed 0 (str "hi")); (150, Resolved 0);
      (1650, Created 1 1); (1700, Typed 1 (str "x")); (1750, Resolved 1) ] /\
  period script = 8250 /\
  (log <$> fire_n script (cycle_ticks script) (startAnimation script (init [] 0))) =
    Some (playback_log script 0 0 ++ [(8250, Cleared); (8250, Created 0 2)]).
Proof. vm_compute. auto. Qed.

(** The script of the page takes 20550 time units per cycle. *)
Example period_messages : period messages = 20550 /\ cycle_ticks messages = 167%nat.
Proof. vm_compute. auto. Qed.

(** ** TelegramAnimator: the [isAnimating] guard *)

Section Guard.
Variable script : list message.

Lemma intersectionCallback_animating (entries : list bool) (s : state) :
  isAnimating s = true -> intersectionCallback script entries s = s.
Proof.
  intros Ha. unfold intersectionCallback.
  induction entries as [|e entries IH]; simpl; [reflexivity|].
  rewrite Ha, andb_false_r. exact IH.
Qed.

Lemma intersectionCallback_idle (entries : list bool) (s : state) :
  isAnimating s = false ->
  intersectionCallback script entries s =
  if existsb (fun isIntersecting => isIntersecting) entries
  then startAnimation script s else s.
Proof.
  intros Ha. induction entries as [|e entries IH]; [reflexivity|].
  unfold intersectionCallback in *. simpl. rewrite Ha, andb_true_r.
  destruct e; simpl; [|exact IH].
  apply (intersectionCallback_animating entries (startAnimation script s)).
  destruct (startAnimation_effect script s) as (_ & _ & _ & Hon & _). exact Hon.
Qed.

Lemma one_playback_start (s : state) :
  timers s = [] -> one_playback (startAnimation script s).
Proof.
  intros Ht. left. destruct (startAnimation_running script s Ht). auto.
Qed.

Lemma one_playback_intersect (entries : list bool) (s : state) :
  one_playback s -> one_playback (intersectionCallback script entries s).
Proof.
  intros [[Ha Ht]|[Ha Ht]].
  - rewrite intersectionCallback_animating by exact Ha. left. auto.
  - rewrite intersectionCallback_idle by exact Ha.
    destruct (existsb _ entries); [apply one_playback_start, Ht | right; auto].
Qed.

Lemma one_playback_step (s s' : state) :
  step script s s' -> one_playback s -> one_playback s'.
Proof.
  intros Hstep Hs. destruct Hstep as [s s' Hf|s t entries Hle Hdue].
  - destruct Hs as [[Ha Ht]|[Ha Ht]].
    + destruct (timers s) as [|tm [|? ?]] eqn:Et; try discriminate.
      destruct (fire_single script s tm Et) as (s1 & tm1 & l & Hf1 & Ht1 & Ha1 & _).
      rewrite Hf in Hf1. injection Hf1 as <-. left. rewrite Ht1. auto.
    + rewrite (fire_idle script s Ht) in Hf. discriminate.
  - apply one_playback_intersect. exact Hs.
Qed.

(** C4.  In every state the event loop can reach there is at most one
    pending playback timer, and none when [isAnimating] is false.  While
    [isAnimating] is true an observer notification changes nothing: no
    playback is started and nothing is queued.  A notification that does
    change the state finds [isAnimating] false and no playback running, and
    starts exactly one. *)
Theorem reentry_ignored (existing : list messageElement) (t0 : Z) (s : state) :
  rtc (step script) (init existing t0) s ->
  one_playback s /\
  (length (timers s) <= 1)%nat /\
  (forall entries, isAnimating s = true -> intersectionCallback script entries s = s) /\
  (forall entries,
     intersectionCallback script entries s <> s ->
     isAnimating s = false /\ timers s = [] /\
     intersectionCallback script entries s = startAnimation script s /\
     length (timers (startAnimation script s)) = 1%nat).
Proof.
  intros Hr.
  assert (Hone : one_playback s).
  { revert s Hr. apply (rtc_ind_r (fun s => one_playback s)).
    - right. auto.
    - intros y z _ Hstep Hy. eapply one_playback_step; eassumption. }
  split_and!.
  - exact Hone.
  - destruct Hone as [[_ Ht]|[_ Ht]]; rewrite Ht; simpl; lia.
  - intros entries Ha. apply intersectionCallback_animating, Ha.
  - intros entries Hne. destruct Hone as [[Ha Ht]|[Ha Ht]].
    + exfalso. apply Hne, intersectionCallback_animating, Ha.
    + rewrite (intersectionCallback_idle entries s Ha) in Hne |- *.
      destruct (existsb _ entries); [|congruence].
      split_and!; try reflexivity; try assumption.
      apply startAnimation_running, Ht.
Qed.

End Guard.

(** The state reached by a first notification with two intersecting
    entries, at time 5. *)
Lemma reentry_ignored_witness :
  let s := intersectionCallback messages [true; true] (at_time 5 (init [] 0)) in
  one_playback s /\
  (length (timers s) <= 1)%nat /\
  (forall entries, isAnimating s = true -> intersectionCallback messages entries s = s) /\
  (forall entries,
     intersectionCallback messages entries s <> s ->
     isAnimating s = false /\ timers s = [] /\
     intersectionCallback messages entries s = startAnimation messages s /\
     length (timers (startAnimation messages s)) = 1%nat).
Proof.
  apply (reentry_ignored messages [] 0).
  apply rtc_once.
  apply (step_intersect messages (init [] 0) 5 [true; true]).
  - simpl. lia.
  - constructor.
Defined.

End TelegramFacts.
(** ** [throttle] and [debounce] *)

Module ThrottleFacts.
Import Throttle.

Section Facts.
Variable A : Type.
Variable limit : Z.





End Facts.


End ThrottleFacts.

Module DebounceFacts.
Import Debounce.

Section Facts.
Variable A : Type.
Variable wait : Z.



End Facts.


End DebounceFacts.

(** ** AnimationObserver: every intersecting element is animated *)

Module AnimatedElementsFacts.
Import AnimationObserver AnimationObserverFacts AnimatedElements.

Lemma handleEntry_members (s : state) (en : entry) (h : handle) :
  h ∈ animatedElements (handleEntry s en) <->
  h ∈ animatedElements s \/ (isIntersecting en = true /\ target en = h).
Proof.
  unfold handleEntry. destruct (isIntersecting en); simpl.
  - case_bool_decide as Hin; simpl.
    + split; [auto | intros [?|[_ <-]]; assumption].
    + match goal with |- context [if ?b then _ else _] => destruct b end;
        unfold start_counter, set_add, add_class; simpl;
        rewrite elem_of_union, elem_of_singleton; intuition congruence.
  - intuition congruence.
Qed.

Lemma handleIntersection_members (entries : list entry) : forall (s : state) (h : handle),
  h ∈ animatedElements (handleIntersection s entries) <->
  h ∈ animatedElements s \/
  exists en, en ∈ entries /\ isIntersecting en = true /\ target en = h.
Proof.
  unfold handleIntersection.
  induction entries as [|en entries IH]; intros s h; simpl.
  - split; [auto | intros [?|(en & Hin & _)]; [assumption | inversion Hin]].
  - rewrite IH, handleEntry_members. split.
    + intros [[?|[? ?]]|(en' & Hin & ? & ?)]; [auto | right | right].
      * exists en. split; [constructor | auto].
      * exists en'. split; [constructor; exact Hin | auto].
    + intros [?|(en' & Hin & ? & ?)]; [auto|].
      apply elem_of_cons in Hin. destruct Hin as [->|Hin]; [auto|].
      right. exists en'. auto.
Qed.

Lemma run_members (d : handle -> element) (batches : list (list entry)) (h : handle) :
  h ∈ animatedElements (run d batches) <-> ever_intersecting h batches.
Proof.
  unfold run, ever_intersecting.
  assert (G : forall s,
    h ∈ animatedElements (foldl handleIntersection s batches) <->
    h ∈ animatedElements s \/
    exists b en, b ∈ batches /\ en ∈ b /\ isIntersecting en = true /\ target en = h).
  { induction batches as [|b batches IH]; intros s; simpl.
    - split; [auto | intros [?|(b & en & Hin & _)]; [assumption | inversion Hin]].
    - rewrite IH, handleIntersection_members. split.
      + intros [[?|(en & ? & ? & ?)]|(b' & en & Hin & ? & ? & ?)]; [auto | right | right].
        * exists b, en. split; [constructor | auto].
        * exists b', en. split; [constructor; exact Hin | auto].
      + intros [?|(b' & en & Hin & ? & ? & ?)]; [auto|].
        apply elem_of_cons in Hin. destruct Hin as [->|Hin]; [left; right; eauto|].
        right. exists b', en. auto. }
  rewrite G. simpl. split; [intros [Hin|?]; [|assumption] | auto].
  exfalso. revert Hin. apply not_elem_of_empty.
Qed.

Lemma marked_or_untouched_handleEntry (d : handle -> element) (s : state) (en : entry) :
  marked_or_untouched d s -> marked_or_untouched d (handleEntry s en).
Proof.
  intros Hs. unfold handleEntry.
  destruct (isIntersecting en); simpl; [|exact Hs].
  case_bool_decide as Hin; simpl; [exact Hs|].
  destruct (Hs (target en)) as (Dt & _ & Hfresh). destruct (Hfresh Hin) as [_ Hzero].
  match goal with |- marked_or_untouched d (if ?b then _ else _) => destruct b end.
  all: intros h; destruct (Hs h) as (D1 & H1 & H2).
  all: unfold start_counter, set_add, add_class; simpl.
  all: rewrite ?count_snoc; simpl.
  all: destruct (decide (target en = h)) as [<-|Hne].
  all: rewrite ?fn_lookup_insert, ?(fn_lookup_insert_ne _ _ _ _ Hne); simpl.
  all: repeat (case_bool_decide; simpl); try congruence.
  all: split; [assumption|]; split; intros Hm.
  all: try (split; [unfold classList_add; apply elem_of_union; left;
                    apply elem_of_singleton; reflexivity | lia]).
  all: try (exfalso; apply Hm, elem_of_union; left; apply elem_of_singleton; reflexivity).
  all: try (apply elem_of_union in Hm; destruct Hm as [Hm|Hm];
            [apply elem_of_singleton in Hm; congruence|];
            destruct (H1 Hm); split; [assumption | lia]).
  all: try (assert (Hm' : h ∉ animatedElements s)
              by (intros Hx; apply Hm, elem_of_union; right; exact Hx);
            destruct (H2 Hm'); split; [assumption | lia]).
Qed.

Lemma marked_or_untouched_run (d : handle -> element) (batches : list (list entry)) :
  marked_or_untouched d (run d batches).
Proof.
  unfold run.
  assert (G : forall s, marked_or_untouched d s ->
                        marked_or_untouched d (foldl handleIntersection s batches)).
  { induction batches as [|b batches IH]; intros s Hs; simpl; [exact Hs|].
    apply IH. unfold handleIntersection. clear IH. revert s Hs.
    induction b as [|en b IHb]; intros s Hs; simpl; [exact Hs|].
    apply IHb, marked_or_untouched_handleEntry, Hs. }
  apply G. intros h. simpl. split; [reflexivity|]. split.
  - intros Hin. exfalso. revert Hin. apply not_elem_of_empty.
  - intros _. split; reflexivity.
Qed.

(** X3.  After any batches of entries, an element is in [animatedElements]
    exactly when some entry reported it as intersecting; such an element
    carries ['aos-animate'] and was inserted exactly once, and an element
    that never intersected is exactly as the page loaded it. *)
Theorem animated_iff_intersected (d : handle -> element) (batches : list (list entry)) (h : handle) :
  (h ∈ animatedElements (run d batches) <-> ever_intersecting h batches) /\
  (ever_intersecting h batches ->
     "aos-animate" ∈ classList (dom (run d batches) h) /\
     count (is_set_added h) (effects (run d batches)) = 1%nat) /\
  (~ ever_intersecting h batches -> dom (run d batches) h = d h) /\
  dataTarget (dom (run d batches) h) = dataTarget (d h).
Proof.
  destruct (marked_or_untouched_run d batches h) as (Dt & H1 & H2).
  split_and!.
  - apply run_members.
  - intros He. apply H1. apply (proj2 (run_members d batches h)), He.
  - intros Hn. refine (proj1 (H2 _)). intros Hin.
    apply Hn. apply (proj1 (run_members d batches h)), Hin.
  - exact Dt.
Qed.

End AnimatedElementsFacts.

(** ** AnimationObserver: how long the counter runs *)

Module CounterFrames.
Import AnimationObserver RoundingFacts CounterFacts.

Section Facts.
Context `{Rounding}.

Lemma rnd_above (x : Q) : (0 <= x)%Q -> (rnd x <= x * (1 + eps))%Q.
Proof.
  intros Hx. pose proof (rnd_rel x) as Hr.
  rewrite (Qabs_pos x Hx) in Hr.
  apply Qabs_Qle_condition in Hr. destruct Hr as [_ Hu]. lra.
Qed.

Lemma qpow_ge_1 (q : Q) (n : nat) : (1 <= q)%Q -> (1 <= qpow q n)%Q.
Proof.
  intros Hq. induction n as [|n IH]; simpl; [lra | nra].
Qed.

Lemma increment_upper (T : Z) :
  0 <= T -> (increment T <= inject_Z T / 125 * (1 + eps))%Q.
Proof.
  intros HT. rewrite increment_eq. apply rnd_above.
  assert (0 <= inject_Z T)%Q by (unfold Qle; simpl; lia).
  apply Qle_shift_div_l; [reflexivity | lra].
Qed.

(** After [k] frames the running value has gained at most [k+1] roundings. *)
Lemma running_upper (T : Z) (k : nat) :
  0 <= T ->
  (running T k <= inject_Z (Z.of_nat k) * (inject_Z T / 125) * qpow (1 + eps) (S k))%Q.
Proof.
  intros HT.
  assert (HT' : (0 <= inject_Z T / 125)%Q).
  { assert (0 <= inject_Z T)%Q by (unfold Qle; simpl; lia).
    apply Qle_shift_div_l; [reflexivity | lra]. }
  pose proof eps_pos as He0.
  induction k as [|k IH].
  - change (inject_Z (Z.of_nat 0)) with 0%Q. change (running T 0) with 0%Q.
    rewrite !Qmult_0_l. apply Qle_refl.
  - rewrite running_S. unfold fadd.
    pose proof (running_nonneg T k HT) as Hk.
    pose proof (increment_nonneg T HT) as Hi.
    pose proof (increment_upper T HT) as Hiu.
    eapply Qle_trans; [apply rnd_above; lra|].
    pose proof (qpow_ge_1 (1 + eps) k) as Hq1.
    rewrite Nat2Z.inj_succ. unfold Z.succ. rewrite inject_Z_plus.
    change (qpow (1 + eps) (S (S k))) with ((1 + eps) * qpow (1 + eps) (S k))%Q.
    change (qpow (1 + eps) (S k)) with ((1 + eps) * qpow (1 + eps) k)%Q in *.
    set (p := (1 + eps)%Q) in *. set (q := qpow p k) in *.
    set (a := (inject_Z T / 125)%Q) in *.
    set (n := inject_Z (Z.of_nat k)) in *.
    assert (Hn : (0 <= n)%Q) by (unfold n, Qle; simpl; lia).
    assert (Hp : (1 <= p)%Q) by (unfold p; lra).
    assert (Hq : (1 <= q)%Q) by (apply Hq1; exact Hp).
    clearbody a p q n.
    assert (H1 : ((running T k + increment T) * p <= (n * a * (p * q) + a * p) * p)%Q).
    { apply Qmult_le_compat_r; lra. }
    eapply Qle_trans; [exact H1|].
    assert (H2 : (a * p * p <= a * p * p * q)%Q).
    { assert (0 <= a * p * p)%Q by (repeat apply Qmult_le_0_compat; lra). nra. }
    change (inject_Z 1) with 1%Q.
    assert (E1 : ((n + 1) * a * (p * (p * q)) == n * a * (p * q) * p + a * p * p * q)%Q)
      by ring.
    assert (E2 : ((n * a * (p * q) + a * p) * p == n * a * (p * q) * p + a * p * p)%Q)
      by ring.
    rewrite E1, E2. apply Qplus_le_r. exact H2.
Qed.

Lemma slack_124 : ((124 # 125) * qpow (1 + eps) 125 < 1)%Q.
Proof. vm_compute. reflexivity. Qed.

Lemma running_124 (T : Z) (j : nat) :
  0 < T -> (j <= 124)%nat -> (running T j < inject_Z T)%Q.
Proof.
  intros HT Hj. eapply Qle_lt_trans; [apply running_mono with (j := 124%nat); lia|].
  eapply Qle_lt_trans; [apply running_upper; lia|].
  assert (H0 : (0 < inject_Z T)%Q) by (unfold Qlt; simpl; lia).
  pose proof slack_124 as Hs.
  set (q := qpow (1 + eps) 125) in *.
  change (inject_Z (Z.of_nat 124)) with (124 # 1)%Q.
  assert (E : ((124 # 1) * (inject_Z T / 125) * q == inject_Z T * ((124 # 125) * q))%Q)
    by field.
  rewrite E. clearbody q. nra.
Qed.

(** X4.  For a positive target the counter renders 125 or 126 values, one
    per animation frame, whatever the rounding: 124 or 125 floors and then
    the target. *)
Theorem counter_frames (T : Z) :
  0 < T ->
  exists k : nat,
    (k = 125 \/ k = 126)%nat /\
    (forall fuel, (126 <= fuel)%nat -> animateCounter fuel T = Some (renders T k)) /\
    length (renders T k) = k.
Proof.
  intros HT.
  destruct (first_frame T 125 ltac:(lia) (running_126 T ltac:(lia))) as (k & Hk & Hge & Hlt).
  assert (Hk' : (125 <= k)%nat).
  { destruct (le_lt_dec 125 k) as [?|Hlow]; [assumption|]. exfalso.
    apply (Qlt_not_le _ _ (running_124 T k HT ltac:(lia)) Hge). }
  exists k. split_and!; [lia | |].
  - intros fuel Hf. destruct fuel as [|fuel]; [lia|].
    unfold animateCounter, renders. change 0%Q with (running T 0).
    apply updateCounter_frames.
    + lia.
    + intros i Hi. apply Hlt. lia.
    + replace (0 + S (k - 1))%nat with k by lia. exact Hge.
  - unfold renders. rewrite length_app, length_map, length_seq. simpl. lia.
Qed.

(** X5.  A negative target is rendered at once: the first frame shows the
    target itself and no further frame is requested. *)
Theorem counter_negative_target (T : Z) (fuel : nat) :
  T < 0 -> - 2 ^ 53 <= T ->
  animateCounter (S fuel) T = Some [T].
Proof.
  intros HT Hrep. unfold animateCounter. rewrite updateCounter_S.
  destruct (Qlt_le_dec (fadd 0 (increment T)) (inject_Z T)) as [Hc|Hc]; [|reflexivity].
  exfalso. apply (Qlt_not_le _ _ Hc). unfold fadd.
  assert (HT0 : (inject_Z T < 0)%Q) by (unfold Qlt; simpl; lia).
  assert (Hi : (inject_Z T <= increment T)%Q).
  { rewrite increment_eq. rewrite <- (rnd_int T) at 1 by lia.
    apply rnd_mono. apply Qle_shift_div_l; [reflexivity | lra]. }
  rewrite <- (rnd_int T) by lia. apply rnd_mono. lra.
Qed.

End Facts.

Lemma counter_frames_witness :
  exists k : nat,
    (k = 125 \/ k = 126)%nat /\
    (forall fuel, (126 <= fuel)%nat ->
       animateCounter (H := exact_rounding) fuel 1000 = Some (renders (H := exact_rounding) 1000 k)) /\
    length (renders (H := exact_rounding) 1000 k) = k.
Proof. apply (counter_frames (H := exact_rounding) 1000). lia. Defined.

Lemma counter_negative_target_witness :
  animateCounter (H := exact_rounding) 1 (-40) = Some [-40].
Proof. apply (counter_negative_target (H := exact_rounding) (-40) 0); lia. Defined.

End CounterFrames.

(** ** Scroll progress indicator: monotonicity *)

Module ScrollProgressMore.
Import ScrollProgress RoundingFacts ScrollProgressFacts.

Section Facts.
Context `{Rounding}.

(** X6.  On a document taller than the viewport the width never decreases
    when [scrollY] increases, whatever the rounding. *)
Theorem progress_width_monotone (y1 y2 : Q) (scrollHeight innerHeight : Z) :
  innerHeight < scrollHeight ->
  (y1 <= y2)%Q ->
  exists w1 w2 : Q,
    progressWidth y1 scrollHeight innerHeight = Num w1 /\
    progressWidth y2 scrollHeight innerHeight = Num w2 /\
    (w1 <= w2)%Q.
Proof.
  intros Hlt Hy.
  rewrite !(progressWidth_finite _ scrollHeight innerHeight Hlt). cbv zeta.
  set (m := inject_Z (scrollHeight - innerHeight)).
  assert (Hm : (0 < m)%Q) by (unfold m, Qlt; simpl; lia).
  set (p1 := fmul (fdiv y1 m) 100). set (p2 := fmul (fdiv y2 m) 100).
  assert (Hp : (p1 <= p2)%Q).
  { unfold p1, p2, fmul, fdiv. apply rnd_mono.
    apply Qmult_le_compat_r; [|discriminate].
    apply rnd_mono. unfold Qdiv. apply Qmult_le_compat_r; [exact Hy|].
    apply Qlt_le_weak, Qinv_lt_0_compat, Hm. }
  eexists _, _. split; [reflexivity|]. split; [reflexivity|].
  destruct (Qle_bool p1 100) eqn:E1; destruct (Qle_bool p2 100) eqn:E2.
  - exact Hp.
  - apply Qle_bool_iff, E1.
  - apply Qle_bool_iff in E2.
    assert (Hn : ~ (p1 <= 100)%Q) by (intros Hc; apply Qle_bool_iff in Hc; congruence).
    exfalso. apply Hn. lra.
  - apply Qle_refl.
Qed.

End Facts.

Lemma progress_width_monotone_witness :
  exists w1 w2 : Q,
    progressWidth (H := exact_rounding) 100 1200 200 = Num w1 /\
    progressWidth (H := exact_rounding) 250 1200 200 = Num w2 /\
    (w1 <= w2)%Q.
Proof.
  apply (progress_width_monotone (H := exact_rounding) 100 250 1200 200); [lia | discriminate].
Defined.

End ScrollProgressMore.

(** ** NavigationController: stale links, repeated updates, link clicks *)

Module NavigationMore.
Import NavigationController NavigationFacts ScrollToSection.

Lemma last_section_at_none (pos : Z) (secs : list section) :
  Forall (fun s => ~ (offsetTop s <= pos < offsetTop s + offsetHeight s)) secs ->
  last_section_at pos secs = None.
Proof.
  intros Hall. induction secs as [|x secs IH] using rev_ind; [reflexivity|].
  apply Forall_app in Hall. destruct Hall as [Hs Hx].
  rewrite last_section_at_snoc.
  destruct (in_window pos x) eqn:Hw; [|apply IH, Hs].
  exfalso. inversion Hx as [|? ? Hn _]; subst. apply Hn, in_window_spec, Hw.
Qed.

(** X7.  When [scrollY + 100] lies in no section's window (above the first
    section, in a gap, or below the last one) [updateActiveLink] changes no
    link: whatever was active stays active. *)
Theorem active_link_stale (scrollY : Z) (secs : list section) (links : list link) :
  Forall (fun s => ~ (offsetTop s <= scrollY + 100 < offsetTop s + offsetHeight s)) secs ->
  updateActiveLink scrollY secs links = links.
Proof.
  intros Hall. rewrite updateActiveLink_last, (last_section_at_none _ _ Hall). reflexivity.
Qed.

Lemma active_link_stale_witness :
  updateActiveLink 2000
    [ {| offsetTop := 0; offsetHeight := 300; sectionId := "a" |};
      {| offsetTop := 300; offsetHeight := 500; sectionId := "b" |} ]
    [ {| href := Some "#a"; linkClasses := {["active"]} |} ]
  = [ {| href := Some "#a"; linkClasses := {["active"]} |} ].
Proof.
  apply active_link_stale. repeat constructor; simpl; lia.
Defined.

(** X8.  [updateActiveLink] is idempotent: running the scroll handler again
    at the same scroll position changes nothing. *)
Theorem updateActiveLink_idempotent (scrollY : Z) (secs : list section) (links : list link) :
  updateActiveLink scrollY secs (updateActiveLink scrollY secs links) =
  updateActiveLink scrollY secs links.
Proof.
  rewrite !updateActiveLink_last.
  destruct (last_section_at (scrollY + 100) secs) as [sec|]; [|reflexivity].
  rewrite map_map. apply map_ext. intros l. apply highlight_highlight.
Qed.

Lemma substring_all (s : string) : String.substring 0 (String.length s) s = s.
Proof. induction s as [|c s IH]; simpl; [reflexivity | rewrite IH; reflexivity]. Qed.

Lemma prefix_empty (s : string) : String.prefix "" s = true.
Proof. destruct s; reflexivity. Qed.

Lemma hash_app (s : string) :
  "#" +:+ s = String (Ascii.Ascii true true false false false true false false) s.
Proof. reflexivity. Qed.

Lemma getElementById_first (before after : list node) (n : node) (sid : string) :
  nodeId n = Some sid -> sid <> "" ->
  Forall (fun m => nodeId m <> Some sid) before ->
  getElementById sid (before ++ n :: after) = Some n.
Proof.
  intros Hn Hs Hb. unfold getElementById.
  rewrite bool_decide_eq_false_2 by exact Hs.
  induction Hb as [|m before Hm _ IH]; simpl.
  - rewrite bool_decide_eq_true_2 by exact Hn. reflexivity.
  - rewrite bool_decide_eq_false_2 by exact Hm. exact IH.
Qed.

Lemma sections_app (d1 d2 : list node) : sections (d1 ++ d2) = sections d1 ++ sections d2.
Proof.
  unfold sections. apply omap_app.
Qed.

Lemma sections_Forall (P : section -> Prop) (d : list node) :
  Forall (fun n => forall sec, section_of n = Some sec -> P sec) d ->
  Forall P (sections d).
Proof.
  unfold sections. induction 1 as [|n d Hn _ IH]; simpl; [constructor|].
  destruct (section_of n) as [sec|]; [constructor; auto | exact IH].
Qed.

(** X9.  A link whose [href] is ['#'] followed by a non-empty id is clicked.
    The first element of the document with that id, of whatever kind, is a
    section taller than 20 pixels that ends before the sections after it
    begin.  Then the click asks for the position 80 above that section, and
    with the window at that position [updateActiveLink] makes exactly the
    links to that section active. *)
Theorem click_then_highlight (before after : list node) (n : node) (sid : string)
    (clicked : link) (links : list link) :
  href clicked = Some ("#" +:+ sid) ->
  sid <> "" ->
  isSection n = true -> nodeId n = Some sid ->
  Forall (fun m => nodeId m <> Some sid) before ->
  20 < nodeOffsetHeight n ->
  Forall (fun m => forall sec, section_of m = Some sec ->
                   nodeOffsetTop n + nodeOffsetHeight n <= offsetTop sec) after ->
  exists top,
    linkClick clicked (before ++ n :: after) = Some top /\
    top = nodeOffsetTop n - 80 /\
    updateActiveLink top (sections (before ++ n :: after)) links =
      map (highlight sid) links /\
    Forall (fun l => "active" ∈ linkClasses (highlight sid l) <->
                     href l = Some ("#" +:+ sid)) links.
Proof.
  intros Hc Hs Hsec Hid Hb Hh Ha. exists (nodeOffsetTop n - 80).
  set (sec := {| offsetTop := nodeOffsetTop n; offsetHeight := nodeOffsetHeight n;
                 sectionId := sid |}).
  assert (En : section_of n = Some sec).
  { unfold section_of. rewrite Hsec, Hid. reflexivity. }
  split_and!; [| reflexivity | |].
  - unfold linkClick. rewrite Hc, (hash_app sid).
    cbn [String.prefix String.length String.substring].
    replace (S (String.length sid) - 1)%nat with (String.length sid) by lia.
    rewrite substring_all.
    destruct (Ascii.ascii_dec _ _) as [_|Hne]; [|contradiction Hne; reflexivity].
    rewrite prefix_empty. unfold scrollToSection.
    rewrite (getElementById_first before after n sid Hid Hs Hb). reflexivity.
  - rewrite updateActiveLink_last.
    replace (last_section_at (nodeOffsetTop n - 80 + 100) (sections (before ++ n :: after)))
      with (Some sec); [reflexivity|].
    symmetry. apply last_section_at_spec. exists (sections before), (sections after).
    split_and!.
    + rewrite sections_app. unfold sections at 2. simpl. rewrite En. reflexivity.
    + apply in_window_spec. simpl. lia.
    + apply sections_Forall. eapply Forall_impl; [|exact Ha].
      intros m Hm s' Es'. simpl in Hm. specialize (Hm s' Es').
      destruct (in_window (nodeOffsetTop n - 80 + 100) s') eqn:Hw; [|reflexivity].
      apply in_window_spec in Hw. lia.
  - apply Forall_forall. intros l _. rewrite highlight_classes.
    split; [intros [[_ E]|[N _]]; congruence | intros E; left; split; [reflexivity | exact E]].
Qed.

(** Sections [a], [b] and [c] with a heading in between; the link to [b]. *)
Lemma click_then_highlight_witness :
  exists top,
    linkClick {| href := Some "#b"; linkClasses := ∅ |}
      ([ {| isSection := true; nodeId := Some "a"; nodeOffsetTop := 0; nodeOffsetHeight := 300 |};
         {| isSection := false; nodeId := Some "title"; nodeOffsetTop := 310; nodeOffsetHeight := 40 |} ] ++
       {| isSection := true; nodeId := Some "b"; nodeOffsetTop := 300; nodeOffsetHeight := 500 |} ::
       [ {| isSection := true; nodeId := Some "c"; nodeOffsetTop := 800; nodeOffsetHeight := 400 |} ])
      = Some top /\
    top = 300 - 80 /\
    updateActiveLink top
      (sections
         ([ {| isSection := true; nodeId := Some "a"; nodeOffsetTop := 0; nodeOffsetHeight := 300 |};
            {| isSection := false; nodeId := Some "title"; nodeOffsetTop := 310; nodeOffsetHeight := 40 |} ] ++
          {| isSection := true; nodeId := Some "b"; nodeOffsetTop := 300; nodeOffsetHeight := 500 |} ::
          [ {| isSection := true; nodeId := Some "c"; nodeOffsetTop := 800; nodeOffsetHeight := 400 |} ]))
      [ {| href := Some "#b"; linkClasses := ∅ |} ] =
      map (highlight "b") [ {| href := Some "#b"; linkClasses := ∅ |} ] /\
    Forall (fun l => "active" ∈ linkClasses (highlight "b" l) <-> href l = Some ("#" +:+ "b"))
           [ {| href := Some "#b"; linkClasses := ∅ |} ].
Proof.
  apply (click_then_highlight
           [ {| isSection := true; nodeId := Some "a"; nodeOffsetTop := 0; nodeOffsetHeight := 300 |};
             {| isSection := false; nodeId := Some "title"; nodeOffsetTop := 310; nodeOffsetHeight := 40 |} ]
           [ {| isSection := true; nodeId := Some "c"; nodeOffsetTop := 800; nodeOffsetHeight := 400 |} ]
           {| isSection := true; nodeId := Some "b"; nodeOffsetTop := 300; nodeOffsetHeight := 500 |}
           "b" {| href := Some "#b"; linkClasses := ∅ |}).
  - reflexivity.
  - discriminate.
  - reflexivity.
  - reflexivity.
  - repeat constructor; simpl; discriminate.
  - simpl. lia.
  - repeat constructor. simpl. intros sec [= <-]. simpl. lia.
Defined.

(** An element of another kind that comes first with the id is the one
    scrolled to, and the link ['#'] scrolls nowhere although a section has an
    empty id. *)
Example linkClick_other_element :
  linkClick {| href := Some "#b"; linkClasses := ∅ |}
    [ {| isSection := false; nodeId := Some "b"; nodeOffsetTop := 40; nodeOffsetHeight := 10 |};
      {| isSection := true; nodeId := Some "b"; nodeOffsetTop := 300; nodeOffsetHeight := 500 |} ]
    = Some (-40) /\
  linkClick {| href := Some "#"; linkClasses := ∅ |}
    [ {| isSection := true; nodeId := Some ""; nodeOffsetTop := 300; nodeOffsetHeight := 500 |} ]
    = None.
Proof. split; reflexivity. Qed.

End NavigationMore.

(** ** NavigationController: the mobile menu *)

Module MobileMenuFacts.
Import MobileMenu.

Lemma toggle_contains (c : string) (cl : gset string) :
  classList_contains c (classList_toggle c cl) = negb (classList_contains c cl).
Proof.
  unfold classList_toggle, classList_contains, classList_remove, classList_add.
  destruct (decide (c ∈ cl)) as [Hin|Hin].
  - rewrite !(bool_decide_eq_true_2 _ Hin). simpl.
    apply bool_decide_eq_false_2. rewrite elem_of_difference, elem_of_singleton. tauto.
  - rewrite !(bool_decide_eq_false_2 _ Hin). simpl.
    apply bool_decide_eq_true_2. apply elem_of_union. left. apply elem_of_singleton. reflexivity.
Qed.

Lemma toggle_toggle (c : string) (cl : gset string) :
  classList_toggle c (classList_toggle c cl) = cl.
Proof.
  unfold classList_toggle at 1. rewrite toggle_contains.
  unfold classList_toggle, classList_contains, classList_remove, classList_add.
  destruct (decide (c ∈ cl)) as [Hin|Hin].
  - rewrite !(bool_decide_eq_true_2 _ Hin). simpl. apply set_eq. intros x.
    rewrite elem_of_union, elem_of_difference, !elem_of_singleton.
    destruct (decide (x = c)) as [->|]; tauto.
  - rewrite !(bool_decide_eq_false_2 _ Hin). simpl. apply set_eq. intros x.
    rewrite elem_of_difference, elem_of_union, !elem_of_singleton.
    destruct (decide (x = c)) as [->|]; tauto.
Qed.

Lemma remove_contains (c : string) (cl : gset string) :
  classList_contains c (classList_remove c cl) = false.
Proof.
  unfold classList_contains, classList_remove.
  apply bool_decide_eq_false_2. rewrite elem_of_difference, elem_of_singleton. tauto.
Qed.

(** X10.  With both elements present, [toggleMobileMenu] flips ['active'] on
    the menu and on the hamburger, so that they stay in step, and toggling
    twice restores both class lists; [closeMobileMenu] leaves both without
    ['active'].  Without a hamburger element [closeMobileMenu] throws, after
    it has closed the menu. *)
Theorem mobile_menu_in_step (m h : gset string) :
  let n := {| navMenu := Some m; hamburger := Some h |} in
  (exists n', toggleMobileMenu n = Returns n' /\
     menu_open n' = negb (menu_open n) /\
     hamburger_open n' = negb (hamburger_open n) /\
     (menu_open n = hamburger_open n -> menu_open n' = hamburger_open n') /\
     toggleMobileMenu n' = Returns n) /\
  (exists n', closeMobileMenu n = Returns n' /\
     menu_open n' = false /\ hamburger_open n' = false /\
     closeMobileMenu n' = Returns n') /\
  (exists n', closeMobileMenu {| navMenu := Some m; hamburger := None |} = Throws n' /\
     menu_open n' = false).
Proof.
  intros n. split_and!.
  - eexists. split; [reflexivity|]. unfold menu_open, hamburger_open. simpl.
    rewrite !toggle_contains. split_and!; try reflexivity.
    + intros ->. reflexivity.
    + unfold toggleMobileMenu. simpl. rewrite !toggle_toggle. reflexivity.
  - eexists. split; [reflexivity|]. unfold menu_open, hamburger_open. simpl.
    rewrite !remove_contains. split_and!; try reflexivity.
    unfold closeMobileMenu, classList_remove. simpl.
    replace (m ∖ {["active"]} ∖ {["active"]}) with (m ∖ {["active"]})
      by (apply set_eq; intros x; rewrite !elem_of_difference; tauto).
    replace (h ∖ {["active"]} ∖ {["active"]}) with (h ∖ {["active"]})
      by (apply set_eq; intros x; rewrite !elem_of_difference; tauto).
    reflexivity.
  - eexists. split; [reflexivity|]. unfold menu_open. simpl. apply remove_contains.
Qed.

End MobileMenuFacts.

(** ** TabController: clicks and repeated switches *)

Module TabMore.
Import TabController TabFacts TabClicks.

(** A later marking overrides an earlier one. *)
Lemma marked_override (m m' : element -> bool) (e : element) :
  attr_only m -> attr_only m' -> marked m' (marked m e) = marked m' e.
Proof.
  intros Hm Hm'.
  destruct (marked_attrs m e) as (A1 & A2 & A3).
  destruct (marked_attrs m' (marked m e)) as (B1 & B2 & B3).
  destruct (marked_attrs m' e) as (C1 & C2 & C3).
  apply element_eq; try congruence.
  apply set_eq. intros c. rewrite !marked_classes by assumption.
  rewrite (marked_matches m m' e Hm').
  destruct (decide (c = "active")); tauto.
Qed.

(** What [switchTab] leaves at a handle. *)
Lemma switchTab_at (c : controller) (id : option string) (dom : handle -> element) (h : handle) :
  switchTab c id dom h =
  if bool_decide (h ∈ tabContents c) then marked (content_matches id) (dom h)
  else if bool_decide (h ∈ tabButtons c) then marked (button_matches id) (dom h)
  else dom h.
Proof.
  unfold switchTab.
  rewrite foldl_mark by apply content_matches_attr.
  rewrite foldl_mark by apply button_matches_attr.
  repeat case_bool_decide; try reflexivity.
  apply marked_override; [apply button_matches_attr | apply content_matches_attr].
Qed.

(** X11.  Switching to [b] after switching to [a] leaves every element as
    switching to [b] alone does; in particular switching twice to the same
    tab is the same as switching once. *)
Theorem switchTab_last_wins (c : controller) (a b : option string)
    (dom : handle -> element) (h : handle) :
  switchTab c b (switchTab c a dom) h = switchTab c b dom h.
Proof.
  rewrite (switchTab_at c b (switchTab c a dom)), (switchTab_at c b dom), (switchTab_at c a dom).
  repeat case_bool_decide; try reflexivity;
    apply marked_override;
    first [apply button_matches_attr | apply content_matches_attr].
Qed.

(** X12.  A click on a tab button that is not itself a panel makes that
    button active; any other such button is then active exactly when its
    [data-tab || data-example] equals that of the clicked button, and a
    panel exactly when its id is ['tab-'] or ['example-'] followed by it. *)
Theorem click_activates_button (c : controller) (dom : handle -> element) (h : handle) :
  h ∈ tabButtons c -> h ∉ tabContents c ->
  is_active (click c h dom) h = true /\
  (forall h', h' ∈ tabButtons c -> h' ∉ tabContents c ->
     (is_active (click c h dom) h' = true <-> buttonTabId (dom h') = buttonTabId (dom h))) /\
  (forall p, p ∈ tabContents c ->
     (is_active (click c h dom) p = true <->
      elementId (dom p) = Some ("tab-" +:+ to_string (buttonTabId (dom h))) \/
      elementId (dom p) = Some ("example-" +:+ to_string (buttonTabId (dom h))))).
Proof.
  intros Hb Hn. unfold click. fold (buttonTabId (dom h)). split_and!.
  - rewrite switchTab_button by assumption. unfold button_matches.
    apply bool_decide_eq_true_2. reflexivity.
  - intros h' Hb' Hn'. rewrite switchTab_button by assumption.
    unfold button_matches. apply bool_decide_eq_true.
  - intros p Hp. rewrite switchTab_content by assumption.
    unfold content_matches. rewrite orb_true_iff, !bool_decide_eq_true. reflexivity.
Qed.

Lemma click_activates_button_witness :
  let c := {| tabButtons := [0%nat; 1%nat]; tabContents := [2%nat] |} in
  let dom := fun h : nat =>
    {| data_tab := if Nat.eqb h 0 then Some "a" else Some "b";
       data_example := None;
       elementId := if Nat.eqb h 2 then Some "tab-a" else None;
       classes := ∅ |} in
  is_active (click c 0%nat dom) 0%nat = true /\
  (forall h', h' ∈ tabButtons c -> h' ∉ tabContents c ->
     (is_active (click c 0%nat dom) h' = true <-> buttonTabId (dom h') = buttonTabId (dom 0%nat))) /\
  (forall p, p ∈ tabContents c ->
     (is_active (click c 0%nat dom) p = true <->
      elementId (dom p) = Some ("tab-" +:+ to_string (buttonTabId (dom 0%nat))) \/
      elementId (dom p) = Some ("example-" +:+ to_string (buttonTabId (dom 0%nat))))).
Proof.
  intros c dom. apply (click_activates_button c dom 0%nat).
  - simpl. apply elem_of_cons. left. reflexivity.
  - simpl. intros Hin. apply list_elem_of_singleton in Hin. discriminate.
Defined.

End TabMore.

(** ** FormController: more on validation and submission *)

Module FormMore.
Import Regex RegexFacts FormController FormFacts.

Lemma validateField_error (f : field) :
  "error" ∈ classes (snd (validateField f)) <-> fst (validateField f) = false.
Proof.
  unfold validateField.
  destruct (isValid (name f) (trim (value f))); simpl.
  - unfold classList_remove. rewrite elem_of_difference, elem_of_singleton.
    split; [intros [_ Hne]; congruence | discriminate].
  - unfold classList_add. rewrite elem_of_union, elem_of_singleton.
    split; [reflexivity | auto].
Qed.

Lemma validateField_value (f : field) : value (snd (validateField f)) = value f.
Proof. unfold validateField. destruct (negb _); reflexivity. Qed.

(** X13.  [validateField] leaves the field with the ['error'] class exactly
    when it returns [false]; every other class and every attribute is kept,
    and validating again gives the same answer and the same field. *)
Theorem validateField_marks_invalid (f : field) :
  let '(ok, f') := validateField f in
  ("error" ∈ classes f' <-> ok = false) /\
  (forall c, c <> "error" -> (c ∈ classes f' <-> c ∈ classes f)) /\
  tag f' = tag f /\ name f' = name f /\ required f' = required f /\
  value f' = value f /\ defaultValue f' = defaultValue f /\
  validateField f' = (ok, f').
Proof.
  unfold validateField.
  destruct (isValid (name f) (trim (value f))) eqn:Hv; simpl; rewrite ?Hv; simpl.
  - split_and!; try reflexivity.
    + unfold classList_remove. rewrite elem_of_difference, elem_of_singleton.
      split; [intros [_ Hne]; congruence | discriminate].
    + intros c Hc. unfold classList_remove. rewrite elem_of_difference, elem_of_singleton. tauto.
    + f_equal. unfold set_classes. simpl. f_equal.
      unfold classList_remove. apply set_eq. intros x. rewrite !elem_of_difference. tauto.
  - split_and!; try reflexivity.
    + unfold classList_add, classList_remove.
      rewrite elem_of_union, elem_of_singleton. split; [reflexivity | auto].
    + intros c Hc. unfold classList_add, classList_remove.
      rewrite elem_of_union, elem_of_difference, !elem_of_singleton. tauto.
    + f_equal. unfold set_classes. simpl. f_equal.
      unfold classList_add, classList_remove. apply set_eq. intros x.
      rewrite !elem_of_union, !elem_of_difference, !elem_of_union, !elem_of_singleton.
      rewrite elem_of_difference, elem_of_singleton.
      destruct (decide (x = "error")); tauto.
Qed.

Lemma trimStart_spaces (pre s : jsstring) :
  Forall (fun c => is_space c = true) pre -> trimStart (pre ++ s) = trimStart s.
Proof.
  induction 1 as [|c pre Hc _ IH]; simpl; [reflexivity|]. rewrite Hc. exact IH.
Qed.

Lemma trimStart_app (s p : jsstring) :
  trimStart s <> [] -> trimStart (s ++ p) = trimStart s ++ p.
Proof.
  induction s as [|c s IH]; simpl; [congruence|].
  destruct (is_space c); [exact IH | reflexivity].
Qed.

Lemma trimStart_all_spaces (s : jsstring) :
  trimStart s = [] -> Forall (fun c => is_space c = true) s.
Proof.
  induction s as [|c s IH]; simpl; [constructor|].
  destruct (is_space c) eqn:Hc; [|discriminate].
  intros Hs. constructor; [exact Hc | apply IH, Hs].
Qed.

Lemma trim_surrounded (pre v post : jsstring) :
  Forall (fun c => is_space c = true) pre ->
  Forall (fun c => is_space c = true) post ->
  trim (pre ++ v ++ post) = trim v.
Proof.
  intros Hpre Hpost. unfold trim. rewrite trimStart_spaces by exact Hpre.
  destruct (trimStart v) as [|c r] eqn:Hv.
  - assert (Hall : Forall (fun c => is_space c = true) (v ++ post)).
    { apply Forall_app. split; [apply trimStart_all_spaces, Hv | exact Hpost]. }
    rewrite <- (app_nil_r (v ++ post)), trimStart_spaces by exact Hall. reflexivity.
  - rewrite trimStart_app by (rewrite Hv; discriminate). rewrite Hv.
    rewrite rev_app_distr, trimStart_spaces; [reflexivity|].
    apply Forall_forall. intros x Hx. apply in_rev in Hx.
    revert x Hx. apply Forall_forall. exact Hpost.
Qed.

(** X14.  White space around a value does not change the verdict of
    [validateField]: every rule reads the trimmed value. *)
Theorem validateField_ignores_surrounding_space
    (tg : tagName) (n : option string) (req : bool) (pre v post dv : jsstring) (cl : gset string) :
  Forall (fun c => is_space c = true) pre ->
  Forall (fun c => is_space c = true) post ->
  fst (validateField {| tag := tg; name := n; required := req; value := pre ++ v ++ post;
                        defaultValue := dv; classes := cl |}) =
  fst (validateField {| tag := tg; name := n; required := req; value := v;
                        defaultValue := dv; classes := cl |}).
Proof.
  intros Hpre Hpost. rewrite !validateField_fst. simpl.
  rewrite (trim_surrounded pre v post Hpre Hpost). reflexivity.
Qed.

Lemma validateField_ignores_surrounding_space_witness :
  fst (validateField {| tag := input; name := Some "email"; required := true;
                        value := str "  " ++ str "a@b.com" ++ str " ";
                        defaultValue := []; classes := ∅ |}) =
  fst (validateField {| tag := input; name := Some "email"; required := true;
                        value := str "a@b.com"; defaultValue := []; classes := ∅ |}).
Proof.
  apply validateField_ignores_surrounding_space; repeat constructor.
Defined.

Lemma count_not_space_at (s : jsstring) :
  Forall (fun c => not_space_at c = true) s ->
  count_occ N.eq_dec s at_sign = 0%nat /\ Forall (fun c => is_space c = false) s.
Proof.
  induction 1 as [|c s Hc _ [IH1 IH2]]; [split; [reflexivity | constructor]|].
  unfold not_space_at in Hc. apply negb_true_iff, orb_false_iff in Hc.
  destruct Hc as [Hsp Hat]. apply N.eqb_neq in Hat. split.
  - simpl. destruct (N.eq_dec c at_sign); [congruence | exact IH1].
  - constructor; assumption.
Qed.

(** X15.  A value accepted for a field named ['email'] has, once trimmed,
    exactly one ['@'], no white space and at least five code units, and it
    neither begins nor ends with ['@']. *)
Theorem accepted_email_shape (tg : tagName) (req : bool) (v dv : jsstring) (cl : gset string) :
  fst (validateField {| tag := tg; name := Some "email"; required := req; value := v;
                        defaultValue := dv; classes := cl |}) = true ->
  count_occ N.eq_dec (trim v) at_sign = 1%nat /\
  Forall (fun c => is_space c = false) (trim v) /\
  (5 <= length (trim v))%nat /\
  head (trim v) <> Some at_sign /\
  List.last (trim v) 0%N <> at_sign.
Proof.
  rewrite validateField_fst. simpl.
  change (isValid (Some "email") (trim v)) with (test emailRegex (trim v)).
  rewrite test_matches, emailRegex_shape.
  intros (loc & dom & tld & -> & Nl & Nd & Nt & Hl & Hd & Ht).
  destruct (count_not_space_at loc Hl) as [Cl Sl].
  destruct (count_not_space_at dom Hd) as [Cd Sd].
  destruct (count_not_space_at tld Ht) as [Ct St].
  split_and!.
  - rewrite !count_occ_app, Cl, Cd, Ct. reflexivity.
  - repeat (apply Forall_app; split); try assumption; repeat constructor.
  - destruct loc, dom, tld; try congruence.
    simpl. rewrite !length_app. simpl. rewrite ?length_app. simpl. lia.
  - destruct loc as [|c loc]; [congruence|]. simpl. intros [= ->].
    inversion Hl as [|? ? Hc _]; subst. discriminate.
  - destruct tld as [|c tld _] using rev_ind; [congruence|].
    replace (loc ++ [at_sign] ++ dom ++ [dot] ++ tld ++ [c])
      with ((loc ++ [at_sign] ++ dom ++ [dot] ++ tld) ++ [c])
      by (rewrite <- !app_assoc; reflexivity).
    rewrite List.last_last. intros Hc.
    apply Forall_app in Ht. destruct Ht as [_ Ht].
    inversion Ht as [|? ? Hc' _]; subst. discriminate.
Qed.

Lemma accepted_email_shape_witness :
  count_occ N.eq_dec (trim (str "a@b.com")) at_sign = 1%nat /\
  Forall (fun c => is_space c = false) (trim (str "a@b.com")) /\
  (5 <= length (trim (str "a@b.com")))%nat /\
  head (trim (str "a@b.com")) <> Some at_sign /\
  List.last (trim (str "a@b.com")) 0%N <> at_sign.
Proof.
  apply (accepted_email_shape input true (str "a@b.com") [] ∅). vm_compute. reflexivity.
Defined.

(** X16.  [handleSubmit] validates every required input and select, also
    after a first one has failed: whether it blocks or goes on, each of them
    ends with the ['error'] class exactly when its own rule fails, its value
    is kept, and every other control is left as it was. *)
Theorem handleSubmit_validates_every_field (fm : form) :
  exists fm',
    (handleSubmit fm = Blocked fm' \/ handleSubmit fm = Awaiting fm') /\
    length (controls fm') = length (controls fm) /\
    forall i f, controls fm !! i = Some f ->
      exists f', controls fm' !! i = Some f' /\
        value f' = value f /\
        (selected f = false -> f' = f) /\
        (selected f = true -> ("error" ∈ classes f' <-> fst (validateField f) = false)).
Proof.
  pose proof (handleSubmit_cases fm) as Hc. cbv zeta in Hc.
  set (cs := map (fun f => if selected f then snd (validateField f) else f) (controls fm)) in *.
  assert (Hcs : length cs = length (controls fm) /\
    forall i f, controls fm !! i = Some f ->
      exists f', cs !! i = Some f' /\
        value f' = value f /\
        (selected f = false -> f' = f) /\
        (selected f = true -> ("error" ∈ classes f' <-> fst (validateField f) = false))).
  { split; [apply length_map|]. intros i f Hf.
    exists (if selected f then snd (validateField f) else f). split.
    - unfold cs.
      change (map ?g (controls fm)) with (g <$> controls fm).
      rewrite list_lookup_fmap, Hf. reflexivity.
    - destruct (selected f); split_and!; try congruence; try reflexivity.
      + apply validateField_value.
      + intros _. apply validateField_error. }
  destruct (forallb _ _) in Hc; eexists.
  - split; [right; exact Hc | exact Hcs].
  - split; [left; exact Hc | exact Hcs].
Qed.

(** X17.  When the simulated call succeeds, that is when [Math.random()]
    exceeded the double [0.1], every control is reset to its default value
    and keeps its classes; when it fails, as it does when the value is that
    double itself, every control keeps the value the user entered. *)
Theorem resume_values (random : Q) (fm : form) :
  ((one_tenth < random)%Q ->
     map defaultValue (controls (resume random fm)) = map defaultValue (controls fm) /\
     map value (controls (resume random fm)) = map defaultValue (controls fm) /\
     map classes (controls (resume random fm)) = map classes (controls fm)) /\
  ((random <= one_tenth)%Q -> controls (resume random fm) = controls fm) /\
  (1 # 10 < one_tenth)%Q /\
  controls (resume one_tenth fm) = controls fm.
Proof.
  split_and!; [| | reflexivity | reflexivity];
    unfold resume; destruct (Qlt_le_dec one_tenth random) as [Hr|Hr]; simpl.
  - intros _. rewrite !map_map. simpl. auto.
  - intros Hc. exfalso. apply (Qlt_not_le _ _ Hc Hr).
  - intros Hc. exfalso. apply (Qlt_not_le _ _ Hr Hc).
  - intros _. reflexivity.
Qed.

End FormMore.

(** ** FormController: banners and their removal timers *)

Module BannerFacts.
Import FormController Banners.

Lemma banner_ok_init (t : Z) : banner_ok (init t).
Proof.
  unfold banner_ok, latest_or_expired, timers_known. simpl.
  split_and!; try constructor. intros el t1 t2 Hin. inversion Hin.
Qed.

Lemma banner_ok_show (s : state) (t : Z) (b : banner) :
  clock s <= t -> banner_ok s -> banner_ok (show b (at_time t s)).
Proof.
  intros Ht (Hl & Htm & Hsh & Hun).
  unfold banner_ok, latest_or_expired, timers_known, show. simpl.
  split_and!.
  - left. reflexivity.
  - apply Forall_app. split.
    + eapply Forall_impl; [|exact Htm]. intros [d el] (t0 & Hin & ->).
      exists t0. split; [apply elem_of_cons; right; exact Hin | reflexivity].
    + repeat constructor. exists t. split; [apply elem_of_cons; left | ]; reflexivity.
  - constructor.
    + rewrite length_app. simpl. lia.
    + eapply Forall_impl; [|exact Hsh]. intros [el t0] [H1 H2].
      rewrite length_app. simpl. lia.
  - intros el t1 t2 H1 H2.
    apply elem_of_cons in H1. apply elem_of_cons in H2.
    rewrite Forall_forall in Hsh.
    destruct H1 as [E1|H1]; destruct H2 as [E2|H2].
    + congruence.
    + injection E1 as -> ->. apply list_elem_of_In, Hsh in H2. simpl in H2. lia.
    + injection E2 as -> ->. apply list_elem_of_In, Hsh in H1. simpl in H1. lia.
    + eapply Hun; eassumption.
Qed.

Lemma banner_ok_timer (s : state) (i : nat) (d : Z) (el : handle) (t : Z) :
  timers s !! i = Some (d, el) -> d <= t -> clock s <= t ->
  banner_ok s -> banner_ok (remove_banner el (drop_timer i (at_time t s))).
Proof.
  intros Hi Hd Ht (Hl & Htm & Hsh & Hun).
  assert (Hk : exists t0, (el, t0) ∈ shown s /\ d = t0 + 5000).
  { rewrite Forall_forall in Htm.
    apply (Htm (d, el)). apply list_elem_of_In. eapply list_elem_of_lookup_2. exact Hi. }
  destruct Hk as (t0 & Hin0 & ->).
  unfold banner_ok, latest_or_expired, timers_known, remove_banner, drop_timer, at_time.
  simpl. split_and!.
  - unfold latest_or_expired in Hl. destruct (shown s) as [|[el1 t1] sh] eqn:Es.
    + inversion Hin0.
    + destruct Hl as [Hc|[Hc Hexp]]; rewrite Hc; simpl.
      * destruct (Nat.eqb_spec el1 el) as [->|Hne]; simpl; [|left; reflexivity].
        right. split; [reflexivity|].
        assert (t0 = t1) by (eapply Hun; [exact Hin0 | apply elem_of_cons; left; reflexivity]).
        lia.
      * right. split; [reflexivity | lia].
  - rewrite Forall_forall in Htm |- *. intros x Hx. apply Htm.
    apply list_elem_of_In in Hx. apply list_elem_of_In.
    eapply list_elem_of_delete_inv. exact Hx.
  - eapply Forall_impl; [|exact Hsh]. intros [el1 t1] [H1 H2]. lia.
  - exact Hun.
Qed.

(** X18.  However the success and error banners follow each other and
    however late their removal timers run, the form holds at most one
    banner; it is the one shown last, or none once 5000 time units have
    passed since that one was shown.  The timer of a replaced banner never
    removes its successor. *)
Theorem one_banner (t0 : Z) (s : state) :
  rtc step (init t0) s ->
  (length (children s) <= 1)%nat /\
  latest_or_expired s.
Proof.
  intros Hr.
  assert (Hok : banner_ok s).
  { revert s Hr. apply (rtc_ind_r (fun s => banner_ok s)).
    - apply banner_ok_init.
    - intros y z _ Hstep Hy. destruct Hstep as [s t b Ht|s i d el t Hi Hd Ht].
      + apply banner_ok_show; assumption.
      + eapply banner_ok_timer; eassumption. }
  destruct Hok as [Hl _]. split; [|exact Hl].
  unfold latest_or_expired in Hl. destruct (shown s) as [|[el t] sh].
  - rewrite Hl. simpl. lia.
  - destruct Hl as [->|[-> _]]; simpl; lia.
Qed.

(** An error banner at 0, a success banner at 3000, and the first banner's
    timer running at 5000. *)
Lemma one_banner_witness :
  let s := remove_banner 0
             (drop_timer 0 (at_time 5000
                (showSuccess thanks_message (at_time 3000
                   (showError failure_message (at_time 0 (init 0))))))) in
  (length (children s) <= 1)%nat /\ latest_or_expired s.
Proof.
  apply (one_banner 0).
  eapply rtc_l; [apply (step_show (init 0) 0 (error_message failure_message)); simpl; lia|].
  eapply rtc_l; [apply (step_show _ 3000 (success_message thanks_message)); simpl; lia|].
  apply rtc_once.
  apply (step_timer _ 0%nat 5000 0%nat 5000); [reflexivity | lia | simpl; lia].
Defined.

End BannerFacts.

(** ** ParticleSystem: particles stay on the canvas *)

Module ParticleFacts.
Import ParticleSystem.

Section Facts.
Context `{Rounding}.

Lemma move_bounds (width height : N) (p : particle) :
  (0 <= x (move width height p) <= inject_Z (Z.of_N width))%Q /\
  (0 <= y (move width height p) <= inject_Z (Z.of_N height))%Q /\
  vx (move width height p) = vx p /\ vy (move width height p) = vy p /\
  size (move width height p) = size p /\ opacity (move width height p) = opacity p.
Proof.
  assert (Hw : (0 <= inject_Z (Z.of_N width))%Q) by (unfold Qle; simpl; lia).
  assert (Hh : (0 <= inject_Z (Z.of_N height))%Q) by (unfold Qle; simpl; lia).
  unfold move. simpl.
  destruct (Qlt_le_dec (fadd (x p) (vx p)) 0) as [H1|H1];
    match goal with |- context [Qlt_le_dec ?a ?b] => destruct (Qlt_le_dec a b) as [H2|H2] end;
    destruct (Qlt_le_dec (fadd (y p) (vy p)) 0) as [H3|H3];
    match goal with |- context [Qlt_le_dec ?a ?b] => destruct (Qlt_le_dec a b) as [H4|H4] end;
    split_and!; try reflexivity; lra.
Qed.

(** X19.  After one frame, and so after any number of frames on a canvas
    that keeps its size, every particle lies on the canvas, borders
    included, whatever its velocity and the rounding; no particle is added
    or lost and none changes velocity, size or opacity. *)
Theorem particles_stay_on_canvas (frames : nat) (width height : N) (particles : list particle) :
  let after := animate_n (S frames) width height particles in
  length after = length particles /\
  Forall (fun p => (0 <= x p <= inject_Z (Z.of_N width))%Q /\
                   (0 <= y p <= inject_Z (Z.of_N height))%Q) after /\
  map vx after = map vx particles /\ map vy after = map vy particles /\
  map size after = map size particles /\ map opacity after = map opacity particles.
Proof.
  intros after. unfold after, animate_n.
  assert (Hkeep : forall n,
    let l := Nat.iter n (animate width height) particles in
    length l = length particles /\
    map vx l = map vx particles /\ map vy l = map vy particles /\
    map size l = map size particles /\ map opacity l = map opacity particles).
  { induction n as [|n IH]; [simpl; auto 6|].
    cbv zeta in IH |- *.
    change (Nat.iter (S n) (animate width height) particles)
      with (map (move width height) (Nat.iter n (animate width height) particles)).
    destruct IH as (IH0 & IH1 & IH2 & IH3 & IH4).
    rewrite length_map, !map_map.
    rewrite <- IH1, <- IH2, <- IH3, <- IH4. split_and!; try assumption;
      apply map_ext; intros p; apply (move_bounds width height p). }
  destruct (Hkeep (S frames)) as (K0 & K1 & K2 & K3 & K4).
  split_and!; try assumption.
  change (Nat.iter (S frames) (animate width height) particles)
    with (map (move width height) (Nat.iter frames (animate width height) particles)).
  apply Forall_forall. intros p Hp.
  apply in_map_iff in Hp. destruct Hp as (q & <- & _).
  split; apply (move_bounds width height q).
Qed.

End Facts.

End ParticleFacts.

(** ** Tooltips *)

Module TooltipFacts.
Import Tooltips TooltipEvents.

Lemma filter_out_new (l : list handle) (h : handle) :
  Forall (fun x => (x < h)%nat) l ->
  List.filter (fun x => negb (Nat.eqb x h)) (l ++ [h]) = l.
Proof.
  intros Hl. rewrite List.filter_app. simpl. rewrite Nat.eqb_refl. simpl.
  rewrite app_nil_r. induction Hl as [|x l Hx _ IH]; simpl; [reflexivity|].
  destruct (Nat.eqb_spec x h); [lia|]. simpl. rewrite IH. reflexivity.
Qed.

Lemma fire_middle (b : list handle) (o : list string) (a : gmap handle handle)
    (T rest : list (Z * callback)) (c d : Z) (cb : callback) (t : Z) :
  fire (length T) t (mkState b o a (T ++ (d, cb) :: rest) c) =
  run_callback cb (mkState b o a (T ++ rest) t).
Proof.
  unfold fire. simpl. rewrite lookup_app_r by lia. rewrite Nat.sub_diag. simpl.
  rewrite delete_middle. reflexivity.
Qed.

(** X20.  Entering an element that has no tooltip and leaving it again puts
    the document back as it was once both timers have run: the tooltip
    element is gone, the element has no [_tooltip] and no timer is left. *)
Theorem tooltip_round_trip (target : handle) (s : state) (t1 t2 t3 t4 : Z) :
  attached s !! target = None ->
  Forall (fun h => (h < length (opacities s))%nat) (body s) ->
  let n := length (timers s) in
  let s1 := showTooltip target (at_time t1 s) in
  let s2 := hideTooltip target (at_time t2 s1) in
  let s3 := fire n t3 s2 in
  let s4 := fire n t4 s3 in
  body s4 = body s /\ attached s4 = attached s /\ timers s4 = timers s.
Proof.
  intros Hnone Hbody n s1 s2 s3 s4.
  set (tip := length (opacities s)).
  assert (E2 : s2 = mkState (body s ++ [tip]) (<[tip := "0"]> (opacities s ++ ["0"]))
                            (<[target := tip]> (attached s))
                            (timers s ++ (t1 + 10, fadeIn tip) :: [(t2 + 200, removeTooltip target)])
                            t2).
  { unfold s2, s1, hideTooltip, showTooltip, at_time. simpl.
    rewrite lookup_insert_eq. simpl. rewrite <- app_assoc. reflexivity. }
  assert (E3 : s3 = mkState (body s ++ [tip])
                            (<[tip := "1"]> (<[tip := "0"]> (opacities s ++ ["0"])))
                            (<[target := tip]> (attached s))
                            (timers s ++ [(t2 + 200, removeTooltip target)]) t3).
  { unfold s3, n. rewrite E2, fire_middle. reflexivity. }
  assert (E4 : s4 = mkState (List.filter (fun h => negb (Nat.eqb h tip)) (body s ++ [tip]))
                            (<[tip := "1"]> (<[tip := "0"]> (opacities s ++ ["0"])))
                            (delete target (<[target := tip]> (attached s)))
                            (timers s ++ []) t4).
  { unfold s4, n. rewrite E3, fire_middle. simpl. rewrite lookup_insert_eq. reflexivity. }
  rewrite E4. simpl. split_and!.
  - apply filter_out_new. exact Hbody.
  - rewrite delete_insert_eq. apply delete_id. exact Hnone.
  - apply app_nil_r.
Qed.

Lemma tooltip_round_trip_witness :
  let s := mkState [] [] ∅ [] 0 in
  let s1 := showTooltip 7%nat (at_time 0 s) in
  let s2 := hideTooltip 7%nat (at_time 500 s1) in
  let s3 := fire 0 500 s2 in
  let s4 := fire 0 700 s3 in
  body s4 = body s /\ attached s4 = attached s /\ timers s4 = timers s.
Proof.
  apply (tooltip_round_trip 7%nat (mkState [] [] ∅ [] 0) 0 500 500 700).
  - reflexivity.
  - constructor.
Defined.

Lemma orphan_step (tooltip : handle) (s s' : state) :
  step s s' -> orphan tooltip s -> orphan tooltip s'.
Proof.
  intros Hstep (Hin & Hlt & Hno). destruct Hstep as [s target t Ht|s target t Ht|s i d cb t Hi Hd Ht].
  - unfold orphan, showTooltip, at_time. simpl. split_and!.
    + apply elem_of_app. left. exact Hin.
    + rewrite length_app. simpl. lia.
    + intros tg. destruct (decide (target = tg)) as [->|Hne].
      * rewrite lookup_insert_eq. intros [= E]. lia.
      * rewrite lookup_insert_ne by exact Hne. apply Hno.
  - unfold hideTooltip, at_time. simpl.
    destruct (attached s !! target) as [tip|]; unfold orphan; simpl.
    + rewrite length_insert. auto.
    + auto.
  - unfold fire. rewrite Hi. destruct cb as [tip|target]; simpl.
    + unfold orphan. simpl. rewrite length_insert. auto.
    + destruct (attached s !! target) as [tip|] eqn:Ea; unfold orphan; simpl; [|auto].
      split_and!.
      * apply list_elem_of_In, filter_In. split; [apply list_elem_of_In, Hin|].
        destruct (Nat.eqb_spec tooltip tip) as [->|]; [|reflexivity].
        exfalso. apply (Hno target). exact Ea.
      * exact Hlt.
      * intros tg. destruct (decide (target = tg)) as [->|Hne].
        -- rewrite lookup_delete_eq. discriminate.
        -- rewrite lookup_delete_ne by exact Hne. apply Hno.
Qed.

(** X21.  A tooltip element that is in the document without being any
    element's [_tooltip] is never removed, whatever mouse events and timers
    follow. *)
Theorem orphan_stays (tooltip : handle) (s s' : state) :
  orphan tooltip s -> rtc step s s' -> orphan tooltip s'.
Proof.
  intros Ho Hr. induction Hr as [|x y z Hxy _ IH]; [exact Ho|].
  apply IH. eapply orphan_step; eassumption.
Qed.

Lemma orphan_stays_witness :
  orphan 0%nat (fire 0 300 (mkState [0%nat] ["1"] ∅ [(250, removeTooltip 3%nat)] 100)).
Proof.
  apply (orphan_stays 0%nat (mkState [0%nat] ["1"] ∅ [(250, removeTooltip 3%nat)] 100)).
  - unfold orphan. simpl. split_and!.
    + constructor.
    + lia.
    + intros tg. rewrite lookup_empty. discriminate.
  - apply rtc_once. apply (step_timer _ 0%nat 250 (removeTooltip 3%nat) 300).
    + reflexivity.
    + lia.
    + simpl. lia.
Defined.

Lemma filter_keep_old (l : list handle) (h : handle) :
  Forall (fun x => (x < h)%nat) l ->
  List.filter (fun x => negb (Nat.eqb x h)) l = l.
Proof.
  induction 1 as [|x l Hx _ IH]; simpl; [reflexivity|].
  destruct (Nat.eqb_spec x h); [lia|]. simpl. rewrite IH. reflexivity.
Qed.

(** X22.  Entering an element again before the removal timer of the last
    leave has run makes an orphan: when that timer runs it removes the new
    tooltip, although the pointer is over the element, and the first tooltip
    stays in the document with no reference left to it. *)
Theorem reentry_orphans_tooltip (target : handle) (s : state) (t1 t2 t3 t4 : Z) :
  attached s !! target = None ->
  Forall (fun h => (h < length (opacities s))%nat) (body s) ->
  (forall tg tip, attached s !! tg = Some tip -> (tip < length (opacities s))%nat) ->
  let n := length (timers s) in
  let first := length (opacities s) in
  let s1 := showTooltip target (at_time t1 s) in
  let s2 := hideTooltip target (at_time t2 s1) in
  let s3 := showTooltip target (at_time t3 s2) in
  let s4 := fire (S n) t4 s3 in
  body s4 = body s ++ [first] /\
  attached s4 !! target = None /\
  orphan first s4.
Proof.
  intros Hnone Hbody Hvalid n first s1 s2 s3 s4.
  set (o2 := <[first := "0"]> (opacities s ++ ["0"])).
  assert (Lo : length o2 = S first).
  { unfold o2. rewrite length_insert, length_app. simpl. unfold first. lia. }
  assert (E3 : s3 = mkState ((body s ++ [first]) ++ [S first]) (o2 ++ ["0"])
                            (<[target := S first]> (<[target := first]> (attached s)))
                            ((timers s ++ [(t1 + 10, fadeIn first)]) ++
                             (t2 + 200, removeTooltip target) :: [(t3 + 10, fadeIn (S first))])
                            t3).
  { unfold s3, s2, s1, hideTooltip, showTooltip, at_time. simpl.
    rewrite lookup_insert_eq. simpl. fold first. fold o2. rewrite Lo.
    rewrite <- !app_assoc. reflexivity. }
  assert (E4 : s4 = mkState (List.filter (fun h => negb (Nat.eqb h (S first)))
                                         ((body s ++ [first]) ++ [S first]))
                            (o2 ++ ["0"])
                            (delete target (<[target := S first]> (<[target := first]> (attached s))))
                            ((timers s ++ [(t1 + 10, fadeIn first)]) ++ [(t3 + 10, fadeIn (S first))])
                            t4).
  { unfold s4. rewrite E3.
    replace (S n) with (length (timers s ++ [(t1 + 10, fadeIn first)]))
      by (rewrite length_app; simpl; unfold n; lia).
    rewrite fire_middle. simpl. rewrite lookup_insert_eq. reflexivity. }
  assert (Eb : body s4 = body s ++ [first]).
  { rewrite E4. simpl. apply filter_out_new.
    apply Forall_app. split; [|repeat constructor].
    eapply Forall_impl; [|exact Hbody]. intros h Hh. simpl in Hh. fold first in Hh. lia. }
  assert (Ea : forall tg, attached s4 !! tg = if decide (tg = target) then None else attached s !! tg).
  { intros tg. rewrite E4. simpl. destruct (decide (tg = target)) as [->|Hne].
    - apply lookup_delete_eq.
    - rewrite lookup_delete_ne by congruence. rewrite !lookup_insert_ne by congruence.
      reflexivity. }
  split_and!.
  - exact Eb.
  - rewrite Ea. destruct (decide (target = target)); [reflexivity | congruence].
  - unfold orphan. rewrite Eb. split_and!.
    + apply elem_of_app. right. constructor.
    + rewrite E4. simpl. rewrite length_app, Lo. simpl. lia.
    + intros tg. rewrite Ea. destruct (decide (tg = target)); [discriminate|].
      intros Hc. apply Hvalid in Hc. fold first in Hc. lia.
Qed.

Lemma reentry_orphans_tooltip_witness :
  let s := mkState [] [] ∅ [] 0 in
  let s1 := showTooltip 7%nat (at_time 0 s) in
  let s2 := hideTooltip 7%nat (at_time 500 s1) in
  let s3 := showTooltip 7%nat (at_time 600 s2) in
  let s4 := fire 1 700 s3 in
  body s4 = body s ++ [0%nat] /\
  attached s4 !! 7%nat = None /\
  orphan 0%nat s4.
Proof.
  apply (reentry_orphans_tooltip 7%nat (mkState [] [] ∅ [] 0) 0 500 600 700).
  - reflexivity.
  - constructor.
  - intros tg tip Hc. simpl in Hc. rewrite lookup_empty in Hc. discriminate.
Defined.

End TooltipFacts.
